(** * Message-to-event interpreter of the battle-royale statistics importer

    A shallow embedding of the Go program (package main, the file that
    holds [Processor], and [internal/database/models.go]) together with the
    properties of its interpreter: the per-channel game/round state machine,
    the identity resolver, the two text extractors and the archive loader.

    Go strings are byte strings ([string] of [ascii]); Go [int] is a 64-bit
    two's complement integer, kept as [Z] with the wrap-around written out;
    [time.Time] is an opaque instant kept as [Z]. *)

From Stdlib Require Import ZArith Lia Ascii String List Bool.
From stdpp Require Import base tactics option list strings gmap pretty.

Local Open Scope string_scope.
Local Open Scope list_scope.
Local Open Scope Z_scope.

(** ** Go integers *)

Module GoInt.
(** [int] on the 64-bit targets the program is built for. *)
Definition wrap (z : Z) : Z := (z + 2 ^ 63) mod 2 ^ 64 - 2 ^ 63.
Definition add (a b : Z) : Z := wrap (a + b).
Definition MaxUint64 : Z := 2 ^ 64 - 1.
End GoInt.

(** ** Package [strings] (the functions the program calls) *)

Module GoStrings.

Fixpoint HasPrefix (s prefix : string) : bool :=
  match prefix, s with
  | EmptyString, _ => true
  | String _ _, EmptyString => false
  | String a p', String b s' => if Ascii.eqb a b then HasPrefix s' p' else false
  end.

Fixpoint drop (n : nat) (s : string) : string :=
  match n, s with
  | O, _ => s
  | S _, EmptyString => EmptyString
  | S n', String _ s' => drop n' s'
  end.

Fixpoint take (n : nat) (s : string) : string :=
  match n, s with
  | O, _ => EmptyString
  | S _, EmptyString => EmptyString
  | S n', String c s' => String c (take n' s')
  end.

(** [strings.Index]: byte offset of the first occurrence, [None] for -1. *)
Fixpoint Index (s substr : string) : option nat :=
  if HasPrefix s substr then Some O
  else match s with
       | EmptyString => None
       | String _ s' => S <$> Index s' substr
       end.

Definition Contains (s substr : string) : bool :=
  match Index s substr with Some _ => true | None => false end.

Definition HasSuffix (s suffix : string) : bool :=
  (String.length suffix <=? String.length s)%nat
  && String.eqb (drop (String.length s - String.length suffix) s) suffix.

(** [strings.Replace(s, old, new, 1)]. *)
Definition Replace1 (s old new : string) : string :=
  match Index s old with
  | None => s
  | Some i => take i s +:+ new +:+ drop (i + String.length old) s
  end.

(** [strings.ReplaceAll] for a non-empty [old]: occurrences are taken
    left to right and do not overlap; [skip] counts the bytes of the
    occurrence that is being stepped over. *)
Fixpoint ReplaceAll_go (s old new : string) (skip : nat) : string :=
  match s with
  | EmptyString => EmptyString
  | String c s' =>
      match skip with
      | S k => ReplaceAll_go s' old new k
      | O =>
          if HasPrefix s old
          then new +:+ ReplaceAll_go s' old new (String.length old - 1)
          else String c (ReplaceAll_go s' old new O)
      end
  end.

Definition ReplaceAll (s old new : string) : string := ReplaceAll_go s old new O.

(** [strings.SplitN(s, sep, 2)] for a non-empty [sep]. *)
Definition SplitN2 (s sep : string) : list string :=
  match Index s sep with
  | None => [s]
  | Some i => [take i s; drop (i + String.length sep) s]
  end.

End GoStrings.

(** ** Package [regexp]: a backtracking matcher with Go's leftmost-first
    choice (first alternative first, greedy repetition longest first, lazy
    repetition shortest first), run on bytes.  Every pattern of the program
    delimits its groups by ASCII bytes, so matching bytes and matching runes
    select the same spans. *)

Module Regexp.

Inductive re : Type :=
| Eps
| Lit (c : ascii)
| Cls (p : ascii -> bool)
| Cat (r1 r2 : re)
| Alt (r1 r2 : re)
| Opt (r : re)
| Star (r : re)
| Plus (r : re)
| PlusLazy (r : re)
| Grp (i : nat) (r : re)
| BolM
| EolM.

(** A literal string, and the concatenation of a list of pieces. *)
Fixpoint Str (s : string) : re :=
  match s with
  | EmptyString => Eps
  | String c s' => Cat (Lit c) (Str s')
  end.

Definition Seq (l : list re) : re := foldr Cat Eps l.

Fixpoint size (r : re) : nat :=
  match r with
  | Eps | Lit _ | Cls _ | BolM | EolM => 1
  | Cat a b | Alt a b => S (size a + size b)
  | Opt a | Star a | Plus a | PlusLazy a | Grp _ a => S (size a)
  end.

Definition newline : ascii := "010"%char.

(** Captured groups: group number and captured text. *)
Definition caps := list (nat * string).

Definition cap (i : nat) (c : caps) : string :=
  match List.find (fun p => Nat.eqb (fst p) i) c with
  | Some p => snd p
  | None => ""
  end.

Definition orelse {A} (x y : option A) : option A :=
  match x with Some _ => x | None => y end.

Section Matcher.
Context {R : Type}.

(** [run fuel r prev s c k]: match [r] at the front of [s] ([prev] is
    the byte before it), then continue with [k]. *)
Fixpoint run (fuel : nat) (r : re) (prev : option ascii) (s : string) (c : caps)
         (k : option ascii -> string -> caps -> option R) {struct fuel} : option R :=
  match fuel with
  | O => None
  | S f =>
      match r with
      | Eps => k prev s c
      | Lit a =>
          match s with
          | String b s' => if Ascii.eqb a b then k (Some b) s' c else None
          | EmptyString => None
          end
      | Cls p =>
          match s with
          | String b s' => if p b then k (Some b) s' c else None
          | EmptyString => None
          end
      | Cat r1 r2 => run f r1 prev s c (fun pv s' c' => run f r2 pv s' c' k)
      | Alt r1 r2 => orelse (run f r1 prev s c k) (run f r2 prev s c k)
      | Opt r1 => orelse (run f r1 prev s c k) (k prev s c)
      | Star r1 =>
          orelse
            (run f r1 prev s c (fun pv s' c' =>
               if (String.length s' <? String.length s)%nat
               then run f (Star r1) pv s' c' k else None))
            (k prev s c)
      | Plus r1 => run f r1 prev s c (fun pv s' c' => run f (Star r1) pv s' c' k)
      | PlusLazy r1 =>
          run f r1 prev s c (fun pv s' c' =>
            orelse (k pv s' c')
                   (if (String.length s' <? String.length s)%nat
                    then run f (PlusLazy r1) pv s' c' k else None))
      | Grp i r1 =>
          run f r1 prev s c (fun pv s' c' =>
            k pv s' ((i, GoStrings.take (String.length s - String.length s') s) :: c'))
      | BolM =>
          match prev with
          | None => k prev s c
          | Some b => if Ascii.eqb b newline then k prev s c else None
          end
      | EolM =>
          match s with
          | EmptyString => k prev s c
          | String b _ => if Ascii.eqb b newline then k prev s c else None
          end
      end
  end.
End Matcher.

Definition fuel_for (r : re) (s : string) : nat := (size r + String.length s + 2)%nat.

(** One attempt at the front of [s]: the groups and the unmatched rest. *)
Definition match_here (r : re) (prev : option ascii) (s : string)
  : option (caps * option ascii * string) :=
  run (fuel_for r s) (Grp 0 r) prev s [] (fun pv s' c => Some (c, pv, s')).

(** Leftmost match at or after the front of [s]. *)
Fixpoint find_from (r : re) (prev : option ascii) (s : string)
  : option (caps * option ascii * string) :=
  match match_here r prev s with
  | Some m => Some m
  | None =>
      match s with
      | EmptyString => None
      | String b s' => find_from r (Some b) s'
      end
  end.

(** Successive non-overlapping matches; the patterns of the program never
    match the empty string, so every match makes progress. *)
Fixpoint find_all (fuel : nat) (r : re) (prev : option ascii) (s : string) : list caps :=
  match fuel with
  | O => []
  | S f =>
      match find_from r prev s with
      | None => []
      | Some (c, pv, rest) =>
          if (String.length rest <? String.length s)%nat
          then c :: find_all f r pv rest
          else [c]
      end
  end.

Definition groups (n : nat) (c : caps) : list string := (fun i => cap i c) <$> seq 0 (S n).

(** [re.FindStringSubmatch(s)]: [None] for nil. *)
Definition FindStringSubmatch (r : re) (n : nat) (s : string) : option (list string) :=
  (fun m => groups n (fst (fst m))) <$> find_from r None s.

(** [re.FindAllStringSubmatch(s, -1)]. *)
Definition FindAllStringSubmatch (r : re) (n : nat) (s : string) : list (list string) :=
  groups n <$> find_all (S (String.length s)) r None s.

(** Character classes of the patterns. *)
Definition digit (a : ascii) : bool :=
  let n := nat_of_ascii a in (48 <=? n)%nat && (n <=? 57)%nat.
Definition lower (a : ascii) : bool :=
  let n := nat_of_ascii a in (97 <=? n)%nat && (n <=? 122)%nat.
Definition only (x : ascii) (a : ascii) : bool := Ascii.eqb x a.
Definition except (x : ascii) (a : ascii) : bool := negb (Ascii.eqb x a).
(** [\s] is [\t\n\f\r ]. *)
Definition space (a : ascii) : bool :=
  let n := nat_of_ascii a in
  (n =? 9)%nat || (n =? 10)%nat || (n =? 12)%nat || (n =? 13)%nat || (n =? 32)%nat.
(** [.] is any byte but the newline. *)
Definition dot (a : ascii) : bool := except newline a.

End Regexp.

(** ** The patterns of the program *)

Module Patterns.
Import Regexp.

Definition name_byte (a : ascii) : bool :=
  lower a || digit a || only "_" a || only "." a.
Definition name_or_backslash (a : ascii) : bool := name_byte a || only "\" a.

(** [rxStrDiscordUsername], with its two groups numbered [g] and [g+1]:
    [([a-z0-9_\.\\]*[a-z0-9_\.])(\s+[^\*]+)?] *)
Definition rxStrDiscordUsername (g : nat) : re :=
  Cat (Grp g (Cat (Star (Cls name_or_backslash)) (Cls name_byte)))
      (Opt (Grp (S g) (Cat (Plus (Cls space)) (Plus (Cls (except "*")))))).

(** The alternation [~~\*\*U\*\*~~ | \*\*U\*\*] (a non-capturing group in
    the source), U being [rxStrDiscordUsername]. *)
Definition rxUserFormatted : re :=
  Alt (Seq [Str "~~**"; rxStrDiscordUsername 1; Str "**~~"])
      (Seq [Str "**"; rxStrDiscordUsername 3; Str "**"]).

(** [__([^_]+)__] *)
Definition rxItemFormatted : re :=
  Seq [Str "__"; Grp 1 (Plus (Cls (except "_"))); Str "__"].

Definition not_cr_lf (a : ascii) : bool :=
  except newline a && negb (nat_of_ascii a =? 13)%nat.

(** [(?m)Era:\s+(<:.+:.+>)?\s*([^\r\n]+?)\s*(?:$|\n)] *)
Definition rxEra : re :=
  Seq [Str "Era:"; Plus (Cls space);
       Opt (Grp 1 (Seq [Str "<:"; Plus (Cls dot); Str ":"; Plus (Cls dot); Str ">"]));
       Star (Cls space);
       Grp 2 (PlusLazy (Cls not_cr_lf));
       Star (Cls space);
       Alt EolM (Lit newline)].

(** [(?m)^(<:.+:\d+>)\s+\|\s+([^\n]+?)\s*$] *)
Definition rxInteraction : re :=
  Seq [BolM;
       Grp 1 (Seq [Str "<:"; Plus (Cls dot); Str ":"; Plus (Cls digit); Str ">"]);
       Plus (Cls space); Str "|"; Plus (Cls space);
       Grp 2 (PlusLazy (Cls dot));
       Star (Cls space);
       EolM].

(** [([\d\.]+)x\s+XP\s+multiplier] *)
Definition rxXPMultiplier : re :=
  Seq [Grp 1 (Plus (Cls (fun a => digit a || only "." a)));
       Str "x"; Plus (Cls space); Str "XP"; Plus (Cls space); Str "multiplier"].

(** [\*\*Prize:\*\*\s+(\d+)] *)
Definition rxPrize : re :=
  Seq [Str "**Prize:**"; Plus (Cls space); Grp 1 (Plus (Cls digit))].

End Patterns.

(** ** Packages [unicode/utf8], [unicode] and [strconv] *)

Module utf8.
Definition RuneError : Z := 0xFFFD.

Definition byte_at (s : string) (i : nat) : option Z :=
  match String.get i s with
  | Some a => Some (Z.of_nat (nat_of_ascii a))
  | None => None
  end.

Definition cont (b : Z) : bool := (0x80 <=? b) && (b <=? 0xBF).

(** [utf8.DecodeRuneInString]: the rune at the front of a non-empty
    string and its width; an invalid or short encoding is [RuneError]
    of width 1. *)
Definition DecodeRuneInString (s : string) : Z * nat :=
  match byte_at s 0 with
  | None => (RuneError, 0%nat)
  | Some b0 =>
      if b0 <? 0x80 then (b0, 1%nat)
      else if (0xC2 <=? b0) && (b0 <=? 0xDF) then
        match byte_at s 1 with
        | Some b1 =>
            if cont b1 then (Z.lor (Z.shiftl (Z.land b0 0x1F) 6) (Z.land b1 0x3F), 2%nat)
            else (RuneError, 1%nat)
        | None => (RuneError, 1%nat)
        end
      else if (0xE0 <=? b0) && (b0 <=? 0xEF) then
        match byte_at s 1, byte_at s 2 with
        | Some b1, Some b2 =>
            let lo := if b0 =? 0xE0 then 0xA0 else 0x80 in
            let hi := if b0 =? 0xED then 0x9F else 0xBF in
            if (lo <=? b1) && (b1 <=? hi) && cont b2
            then (Z.lor (Z.shiftl (Z.land b0 0x0F) 12)
                        (Z.lor (Z.shiftl (Z.land b1 0x3F) 6) (Z.land b2 0x3F)), 3%nat)
            else (RuneError, 1%nat)
        | _, _ => (RuneError, 1%nat)
        end
      else if (0xF0 <=? b0) && (b0 <=? 0xF4) then
        match byte_at s 1, byte_at s 2, byte_at s 3 with
        | Some b1, Some b2, Some b3 =>
            let lo := if b0 =? 0xF0 then 0x90 else 0x80 in
            let hi := if b0 =? 0xF4 then 0x8F else 0xBF in
            if (lo <=? b1) && (b1 <=? hi) && cont b2 && cont b3
            then (Z.lor (Z.shiftl (Z.land b0 0x07) 18)
                        (Z.lor (Z.shiftl (Z.land b1 0x3F) 12)
                               (Z.lor (Z.shiftl (Z.land b2 0x3F) 6) (Z.land b3 0x3F))), 4%nat)
            else (RuneError, 1%nat)
        | _, _, _ => (RuneError, 1%nat)
        end
      else (RuneError, 1%nat)
  end.

Definition chr (z : Z) : string := String (ascii_of_nat (Z.to_nat z)) EmptyString.

Definition valid (r : Z) : bool :=
  (0 <=? r) && (r <=? 0x10FFFF) && negb ((0xD800 <=? r) && (r <=? 0xDFFF)).

(** [utf8.AppendRune] on the empty string; an invalid rune is written as
    [RuneError]. *)
Definition EncodeRune (r0 : Z) : string :=
  let r := if valid r0 then r0 else RuneError in
  if r <? 0x80 then chr r
  else if r <? 0x800 then
    chr (Z.lor 0xC0 (Z.shiftr r 6)) +:+ chr (Z.lor 0x80 (Z.land r 0x3F))
  else if r <? 0x10000 then
    chr (Z.lor 0xE0 (Z.shiftr r 12)) +:+ chr (Z.lor 0x80 (Z.land (Z.shiftr r 6) 0x3F))
    +:+ chr (Z.lor 0x80 (Z.land r 0x3F))
  else
    chr (Z.lor 0xF0 (Z.shiftr r 18)) +:+ chr (Z.lor 0x80 (Z.land (Z.shiftr r 12) 0x3F))
    +:+ chr (Z.lor 0x80 (Z.land (Z.shiftr r 6) 0x3F)) +:+ chr (Z.lor 0x80 (Z.land r 0x3F)).
End utf8.

Module unicode.
(** [unicode.IsSpace]: the White_Space property. *)
Definition IsSpace (r : Z) : bool :=
  ((0x09 <=? r) && (r <=? 0x0D)) || (r =? 0x20) || (r =? 0x85) || (r =? 0xA0)
  || (r =? 0x1680) || ((0x2000 <=? r) && (r <=? 0x200A)) || (r =? 0x2028)
  || (r =? 0x2029) || (r =? 0x202F) || (r =? 0x205F) || (r =? 0x3000).

(** The Latin-1 part of [unicode.IsGraphic] (letters, marks, numbers,
    punctuation, symbols and spaces of categories L, M, N, P, S, Zs).  The
    full table is an argument of the interpreter; this part of it runs the
    worked examples, whose text is ASCII. *)
Definition IsGraphic_latin1 (r : Z) : bool :=
  ((0x20 <=? r) && (r <=? 0x7E)) || ((0xA0 <=? r) && (r <=? 0xFF) && negb (r =? 0xAD)).
End unicode.

Module GoStringsMap.
(** [strings.Map(mapping, s)]: a negative result drops the rune. *)
Fixpoint Map_go (mapping : Z -> Z) (s : string) (skip : nat) : string :=
  match s with
  | EmptyString => EmptyString
  | String _ s' =>
      match skip with
      | S k => Map_go mapping s' k
      | O =>
          let '(c, w) := utf8.DecodeRuneInString s in
          let r := mapping c in
          (if r <? 0 then EmptyString else utf8.EncodeRune r)
            +:+ Map_go mapping s' (w - 1)
      end
  end.

Definition Map (mapping : Z -> Z) (s : string) : string := Map_go mapping s 0.
End GoStringsMap.

Module strconv.
Inductive NumError : Type := ErrSyntax | ErrRange.

Definition digit_val (a : ascii) : option Z :=
  if Regexp.digit a then Some (Z.of_nat (nat_of_ascii a) - 48) else None.

(** Value of a string of decimal digits, [None] if another byte occurs. *)
Fixpoint digits (acc : Z) (s : string) : option Z :=
  match s with
  | EmptyString => Some acc
  | String a s' =>
      match digit_val a with
      | Some d => digits (10 * acc + d) s'
      | None => None
      end
  end.

(** [strconv.ParseUint(s, 10, 64)]. *)
Definition ParseUint (s : string) : Z + NumError :=
  match s with
  | EmptyString => inr ErrSyntax
  | _ =>
      match digits 0 s with
      | None => inr ErrSyntax
      | Some v => if v <=? GoInt.MaxUint64 then inl v else inr ErrRange
      end
  end.

(** A [float32] is kept as the decimal it was parsed from,
    [mantissa / 10 ^ scale]; the rounding to binary32 is left out. *)
Record float32 : Type := { mantissa : Z; scale : nat }.
Definition float32_zero : float32 := {| mantissa := 0; scale := 0 |}.

(** Values from this bound on round to infinity in binary32. *)
Definition float32_overflow : Z := 2 ^ 128 - 2 ^ 103.

(** [strconv.ParseFloat(s, 32)] on the inputs the program passes, which
    are matches of [[\d\.]+]: digits with at most one point and at least
    one digit; every other string is reported as a syntax error. *)
Definition ParseFloat32 (s : string) : float32 + NumError :=
  let parts := GoStrings.SplitN2 s "." in
  let ip := List.hd "" parts in
  let fp := List.nth 1 parts "" in
  if (String.length ip + String.length fp =? 0)%nat then inr ErrSyntax
  else
    match digits 0 (ip +:+ fp) with
    | None => inr ErrSyntax
    | Some m =>
        if float32_overflow * 10 ^ Z.of_nat (String.length fp) <=? m
        then inr ErrRange
        else inl {| mantissa := m; scale := String.length fp |}
    end.
End strconv.

(** ** Package [internal/database]: the stored records *)

(** Modelled from the spec: [models.go] declares the records with their
    keys and unique indexes ([Round] is unique on (game, round number),
    [InteractionMessage] on its text), but not every field the interpreter
    uses: the ID of a [User], the host user ID, the channel ID and the
    cancelled flag of a [Game], the user name and the optional user of an
    [InteractionUserMention] and the record [UserNameObservation] are not
    in it.  These are taken as the interpreter reads and writes them and as
    the data model of the spec has them.  A Go pointer field ([*string],
    [*User], [*time.Time]) is an [option]. *)

Module database.

Module User.
Record t : Type := { ID : string }.
Definition zero : t := {| ID := "" |}.
End User.

(** Modelled from the spec: the declaration of [UserNameObservation] is
    not among the sources; its fields are those the interpreter sets, and
    the spec has it as the (actor, display-name, observed-at) tuple of an
    append-only log. *)
Module UserNameObservation.
Record t : Type :=
  { ID : Z; User : User.t; UserID : string; Name : string; Time : Z }.
End UserNameObservation.

Module Item.
Record t : Type := { Name : string }.
End Item.

Module InteractionMessage.
Record t : Type := { ID : Z; Text : string; Event : string }.
Definition with_ID (i : Z) (m : t) : t :=
  {| ID := i; Text := Text m; Event := Event m |}.
End InteractionMessage.

Module InteractionUserMention.
Record t : Type :=
  { ID : Z;
    UserName : string;
    UserID : option string;
    User : option User.t;
    Killed : bool;
    Suffix : string }.
Definition zero : t :=
  {| ID := 0; UserName := ""; UserID := None; User := None;
     Killed := false; Suffix := "" |}.
Definition with_ID (i : Z) (m : t) : t :=
  {| ID := i; UserName := UserName m; UserID := UserID m; User := User m;
     Killed := Killed m; Suffix := Suffix m |}.
Definition with_User (u : User.t) (m : t) : t :=
  {| ID := ID m; UserName := UserName m; UserID := Some (User.ID u); User := Some u;
     Killed := Killed m; Suffix := Suffix m |}.
End InteractionUserMention.

Module Game.
Record t : Type :=
  { ID : Z;
    Era : string;
    HostUserName : option string;
    HostUser : option User.t;
    HostUserID : option string;
    DiscordChannelID : string;
    StartTime : option Z;
    EndTime : option Z;
    CountdownStartTime : Z;
    Cancelled : bool;
    XPMultiplier : strconv.float32;
    RewardCoins : Z }.
Definition zero : t :=
  {| ID := 0; Era := ""; HostUserName := None; HostUser := None; HostUserID := None;
     DiscordChannelID := ""; StartTime := None; EndTime := None;
     CountdownStartTime := 0; Cancelled := false;
     XPMultiplier := strconv.float32_zero; RewardCoins := 0 |}.
Definition with_ID (i : Z) (g : t) : t :=
  {| ID := i; Era := Era g; HostUserName := HostUserName g; HostUser := HostUser g;
     HostUserID := HostUserID g; DiscordChannelID := DiscordChannelID g;
     StartTime := StartTime g; EndTime := EndTime g;
     CountdownStartTime := CountdownStartTime g; Cancelled := Cancelled g;
     XPMultiplier := XPMultiplier g; RewardCoins := RewardCoins g |}.
Definition with_HostUser (u : User.t) (g : t) : t :=
  {| ID := ID g; Era := Era g; HostUserName := HostUserName g; HostUser := Some u;
     HostUserID := Some (User.ID u); DiscordChannelID := DiscordChannelID g;
     StartTime := StartTime g; EndTime := EndTime g;
     CountdownStartTime := CountdownStartTime g; Cancelled := Cancelled g;
     XPMultiplier := XPMultiplier g; RewardCoins := RewardCoins g |}.
Definition with_StartTime (x : option Z) (g : t) : t :=
  {| ID := ID g; Era := Era g; HostUserName := HostUserName g; HostUser := HostUser g;
     HostUserID := HostUserID g; DiscordChannelID := DiscordChannelID g;
     StartTime := x; EndTime := EndTime g;
     CountdownStartTime := CountdownStartTime g; Cancelled := Cancelled g;
     XPMultiplier := XPMultiplier g; RewardCoins := RewardCoins g |}.
Definition with_EndTime (x : option Z) (g : t) : t :=
  {| ID := ID g; Era := Era g; HostUserName := HostUserName g; HostUser := HostUser g;
     HostUserID := HostUserID g; DiscordChannelID := DiscordChannelID g;
     StartTime := StartTime g; EndTime := x;
     CountdownStartTime := CountdownStartTime g; Cancelled := Cancelled g;
     XPMultiplier := XPMultiplier g; RewardCoins := RewardCoins g |}.
Definition with_CountdownStartTime (x : Z) (g : t) : t :=
  {| ID := ID g; Era := Era g; HostUserName := HostUserName g; HostUser := HostUser g;
     HostUserID := HostUserID g; DiscordChannelID := DiscordChannelID g;
     StartTime := StartTime g; EndTime := EndTime g;
     CountdownStartTime := x; Cancelled := Cancelled g;
     XPMultiplier := XPMultiplier g; RewardCoins := RewardCoins g |}.
Definition with_Cancelled (x : bool) (g : t) : t :=
  {| ID := ID g; Era := Era g; HostUserName := HostUserName g; HostUser := HostUser g;
     HostUserID := HostUserID g; DiscordChannelID := DiscordChannelID g;
     StartTime := StartTime g; EndTime := EndTime g;
     CountdownStartTime := CountdownStartTime g; Cancelled := x;
     XPMultiplier := XPMultiplier g; RewardCoins := RewardCoins g |}.
Definition with_XPMultiplier (x : strconv.float32) (g : t) : t :=
  {| ID := ID g; Era := Era g; HostUserName := HostUserName g; HostUser := HostUser g;
     HostUserID := HostUserID g; DiscordChannelID := DiscordChannelID g;
     StartTime := StartTime g; EndTime := EndTime g;
     CountdownStartTime := CountdownStartTime g; Cancelled := Cancelled g;
     XPMultiplier := x; RewardCoins := RewardCoins g |}.
Definition with_RewardCoins (x : Z) (g : t) : t :=
  {| ID := ID g; Era := Era g; HostUserName := HostUserName g; HostUser := HostUser g;
     HostUserID := HostUserID g; DiscordChannelID := DiscordChannelID g;
     StartTime := StartTime g; EndTime := EndTime g;
     CountdownStartTime := CountdownStartTime g; Cancelled := Cancelled g;
     XPMultiplier := XPMultiplier g; RewardCoins := x |}.
End Game.

Module Round.
Record t : Type :=
  { ID : Z; GameID : Z; Game : Game.t; RoundNumber : Z; PostTime : Z }.
Definition zero : t :=
  {| ID := 0; GameID := 0; Game := Game.zero; RoundNumber := 0; PostTime := 0 |}.
Definition with_ID (i : Z) (r : t) : t :=
  {| ID := i; GameID := GameID r; Game := Game r; RoundNumber := RoundNumber r;
     PostTime := PostTime r |}.
Definition with_PostTime (x : Z) (r : t) : t :=
  {| ID := ID r; GameID := GameID r; Game := Game r; RoundNumber := RoundNumber r;
     PostTime := x |}.
(** The columns of the unique index [game_round_idx]. *)
Definition key (r : t) : Z * Z := (GameID r, RoundNumber r).
End Round.

Module Interaction.
Record t : Type :=
  { ID : Z;
    Round : Round.t;
    RoundID : Z;
    Message : InteractionMessage.t;
    MessageID : Z;
    UserMentions : list InteractionUserMention.t;
    Items : list Item.t }.
Definition with_ID (i : Z) (x : t) : t :=
  {| ID := i; Round := Round x; RoundID := RoundID x; Message := Message x;
     MessageID := MessageID x; UserMentions := UserMentions x; Items := Items x |}.
End Interaction.

End database.

Import database.

Global Instance User_eq_dec : EqDecision User.t.
Proof. solve_decision. Defined.
Global Instance Item_eq_dec : EqDecision Item.t.
Proof. solve_decision. Defined.
Global Instance InteractionUserMention_eq_dec : EqDecision InteractionUserMention.t.
Proof. solve_decision. Defined.

(** ** Package [internal/discord]: the decoded export *)

(** Modelled from the spec: the package is not among the sources; the
    records have the fields the spec lists for the input (author, timestamp,
    content, optional interaction, mentions, reactions, embeds with title,
    description, author name and optional footer) under the names the
    interpreter reads them by. *)

Module discord.
Module User.
Record t : Type := { ID : string; Name : string }.
End User.
Module Interaction.
Record t : Type := { User : User.t }.
End Interaction.
Module Reaction.
Record t : Type := { Users : list User.t }.
End Reaction.
Module EmbedAuthor.
Record t : Type := { Name : string }.
End EmbedAuthor.
Module EmbedFooter.
Record t : Type := { Text : string }.
End EmbedFooter.
Module Embed.
Record t : Type :=
  { Title : string; Description : string; Author : EmbedAuthor.t;
    Footer : option EmbedFooter.t }.
End Embed.
Module Message.
Record t : Type :=
  { ID : string;
    Timestamp : Z;
    Content : string;
    Author : User.t;
    Interaction : option Interaction.t;
    Mentions : list User.t;
    Reactions : list Reaction.t;
    Embeds : list Embed.t }.
End Message.
Module Channel.
Record t : Type := { ID : string }.
End Channel.
Module Backup.
Record t : Type := { Channel : Channel.t; Messages : list Message.t }.
End Backup.
End discord.

(** ** The store behind [database.Database] *)

(** Modelled from the spec: the persistence adapter (the [Database] type of
    [internal/database] and the ORM it wraps) is not among the sources.  The
    spec gives its primitives as create, save (upsert by primary key),
    find-first, find-last and find-all, each synchronous, with not-found
    distinct from a hard error.  A table is the list of its rows in insertion
    order.  A zero integer key is assigned on insertion (one more than the
    largest key of the table); create and save enforce the primary key and
    the unique indexes of [models.go]; the only hard errors are violations of
    these.  Of the records nested in a saved value, only the user mentions
    and the items of an interaction are written along with it, since they
    have no other writer. *)

Module gorm.

Record DB : Type :=
  { users : list User.t;
    user_name_observations : list UserNameObservation.t;
    games : list Game.t;
    rounds : list Round.t;
    interactions : list Interaction.t;
    interaction_user_mentions : list InteractionUserMention.t;
    items : list Item.t;
    interaction_messages : list InteractionMessage.t }.

Definition empty : DB :=
  {| users := []; user_name_observations := []; games := []; rounds := [];
     interactions := []; interaction_user_mentions := []; items := [];
     interaction_messages := [] |}.

Definition with_users x (d : DB) : DB :=
  {| users := x; user_name_observations := user_name_observations d; games := games d;
     rounds := rounds d; interactions := interactions d;
     interaction_user_mentions := interaction_user_mentions d; items := items d;
     interaction_messages := interaction_messages d |}.
Definition with_user_name_observations x (d : DB) : DB :=
  {| users := users d; user_name_observations := x; games := games d;
     rounds := rounds d; interactions := interactions d;
     interaction_user_mentions := interaction_user_mentions d; items := items d;
     interaction_messages := interaction_messages d |}.
Definition with_games x (d : DB) : DB :=
  {| users := users d; user_name_observations := user_name_observations d; games := x;
     rounds := rounds d; interactions := interactions d;
     interaction_user_mentions := interaction_user_mentions d; items := items d;
     interaction_messages := interaction_messages d |}.
Definition with_rounds x (d : DB) : DB :=
  {| users := users d; user_name_observations := user_name_observations d; games := games d;
     rounds := x; interactions := interactions d;
     interaction_user_mentions := interaction_user_mentions d; items := items d;
     interaction_messages := interaction_messages d |}.
Definition with_interactions x (d : DB) : DB :=
  {| users := users d; user_name_observations := user_name_observations d; games := games d;
     rounds := rounds d; interactions := x;
     interaction_user_mentions := interaction_user_mentions d; items := items d;
     interaction_messages := interaction_messages d |}.
Definition with_interaction_user_mentions x (d : DB) : DB :=
  {| users := users d; user_name_observations := user_name_observations d; games := games d;
     rounds := rounds d; interactions := interactions d;
     interaction_user_mentions := x; items := items d;
     interaction_messages := interaction_messages d |}.
Definition with_items x (d : DB) : DB :=
  {| users := users d; user_name_observations := user_name_observations d; games := games d;
     rounds := rounds d; interactions := interactions d;
     interaction_user_mentions := interaction_user_mentions d; items := x;
     interaction_messages := interaction_messages d |}.
Definition with_interaction_messages x (d : DB) : DB :=
  {| users := users d; user_name_observations := user_name_observations d; games := games d;
     rounds := rounds d; interactions := interactions d;
     interaction_user_mentions := interaction_user_mentions d; items := items d;
     interaction_messages := x |}.

(** A violated constraint, named by its index. *)
Inductive Error : Type := ErrConstraint (index : string).

(** The key a zero primary key is replaced by on insertion. *)
Definition next_id (ids : list Z) : Z := 1 + foldr Z.max 0 ids.

(** Upsert by key: the row with the key of [row] is replaced where it
    stands, or [row] is appended. *)
Fixpoint upsert {A K : Type} `{EqDecision K} (key : A -> K) (row : A) (tbl : list A)
  : list A :=
  match tbl with
  | [] => [row]
  | x :: t => if decide (key x = key row) then row :: t else x :: upsert key row t
  end.

Definition has_key {A K : Type} `{EqDecision K} (key : A -> K) (k : K) (tbl : list A) : bool :=
  existsb (fun x => bool_decide (key x = k)) tbl.

(** Queries. *)
Definition first_where {A : Type} (p : A -> bool) (tbl : list A) : option A := List.find p tbl.
Definition last_where {A : Type} (p : A -> bool) (tbl : list A) : option A :=
  List.find p (rev tbl).
Definition find_where {A : Type} (p : A -> bool) (tbl : list A) : list A := List.filter p tbl.

(** [Last] without a condition: the row with the greatest primary key;
    [later] keeps the better of the best row so far and the next row. *)
Definition later {A : Type} (key : A -> Z) (best : option A) (x : A) : option A :=
  match best with
  | Some y => if key y <? key x then Some x else best
  | None => Some x
  end.

Definition Last {A : Type} (key : A -> Z) (tbl : list A) : option A :=
  foldl (later key) None tbl.

(** Writes. *)
Definition Save_user (u : User.t) (d : DB) : DB := with_users (upsert User.ID u (users d)) d.

Definition Save_item (i : Item.t) (d : DB) : DB := with_items (upsert Item.Name i (items d)) d.

Definition Save_game (g : Game.t) (d : DB) : Game.t * DB :=
  let g' := if Game.ID g =? 0 then Game.with_ID (next_id (Game.ID <$> games d)) g else g in
  (g', with_games (upsert Game.ID g' (games d)) d).

Definition Save_mention (m : InteractionUserMention.t) (d : DB) : DB :=
  let tbl := interaction_user_mentions d in
  let m' := if InteractionUserMention.ID m =? 0
            then InteractionUserMention.with_ID
                   (next_id (InteractionUserMention.ID <$> tbl)) m
            else m in
  with_interaction_user_mentions (upsert InteractionUserMention.ID m' tbl) d.

Definition Save_message (m : InteractionMessage.t) (d : DB)
  : (InteractionMessage.t * DB) + Error :=
  let tbl := interaction_messages d in
  let m' := if InteractionMessage.ID m =? 0
            then InteractionMessage.with_ID (next_id (InteractionMessage.ID <$> tbl)) m
            else m in
  if existsb (fun x => bool_decide (InteractionMessage.Text x = InteractionMessage.Text m')
                       && negb (InteractionMessage.ID x =? InteractionMessage.ID m')) tbl
  then inr (ErrConstraint "interaction_message_text_idx")
  else inl (m', with_interaction_messages (upsert InteractionMessage.ID m' tbl) d).

Definition Create_observation (o : UserNameObservation.t) (d : DB) : DB :=
  let tbl := user_name_observations d in
  let o' := {| UserNameObservation.ID := next_id (UserNameObservation.ID <$> tbl);
               UserNameObservation.User := UserNameObservation.User o;
               UserNameObservation.UserID := UserNameObservation.UserID o;
               UserNameObservation.Name := UserNameObservation.Name o;
               UserNameObservation.Time := UserNameObservation.Time o |} in
  with_user_name_observations (tbl ++ [o']) d.

Definition Create_round (r : Round.t) (d : DB) : (Round.t * DB) + Error :=
  let tbl := rounds d in
  let r' := if Round.ID r =? 0 then Round.with_ID (next_id (Round.ID <$> tbl)) r else r in
  if has_key Round.ID (Round.ID r') tbl then inr (ErrConstraint "rounds.id")
  else if has_key Round.key (Round.key r') tbl then inr (ErrConstraint "game_round_idx")
  else inl (r', with_rounds (tbl ++ [r']) d).

Fixpoint create_mentions (ms : list InteractionUserMention.t)
         (tbl : list InteractionUserMention.t)
  : list InteractionUserMention.t * list InteractionUserMention.t :=
  match ms with
  | [] => ([], tbl)
  | m :: rest =>
      let m' := if InteractionUserMention.ID m =? 0
                then InteractionUserMention.with_ID
                       (next_id (InteractionUserMention.ID <$> tbl)) m
                else m in
      let tbl' := if has_key InteractionUserMention.ID (InteractionUserMention.ID m') tbl
                  then tbl else tbl ++ [m'] in
      let '(rest', tbl'') := create_mentions rest tbl' in
      (m' :: rest', tbl'')
  end.

Definition create_items (is_ : list Item.t) (tbl : list Item.t) : list Item.t :=
  foldl (fun t i => if has_key Item.Name (Item.Name i) t then t else t ++ [i]) tbl is_.

Definition Create_interaction (i : Interaction.t) (d : DB) : (Interaction.t * DB) + Error :=
  let tbl := interactions d in
  let i0 := if Interaction.ID i =? 0
            then Interaction.with_ID (next_id (Interaction.ID <$> tbl)) i else i in
  if has_key Interaction.ID (Interaction.ID i0) tbl then inr (ErrConstraint "interactions.id")
  else
    let '(ms, mtbl) := create_mentions (Interaction.UserMentions i0)
                                       (interaction_user_mentions d) in
    let i' := {| Interaction.ID := Interaction.ID i0; Interaction.Round := Interaction.Round i0;
                 Interaction.RoundID := Interaction.RoundID i0;
                 Interaction.Message := Interaction.Message i0;
                 Interaction.MessageID := Interaction.MessageID i0;
                 Interaction.UserMentions := ms; Interaction.Items := Interaction.Items i0 |} in
    inl (i', with_interactions (tbl ++ [i'])
               (with_interaction_user_mentions mtbl
                  (with_items (create_items (Interaction.Items i0) (items d)) d))).

End gorm.

(** ** The interpreter: state, errors and the monad its methods run in *)

Definition mainChannelID : string := "1224009923457847428".
Definition shoppingChannelID : string := "1224017701744410695".
Definition botAuthorID : string := "693167035068317736".

Record channelState : Type :=
  { LastKnownIsGameRunning : bool;
    LastKnownGame : Game.t;
    LastKnownRound : Round.t }.

Definition channelState_zero : channelState :=
  {| LastKnownIsGameRunning := false; LastKnownGame := Game.zero;
     LastKnownRound := Round.zero |}.

Definition with_LastKnownIsGameRunning (b : bool) (cs : channelState) : channelState :=
  {| LastKnownIsGameRunning := b; LastKnownGame := LastKnownGame cs;
     LastKnownRound := LastKnownRound cs |}.
Definition with_LastKnownGame (g : Game.t) (cs : channelState) : channelState :=
  {| LastKnownIsGameRunning := LastKnownIsGameRunning cs; LastKnownGame := g;
     LastKnownRound := LastKnownRound cs |}.
Definition with_LastKnownRound (r : Round.t) (cs : channelState) : channelState :=
  {| LastKnownIsGameRunning := LastKnownIsGameRunning cs; LastKnownGame := LastKnownGame cs;
     LastKnownRound := r |}.

(** An argument of a [log.Printf] call. *)
Inductive LogArg : Type :=
| ArgS (s : string)
| ArgD (z : Z)
| ArgMessage (m : discord.Message.t)
| ArgEmbed (e : discord.Embed.t).

(** A line written through package [log]. *)
Inductive LogLine : Type :=
| Printf (format : string) (args : list LogArg)
| FatalLine (text : string).

(** [Processor], with the lines it has logged so far.  [channels] maps a
    channel ID to the state the Go map points to. *)
Record Processor : Type :=
  { db : gorm.DB;
    channels : gmap string channelState;
    LastKnownGameID : Z;
    log : list LogLine }.

Definition with_db (d : gorm.DB) (p : Processor) : Processor :=
  {| db := d; channels := channels p; LastKnownGameID := LastKnownGameID p; log := log p |}.
Definition with_channels (m : gmap string channelState) (p : Processor) : Processor :=
  {| db := db p; channels := m; LastKnownGameID := LastKnownGameID p; log := log p |}.
Definition with_LastKnownGameID (z : Z) (p : Processor) : Processor :=
  {| db := db p; channels := channels p; LastKnownGameID := z; log := log p |}.
Definition with_log (l : list LogLine) (p : Processor) : Processor :=
  {| db := db p; channels := channels p; LastKnownGameID := LastKnownGameID p; log := l |}.

Definition newProcessor (d : gorm.DB) : Processor :=
  {| db := d; channels := ∅; LastKnownGameID := 0; log := [] |}.

(** Go [error] values of the program. *)
Inductive error : Type :=
| errors_New (text : string)
| ErrStore (e : gorm.Error)
| ErrNum (e : strconv.NumError)
| ErrWrap (context : string) (e : error).

(** How a call ends: it returns a value, returns an error, exits through
    [log.Fatal], or panics.  The processor is a pointer receiver, so its
    state at that moment is kept in every case. *)
Inductive result (A : Type) : Type :=
| Ok (a : A) (p : Processor)
| Err (e : error) (p : Processor)
| Fatal (p : Processor)
| Panic (reason : string) (p : Processor).
Arguments Ok {A} a p.
Arguments Err {A} e p.
Arguments Fatal {A} p.
Arguments Panic {A} reason p.

Definition final {A : Type} (r : result A) : Processor :=
  match r with Ok _ p | Err _ p | Fatal p | Panic _ p => p end.

Definition M (A : Type) : Type := Processor -> result A.

Definition ret {A : Type} (a : A) : M A := fun p => Ok a p.

Definition bind {A B : Type} (m : M A) (k : A -> M B) : M B :=
  fun p =>
    match m p with
    | Ok a p' => k a p'
    | Err e p' => Err e p'
    | Fatal p' => Fatal p'
    | Panic r p' => Panic r p'
    end.

Notation "'let*' x ':=' m 'in' k" := (bind m (fun x => k))
  (at level 10, x pattern, m at level 100, k at level 200, right associativity).
Notation "m ;; k" := (bind m (fun _ => k))
  (at level 100, k at level 200, right associativity).

Definition fail {A : Type} (e : error) : M A := fun p => Err e p.
Definition panic {A : Type} (reason : string) : M A := fun p => Panic reason p.
Definition getDB : M gorm.DB := fun p => Ok (db p) p.
Definition putDB (d : gorm.DB) : M unit := fun p => Ok tt (with_db d p).
Definition modifyDB (f : gorm.DB -> gorm.DB) : M unit := fun p => Ok tt (with_db (f (db p)) p).
Definition log_Printf (format : string) (args : list LogArg) : M unit :=
  fun p => Ok tt (with_log (log p ++ [Printf format args]) p).
Definition log_Fatal {A : Type} (text : string) : M A :=
  fun p => Fatal (with_log (log p ++ [FatalLine text]) p).

Fixpoint forEach {A : Type} (f : A -> M unit) (l : list A) : M unit :=
  match l with
  | [] => ret tt
  | x :: rest => f x ;; forEach f rest
  end.

(** [err = f(); break]: the error value is dropped by leaving the loop
    before it is looked at. *)
Definition dropError (m : M unit) : M unit :=
  fun p => match m p with Err _ p' => Ok tt p' | r => r end.

(** [if err != nil { return wrap(err) }]. *)
Definition mapError {A : Type} (f : error -> error) (m : M A) : M A :=
  fun p => match m p with Err e p' => Err (f e) p' | r => r end.

(** [p.channelState(c)]: the state of the channel, entered into the map
    on first use. *)
Definition getChannelState (c : discord.Channel.t) : M channelState :=
  fun p =>
    match channels p !! discord.Channel.ID c with
    | Some st => Ok st p
    | None =>
        Ok channelState_zero
           (with_channels (<[discord.Channel.ID c := channelState_zero]> (channels p)) p)
    end.

(** A write through the pointer [p.channelState(c)] returned. *)
Definition setChannelState (c : discord.Channel.t) (f : channelState -> channelState) : M unit :=
  fun p =>
    let st := default channelState_zero (channels p !! discord.Channel.ID c) in
    Ok tt (with_channels (<[discord.Channel.ID c := f st]> (channels p)) p).

(** ** The methods of [Processor] *)

Definition nth_s (i : nat) (l : list string) : string := List.nth i l "".

Definition unescapeMarkdown (msg : string) : string :=
  let msg := GoStrings.ReplaceAll msg "\_" "_" in
  let msg := GoStrings.ReplaceAll msg "\*" "*" in
  let msg := GoStrings.ReplaceAll msg "\." "." in
  let msg := GoStrings.ReplaceAll msg "\\" "\" in
  msg.

Definition storeCurrentGame (c : discord.Channel.t) : M unit :=
  let* cs := getChannelState c in
  let* d := getDB in
  let '(g, d') := gorm.Save_game (LastKnownGame cs) d in
  putDB d' ;;
  setChannelState c (with_LastKnownGame g).

Definition storeCurrentRound (c : discord.Channel.t) : M unit :=
  let* cs := getChannelState c in
  let* d := getDB in
  match gorm.Create_round (LastKnownRound cs) d with
  | inl (r, d') => putDB d' ;; setChannelState c (with_LastKnownRound r)
  | inr e => fail (ErrStore e)
  end.

Definition storeInteraction (i : Interaction.t) : M Interaction.t :=
  let* d := getDB in
  match gorm.Create_interaction i d with
  | inl (i', d') => putDB d' ;; ret i'
  | inr e => fail (ErrStore e)
  end.

Definition storeUser (u : User.t) : M unit := modifyDB (gorm.Save_user u).

(** [Preload("User")]: the user row the observation points to. *)
Definition preload_User (d : gorm.DB) (o : UserNameObservation.t) : User.t :=
  default User.zero
    (gorm.first_where (fun u => bool_decide (User.ID u = UserNameObservation.UserID o))
                      (gorm.users d)).

Definition lookupUserName (m : discord.Message.t) (name : string) : M (option User.t) :=
  if (String.length name =? 0)%nat then fail (errors_New "empty username")
  else
    let* d := getDB in
    match gorm.last_where (fun o => bool_decide (UserNameObservation.Name o = name))
                          (gorm.user_name_observations d) with
    | None =>
        log_Printf "WARNING: Could not find ID of user name %s for message ID %s, leaving null for now"
                   [ArgS name; ArgS (discord.Message.ID m)] ;;
        ret None
    | Some u => ret (Some (preload_User d u))
    end.

Definition lookupUserID (id : string) : M User.t :=
  if (String.length id =? 0)%nat then fail (errors_New "empty username")
  else
    let* d := getDB in
    match gorm.first_where (fun u => bool_decide (User.ID u = id)) (gorm.users d) with
    | Some u => ret u
    | None =>
        let u := {| User.ID := id |} in
        storeUser u ;; ret u
    end.

Definition storeItem (i : Item.t) : M unit := modifyDB (gorm.Save_item i).

Definition lookupItem (name : string) : M Item.t :=
  let* d := getDB in
  match gorm.first_where (fun i => bool_decide (Item.Name i = name)) (gorm.items d) with
  | Some i => ret i
  | None =>
      let i := {| Item.Name := name |} in
      storeItem i ;; ret i
  end.

Definition storeInteractionMessage (i : InteractionMessage.t) : M InteractionMessage.t :=
  let* d := getDB in
  match gorm.Save_message i d with
  | inl (i', d') => putDB d' ;; ret i'
  | inr e => fail (ErrStore e)
  end.

Definition lookupInteractionMessage (text event : string) : M InteractionMessage.t :=
  let* d := getDB in
  match gorm.first_where
          (fun i => bool_decide (InteractionMessage.Text i = text)
                    && bool_decide (InteractionMessage.Event i = event))
          (gorm.interaction_messages d) with
  | Some i => ret i
  | None =>
      storeInteractionMessage
        {| InteractionMessage.ID := 0; InteractionMessage.Text := text;
           InteractionMessage.Event := event |}
  end.

Definition wrapError (msg : discord.Message.t) (err : error) : error :=
  ErrWrap ("failure at message ID " +:+ discord.Message.ID msg) err.

(** The games whose host is still unresolved and is named [name], and the
    mentions whose user is. *)
Definition unresolved_game (name : string) (g : Game.t) : bool :=
  bool_decide (Game.HostUserID g = None) && bool_decide (Game.HostUserName g = Some name).
Definition unresolved_mention (name : string) (r : InteractionUserMention.t) : bool :=
  bool_decide (InteractionUserMention.UserID r = None)
  && bool_decide (InteractionUserMention.UserName r = name).

(** The two blocks that end [observeUserName]: "find games up to this
    point that had the host user nulled but not the name" and "find
    interactions up to this point that had user ID nulled". *)
Definition fixupGames (user : User.t) (name : string) : M unit :=
  let* d := getDB in
  let games := gorm.find_where (unresolved_game name) (gorm.games d) in
  if (0 <? length games)%nat
  then
    forEach (fun game => modifyDB (fun d => snd (gorm.Save_game (Game.with_HostUser user game) d)))
            games ;;
    log_Printf "WARNING: Fixed up %d games for %s/%s"
               [ArgD (Z.of_nat (length games)); ArgS (User.ID user); ArgS name]
  else ret tt.

Definition fixupMentions (user : User.t) (name : string) : M unit :=
  let* d := getDB in
  let records := gorm.find_where (unresolved_mention name) (gorm.interaction_user_mentions d) in
  if (0 <? length records)%nat
  then
    forEach (fun record => modifyDB (gorm.Save_mention (InteractionUserMention.with_User user record)))
            records ;;
    log_Printf "WARNING: Fixed up %d entries for %s/%s"
               [ArgD (Z.of_nat (length records)); ArgS (User.ID user); ArgS name]
  else if bool_decide (name = "menardi")
  then log_Fatal "Something went wrong here"
  else ret tt.

(** The part of [observeUserName] that follows the check of the last
    observation. *)
Definition observeUserName_record (m : discord.Message.t) (user : User.t) (name : string)
  : M unit :=
  modifyDB (gorm.Create_observation
              {| UserNameObservation.ID := 0; UserNameObservation.User := user;
                 UserNameObservation.UserID := User.ID user;
                 UserNameObservation.Name := name;
                 UserNameObservation.Time := discord.Message.Timestamp m |}) ;;
  fixupGames user name ;;
  fixupMentions user name.

Definition observeUserName (m : discord.Message.t) (id name : string) : M unit :=
  let* user := lookupUserID id in
  let* d := getDB in
  let lastChange := gorm.last_where (fun o => bool_decide (UserNameObservation.UserID o = id))
                                    (gorm.user_name_observations d) in
  if match lastChange with
     | Some o => bool_decide (UserNameObservation.Name o = name)
     | None => false
     end
  then ret tt
  else observeUserName_record m user name.

(** [slices.Index]: the first position holding [x], [None] for -1. *)
Fixpoint slices_Index {A : Type} `{EqDecision A} (l : list A) (x : A) : option nat :=
  match l with
  | [] => None
  | y :: rest => if decide (y = x) then Some O else S <$> slices_Index rest x
  end.

(** The mention a submatch of [rxUserFormatted] stands for (the [switch]
    of [extractUsers]). *)
Definition userInteraction_of (match_ : list string) : InteractionUserMention.t :=
  if negb (String.length (nth_s 1 match_) =? 0)%nat then
    {| InteractionUserMention.ID := 0;
       InteractionUserMention.UserName := unescapeMarkdown (nth_s 1 match_);
       InteractionUserMention.UserID := None; InteractionUserMention.User := None;
       InteractionUserMention.Killed := true;
       InteractionUserMention.Suffix := nth_s 2 match_ |}
  else if negb (String.length (nth_s 3 match_) =? 0)%nat then
    {| InteractionUserMention.ID := 0;
       InteractionUserMention.UserName := unescapeMarkdown (nth_s 3 match_);
       InteractionUserMention.UserID := None; InteractionUserMention.User := None;
       InteractionUserMention.Killed := false;
       InteractionUserMention.Suffix := nth_s 4 match_ |}
  else InteractionUserMention.zero.

Definition users_placeholder (index : nat) : string := "{{users[" +:+ pretty index +:+ "]}}".

(** One turn of the first loop of [extractUsers]. *)
Definition extractUsers_step (st : string * list InteractionUserMention.t) (match_ : list string)
  : string * list InteractionUserMention.t :=
  let '(msg, userInteractions) := st in
  let userInteraction := userInteraction_of match_ in
  let '(index, userInteractions) :=
    match slices_Index userInteractions userInteraction with
    | Some index => (index, userInteractions)
    | None => (length userInteractions, userInteractions ++ [userInteraction])
    end in
  (GoStrings.Replace1 msg (nth_s 0 match_) (users_placeholder index), userInteractions).

(** The first loop of [extractUsers] over the submatches. *)
Definition extractUsers_scan (matches : list (list string)) (msg : string)
  : string * list InteractionUserMention.t :=
  foldl extractUsers_step (msg, []) matches.

(** The second loop: fill out users if possible. *)
Fixpoint extractUsers_fill (m : discord.Message.t) (l : list InteractionUserMention.t)
  : M (list InteractionUserMention.t) :=
  match l with
  | [] => ret []
  | x :: rest =>
      let* user := lookupUserName m (InteractionUserMention.UserName x) in
      let x' := match user with
                | Some u => InteractionUserMention.with_User u x
                | None => x
                end in
      let* rest' := extractUsers_fill m rest in
      ret (x' :: rest')
  end.

Definition extractUsers (m : discord.Message.t) (msg : string)
  : M (string * list InteractionUserMention.t) :=
  let matches := Regexp.FindAllStringSubmatch Patterns.rxUserFormatted 4 msg in
  let '(msg, userInteractions) := extractUsers_scan matches msg in
  let* userInteractions := extractUsers_fill m userInteractions in
  ret (msg, userInteractions).

Definition multi_item_error (msg : string) : error :=
  errors_New ("more than 1 item mention found in message which is not yet supported: " +:+ msg).

(** The loop of [extractItems]. *)
Fixpoint extractItems_loop (matches : list (list string)) (msg : string) (items : list Item.t)
  : M (string * list Item.t) :=
  match matches with
  | [] => ret (msg, items)
  | match_ :: rest =>
      let* item := lookupItem (unescapeMarkdown (nth_s 1 match_)) in
      extractItems_loop rest (GoStrings.Replace1 msg (nth_s 0 match_) "{{item}}")
                        (items ++ [item])
  end.

Definition extractItems (msg : string) : M (string * list Item.t) :=
  let matches := Regexp.FindAllStringSubmatch Patterns.rxItemFormatted 1 msg in
  if (1 <? length matches)%nat then fail (multi_item_error msg)
  else extractItems_loop matches msg [].

Definition createNewGame (c : discord.Channel.t) (m : discord.Message.t) (era : string)
           (hostName : option string) : M unit :=
  let* _ := getChannelState c in
  (fun p => Ok tt (with_LastKnownGameID (GoInt.add (LastKnownGameID p) 1) p)) ;;
  let* id := (fun p => Ok (LastKnownGameID p) p) in
  setChannelState c
    (with_LastKnownGame
       {| Game.ID := id; Game.Era := era; Game.HostUserName := hostName;
          Game.HostUser := None; Game.HostUserID := None;
          Game.DiscordChannelID := discord.Channel.ID c;
          Game.StartTime := None; Game.EndTime := None; Game.CountdownStartTime := 0;
          Game.Cancelled := false; Game.XPMultiplier := strconv.float32_zero;
          Game.RewardCoins := 0 |}) ;;
  match hostName with
  | Some h =>
      let* hostUser := lookupUserName m h in
      match hostUser with
      | Some u => setChannelState c (fun cs => with_LastKnownGame (Game.with_HostUser u (LastKnownGame cs)) cs)
      | None => ret tt
      end
  | None => ret tt
  end ;;
  setChannelState c
    (fun cs => with_LastKnownRound
                 {| Round.ID := 0; Round.GameID := Game.ID (LastKnownGame cs);
                    Round.Game := LastKnownGame cs; Round.RoundNumber := 0;
                    Round.PostTime := 0 |} cs) ;;
  setChannelState c (with_LastKnownIsGameRunning false).

Definition createNewRound (c : discord.Channel.t) (roundNumber : Z) : M unit :=
  let* _ := getChannelState c in
  setChannelState c
    (fun cs => with_LastKnownRound
                 {| Round.ID := 0; Round.GameID := Game.ID (LastKnownGame cs);
                    Round.Game := LastKnownGame cs; Round.RoundNumber := roundNumber;
                    Round.PostTime := 0 |} cs).

Definition not_running (what : string) : error :=
  errors_New ("found " +:+ what +:+ " when no game considered running").

(** The check that [processGameWinner], [processGameCancelled],
    [processRound] and [processEventRound] each open with; [what] is the
    wording that differs between them, [body] the rest of the handler. *)
Definition guard_running (c : discord.Channel.t) (arg : LogArg) (what : string)
           (body : M unit) : M unit :=
  let* cs := getChannelState c in
  if negb (LastKnownIsGameRunning cs) then
    if Game.ID (LastKnownGame cs) =? 0 then
      log_Printf "WARNING: Ignoring first incomplete round data: %+v" [arg] ;;
      ret tt
    else
      log_Printf ("ERROR: Seeing " +:+ what +:+ " for an unknown game, failing: %+v") [arg] ;;
      fail (not_running what)
  else body.

Definition processGameWinner (c : discord.Channel.t) (m : discord.Message.t) : M unit :=
  guard_running c (ArgMessage m) "game winner data"
    (setChannelState c
       (fun cs => with_LastKnownGame
                    (Game.with_EndTime (Some (discord.Message.Timestamp m)) (LastKnownGame cs)) cs) ;;
     storeCurrentGame c ;;
     setChannelState c (with_LastKnownIsGameRunning false)).

Definition processGameCancelled (c : discord.Channel.t) (m : discord.Message.t) : M unit :=
  guard_running c (ArgMessage m) "game cancellation"
    (setChannelState c
       (fun cs => with_LastKnownGame
                    (Game.with_Cancelled true
                       (Game.with_EndTime (Some (discord.Message.Timestamp m))
                                          (LastKnownGame cs))) cs) ;;
     storeCurrentGame c ;;
     setChannelState c (with_LastKnownIsGameRunning false)).

Definition processGameSummary (c : discord.Channel.t) (e : discord.Embed.t) : M unit :=
  guard_running c (ArgEmbed e) "game summary data" (ret tt).

Section Interpreter.

(** The table behind [unicode.IsGraphic]. *)
Variable unicode_IsGraphic : Z -> bool.

Definition filterGraphic (r : Z) : Z :=
  if unicode_IsGraphic r || unicode.IsSpace r then r else -1.

Definition processGameCountdownStart (c : discord.Channel.t) (m : discord.Message.t)
           (e : discord.Embed.t) : M unit :=
  let cleanDesc := GoStringsMap.Map filterGraphic (discord.Embed.Description e) in
  let cleanTitle := GoStringsMap.Map filterGraphic (discord.Embed.Title e) in
  let era := match Regexp.FindStringSubmatch Patterns.rxEra 2 cleanDesc with
             | Some match_ => nth_s 2 match_
             | None => ""
             end in
  let hostUserName := match GoStrings.SplitN2 cleanTitle " hosted by " with
                      | [_; username] => Some (unescapeMarkdown username)
                      | _ => None
                      end in
  createNewGame c m era hostUserName ;;
  let* _ := getChannelState c in
  setChannelState c
    (fun cs => with_LastKnownGame
                 (Game.with_CountdownStartTime (discord.Message.Timestamp m) (LastKnownGame cs))
                 cs).

(** The body of the loop of [processRound] over the narrative lines. *)
Definition processRound_line (c : discord.Channel.t) (m : discord.Message.t)
           (line : list string) : M unit :=
  let* (line1, userInteractions) := extractUsers m (nth_s 2 line) in
  let* (line2, items) := extractItems line1 in
  let* interactionMessage := lookupInteractionMessage line2 "" in
  let* cs := getChannelState c in
  let* _ := storeInteraction
              {| Interaction.ID := 0;
                 Interaction.Round := LastKnownRound cs;
                 Interaction.RoundID := Round.ID (LastKnownRound cs);
                 Interaction.Message := interactionMessage;
                 Interaction.MessageID := InteractionMessage.ID interactionMessage;
                 Interaction.UserMentions := userInteractions;
                 Interaction.Items := items |} in
  ret tt.

Definition processEventRound (c : discord.Channel.t) (m : discord.Message.t)
           (e : discord.Embed.t) : M unit :=
  guard_running c (ArgEmbed e) "event round data"
    (setChannelState c
       (fun cs => with_LastKnownRound
                    (Round.with_PostTime (discord.Message.Timestamp m) (LastKnownRound cs)) cs) ;;
     storeCurrentRound c ;;
     let cleanDesc := GoStringsMap.Map filterGraphic (discord.Embed.Description e) in
     let cleanTitle := GoStringsMap.Map filterGraphic (discord.Embed.Title e) in
     match GoStrings.SplitN2 cleanTitle " - " with
     | [_; eventTitle] =>
         let eventDescription := List.hd "" (GoStrings.SplitN2 cleanDesc (String Regexp.newline (String Regexp.newline ""))) in
         let* (cleanDesc, userInteractions) := extractUsers m cleanDesc in
         let* (_, items) := extractItems cleanDesc in
         let* interactionMessage := lookupInteractionMessage eventDescription eventTitle in
         let* cs := getChannelState c in
         let* _ := storeInteraction
                     {| Interaction.ID := 0;
                        Interaction.Round := LastKnownRound cs;
                        Interaction.RoundID := Round.ID (LastKnownRound cs);
                        Interaction.Message := interactionMessage;
                        Interaction.MessageID := InteractionMessage.ID interactionMessage;
                        Interaction.UserMentions := userInteractions;
                        Interaction.Items := items |} in
         let* cs := getChannelState c in
         createNewRound c (GoInt.add (Round.RoundNumber (LastKnownRound cs)) 1)
     | _ => panic "index out of range [1] with length 1"
     end).

Definition processRound (c : discord.Channel.t) (m : discord.Message.t)
           (e : discord.Embed.t) : M unit :=
  guard_running c (ArgEmbed e) "round data"
    (if GoStrings.Contains (discord.Embed.Title e) " - "
     then processEventRound c m e
     else
       setChannelState c
         (fun cs => with_LastKnownRound
                      (Round.with_PostTime (discord.Message.Timestamp m) (LastKnownRound cs)) cs) ;;
       storeCurrentRound c ;;
       forEach (processRound_line c m)
               (Regexp.FindAllStringSubmatch Patterns.rxInteraction 2
                                             (discord.Embed.Description e)) ;;
       let* cs := getChannelState c in
       createNewRound c (GoInt.add (Round.RoundNumber (LastKnownRound cs)) 1)).

Definition processGameStart (c : discord.Channel.t) (m : discord.Message.t)
           (e : discord.Embed.t) : M unit :=
  let cleanDesc := GoStringsMap.Map filterGraphic (discord.Embed.Description e) in
  let* _ := getChannelState c in
  setChannelState c (with_LastKnownIsGameRunning true) ;;
  setChannelState c
    (fun cs => with_LastKnownGame
                 (Game.with_StartTime (Some (discord.Message.Timestamp m)) (LastKnownGame cs)) cs) ;;
  match Regexp.FindStringSubmatch Patterns.rxPrize 1 cleanDesc with
  | Some match_ =>
      match strconv.ParseUint (nth_s 1 match_) with
      | inl prize =>
          setChannelState c
            (fun cs => with_LastKnownGame (Game.with_RewardCoins prize (LastKnownGame cs)) cs)
      | inr err => fail (ErrNum err)
      end
  | None => ret tt
  end ;;
  match Regexp.FindStringSubmatch Patterns.rxXPMultiplier 1 cleanDesc with
  | Some match_ =>
      match strconv.ParseFloat32 (nth_s 1 match_) with
      | inl multiplier =>
          setChannelState c
            (fun cs => with_LastKnownGame (Game.with_XPMultiplier multiplier (LastKnownGame cs)) cs)
      | inr err => fail (ErrNum err)
      end
  | None => ret tt
  end ;;
  storeCurrentGame c.

(** How a turn of the loop over the embeds of a message ends. *)
Inductive flow : Type := Next | BreakEmbedLoop.

Definition title_is (e : discord.Embed.t) (s : string) : bool :=
  String.eqb (discord.Embed.Title e) s.
Definition author_is (e : discord.Embed.t) (s : string) : bool :=
  String.eqb (discord.EmbedAuthor.Name (discord.Embed.Author e)) s.
Definition title_contains (e : discord.Embed.t) (s : string) : bool :=
  GoStrings.Contains (discord.Embed.Title e) s.
Definition author_contains (e : discord.Embed.t) (s : string) : bool :=
  GoStrings.Contains (discord.EmbedAuthor.Name (discord.Embed.Author e)) s.

(** The cases of the [switch] that come after the round case and do
    nothing. *)
Definition ignored (e : discord.Embed.t) : bool :=
  String.eqb (discord.Embed.Description e) "Your inventory is empty."
  || String.eqb (discord.Embed.Description e) "You already have this title equipped!"
  || author_contains e "'s Profile"
  || title_contains e "'s Battle History"
  || title_contains e "Event Quests"
  || (GoStrings.HasPrefix (discord.Embed.Title e) "Season"
      && GoStrings.HasSuffix (discord.Embed.Title e) "| Overview")
  || (GoStrings.HasSuffix (discord.Embed.Title e) "Leaderboard:"
      || GoStrings.HasPrefix (discord.Embed.Title e) "Leaderboard ")
  || author_is e "Title Change"
  || (author_is e "Quotes | View" || title_is e "Quotes | View" || title_is e "Quotes | Select")
  || author_is e "Banners"
  || title_is e "Banners"
  || GoStrings.HasPrefix (discord.Embed.Title e) "COSMETICS"
  || (title_contains e "umble" && title_contains e "ass" && title_contains e "eason")
  || GoStrings.Contains (discord.Embed.Description e) "Thanks for voting! Enjoy your free"
  || title_is e "Vote for Rumble Royale"
  || title_is e "Rumble Royale Info"
  || title_is e "Rumble Royale Overview"
  || title_is e "Rumble Royale Commands"
  || title_contains e "Era Phrases"
  || (title_is e "Black Market" || author_is e "Black Market")
  || title_is e "We're glad you're enjoying the bot"
  || title_is e "Backpack Rewards!"
  || title_contains e "Weekly Reward"
  || title_contains e "Daily Reward".

(** The first case of the [switch]: the announcement of a countdown. *)
Definition countdown_announcement (embed : discord.Embed.t) : bool :=
  title_contains embed "hosted by "
  || match discord.Embed.Footer embed with
     | Some f => String.eqb (discord.EmbedFooter.Text f) "Automatic Session"
     | None => false
     end.

(** One turn of [embedLoop]: the [switch] and the error check after it. *)
Definition processEmbed (c : discord.Channel.t) (msg : discord.Message.t)
           (embedIndex : nat) (embed : discord.Embed.t) : M flow :=
  if countdown_announcement embed
  then mapError (wrapError msg) (processGameCountdownStart c msg embed) ;; ret Next
  else if GoStrings.HasPrefix (discord.Embed.Description embed) "Starting in "
  then ret Next
  else if GoStrings.HasPrefix (discord.Embed.Title embed) "Started a new "
  then mapError (wrapError msg) (processGameStart c msg embed) ;; ret Next
  else if title_is embed "Rumble Royale session cancelled"
  then dropError (processGameCancelled c msg) ;; ret BreakEmbedLoop
  else if (embedIndex =? 0)%nat && title_contains embed "WINNER!"
  then dropError (processGameWinner c msg) ;; ret BreakEmbedLoop
  else if author_contains embed "'s balance"
          || author_contains embed "'s backpacks"
          || (author_contains embed "'s Classic Era Items and Skins"
              && bool_decide (is_Some (discord.Message.Interaction msg)))
  then
    let fields := GoStrings.SplitN2 (discord.EmbedAuthor.Name (discord.Embed.Author embed)) "'" in
    match discord.Message.Interaction msg with
    | Some i =>
        observeUserName msg (discord.User.ID (discord.Interaction.User i))
                        (unescapeMarkdown (List.hd "" fields)) ;;
        ret BreakEmbedLoop
    | None => panic "invalid memory address or nil pointer dereference"
    end
  else if GoStrings.HasPrefix (discord.Embed.Title embed) "__Round "
  then mapError (wrapError msg) (processRound c msg embed) ;; ret Next
  else if ignored embed
  then ret Next
  else
    log_Printf "ignoring unhandled message:\n\n%s\n\n%s\n\n"
               [ArgS (discord.Message.Content msg); ArgEmbed embed] ;;
    ret Next.

Fixpoint embedLoop (c : discord.Channel.t) (msg : discord.Message.t)
         (embedIndex : nat) (embeds : list discord.Embed.t) : M unit :=
  match embeds with
  | [] => ret tt
  | embed :: rest =>
      let* f := processEmbed c msg embedIndex embed in
      match f with
      | Next => embedLoop c msg (S embedIndex) rest
      | BreakEmbedLoop => ret tt
      end
  end.

Definition observe_discord_user (msg : discord.Message.t) (u : discord.User.t) : M unit :=
  observeUserName msg (discord.User.ID u) (discord.User.Name u).

(** The body of the loop of [processExport] over the messages. *)
Definition processMessage (c : discord.Channel.t) (msg : discord.Message.t) : M unit :=
  match discord.Message.Interaction msg with
  | Some i => observe_discord_user msg (discord.Interaction.User i)
  | None => ret tt
  end ;;
  forEach (observe_discord_user msg) (discord.Message.Mentions msg) ;;
  forEach (fun reaction => forEach (observe_discord_user msg) (discord.Reaction.Users reaction))
          (discord.Message.Reactions msg) ;;
  if negb (String.eqb (discord.User.ID (discord.Message.Author msg)) botAuthorID)
  then observe_discord_user msg (discord.Message.Author msg)
  else embedLoop c msg 0 (discord.Message.Embeds msg).

Definition processExport (backup : discord.Backup.t) : M unit :=
  forEach (processMessage (discord.Backup.Channel backup)) (discord.Backup.Messages backup).

(** The last loop of [processDir] in [runImport]: every export, in the
    order the files were sorted in, is decoded (to the error of the JSON
    decoder or to a backup) and processed. *)
Definition processBackups (files : list (string * (error + discord.Backup.t))) : M unit :=
  forEach
    (fun f =>
       match snd f with
       | inl err => fail (ErrWrap ("failed to parse message export " +:+ fst f) err)
       | inr backup =>
           mapError (ErrWrap ("failure in message export " +:+ fst f)) (processExport backup)
       end)
    files.

(** [runImport] on a store: a new processor replays the sorted exports. *)
Definition runImport (d : gorm.DB) (files : list (string * (error + discord.Backup.t)))
  : result unit :=
  processBackups files (newProcessor d).

End Interpreter.

(** ** The archive loader: [walkFunc] of [runImport] *)

Module loader.

(** [filepath.Ext]: the suffix from the last dot of the last path
    element on, empty without such a dot. *)
Fixpoint Ext (path : string) : string :=
  match path with
  | EmptyString => EmptyString
  | String ch rest =>
      if GoStrings.Contains rest "/" then Ext rest
      else if negb (String.length (Ext rest) =? 0)%nat then Ext rest
      else if Ascii.eqb ch "." then path
      else EmptyString
  end.

(** The runes of a string. *)
Fixpoint runes_go (s : string) (skip : nat) : list Z :=
  match s with
  | EmptyString => []
  | String _ s' =>
      match skip with
      | S k => runes_go s' k
      | O => let '(r, w) := utf8.DecodeRuneInString s in r :: runes_go s' (w - 1)
      end
  end.

(** [strings.EqualFold(ext, ".json")]: equality under simple case
    folding, where [s] also folds to U+017F. *)
Definition EqualFold_json (ext : string) : bool :=
  match runes_go ext 0 with
  | [d; j; s; o; n] =>
      (d =? 0x2E) && ((j =? 0x6A) || (j =? 0x4A))
      && ((s =? 0x73) || (s =? 0x53) || (s =? 0x17F))
      && ((o =? 0x6F) || (o =? 0x4F)) && ((n =? 0x6E) || (n =? 0x4E))
  | _ => false
  end.

Record FileInfo : Type := { IsDir : bool; Name : string }.

(** What the JSON decoder makes of a file: an error, or the timestamps
    of the [messages] array (the only field [walkFunc] decodes). *)
Inductive Decoded : Type :=
| DecodeFails (err : error)
| DecodeOk (Messages : list Z).

(** An opened file: its name, what decoding it gives, and the error of
    rewinding it, if any. *)
Record File : Type :=
  { FileName : string; Decode : Decoded; Seek : option error }.

Record backupFile : Type := { firstMessageTime : Z; file : File }.

(** How a call of [walkFunc] ends: it returns (nil or an error) with the
    slice of backups it closes over, or the runtime panics. *)
Inductive walk_result : Type :=
| Return (err : option error) (backupFiles : list backupFile)
| RuntimePanic (reason : string).

(** [os.OpenFile] is the argument [open]. *)
Definition walkFunc (open : string -> File + error) (backupFiles : list backupFile)
           (path : string) (info : FileInfo) (err : option error) : walk_result :=
  match err with
  | Some e => Return (Some e) backupFiles
  | None =>
      if IsDir info || negb (EqualFold_json (Ext (Name info))) then Return None backupFiles
      else
        match open path with
        | inr e => Return (Some e) backupFiles
        | inl r =>
            match Decode r with
            | DecodeFails e => Return (Some e) backupFiles
            | DecodeOk Messages =>
                match Seek r with
                | Some e => Return (Some e) backupFiles
                | None =>
                    match Messages with
                    | [] => RuntimePanic "index out of range [0] with length 0"
                    | firstMessage :: _ =>
                        Return None
                               (backupFiles ++ [{| file := r; firstMessageTime := firstMessage |}])
                    end
                end
            end
        end
  end.

End loader.

(** ** The dump: [runDump] *)

Module dump.

(** How [runDump] ends: it returns (nil or an error) once the header for
    [latestTimestamp] has been handed to the standard output, or the runtime
    panics. *)
Inductive result : Type :=
| Return (latestTimestamp : Z) (err : option error)
| RuntimePanic (reason : string).

(** The instants collected from the last game; [None] when reading
    [*lastGame.EndTime] dereferences nil. *)
Definition game_timestamps (lastGame : Game.t) : option (list Z) :=
  let timestamps := [Game.CountdownStartTime lastGame] in
  match
    match Game.StartTime lastGame with
    | Some _ =>
        match Game.EndTime lastGame with
        | Some t => Some (timestamps ++ [t])
        | None => None
        end
    | None => Some timestamps
    end
  with
  | Some timestamps =>
      Some (match Game.EndTime lastGame with
            | Some t => timestamps ++ [t]
            | None => timestamps
            end)
  | None => None
  end.

(** The loop over [timestamps]; [latestTimestamp] starts as the zero time. *)
Definition latest (timestamps : list Z) : Z :=
  foldl (fun latestTimestamp ts => if latestTimestamp <? ts then ts else latestTimestamp)
        0 timestamps.

(** [os.Stdout.WriteString] of the header and [db.Export] are the
    arguments [WriteString] and [Export]; the queries of the store have no
    hard error. *)
Definition runDump (WriteString : Z -> option error) (Export : gorm.DB -> option error)
           (d : gorm.DB) : result :=
  match
    match gorm.Last Game.ID (gorm.games d) with
    | None => Some []
    | Some lastGame => game_timestamps lastGame
    end
  with
  | None => RuntimePanic "invalid memory address or nil pointer dereference"
  | Some timestamps =>
      let timestamps :=
        match gorm.Last Round.ID (gorm.rounds d) with
        | None => timestamps
        | Some lastRound => timestamps ++ [Round.PostTime lastRound]
        end in
      let latestTimestamp := latest timestamps in
      match WriteString latestTimestamp with
      | Some err => Return latestTimestamp (Some err)
      | None => Return latestTimestamp (Export d)
      end
  end.

End dump.

(** * The vocabulary of the properties *)

(** The state [p.channelState(c)] points to, the zero state if the channel
    has not been entered into the map yet. *)
Definition chan (p : Processor) (c : discord.Channel.t) : channelState :=
  default channelState_zero (channels p !! discord.Channel.ID c).

(** The processor once [p.channelState(c)] has been called. *)
Definition entered (c : discord.Channel.t) (p : Processor) : Processor :=
  match channels p !! discord.Channel.ID c with
  | Some _ => p
  | None => with_channels (<[discord.Channel.ID c := channelState_zero]> (channels p)) p
  end.

Definition warned (arg : LogArg) (c : discord.Channel.t) (p : Processor) : Processor :=
  with_log (log p ++ [Printf "WARNING: Ignoring first incomplete round data: %+v" [arg]])
           (entered c p).

Definition refused (arg : LogArg) (what : string) (c : discord.Channel.t) (p : Processor)
  : Processor :=
  with_log (log p ++ [Printf ("ERROR: Seeing " +:+ what +:+ " for an unknown game, failing: %+v")
                             [arg]])
           (entered c p).

(** Every error [m] can return satisfies [P]. *)
Definition errs_in {A : Type} (P : error -> Prop) (m : M A) : Prop :=
  forall p e p', m p = Err e p' -> P e.

(** The error of the spec's [InconsistentState]: a lifecycle message seen
    while no game is considered running. *)
Definition InconsistentState (e : error) : Prop := exists what, e = not_running what.

Definition other_error (e : error) : Prop := ~ InconsistentState e.

(** The store once the user [id] is known to it. *)
Definition ensure_user (id : string) (d : gorm.DB) : gorm.DB :=
  match gorm.first_where (fun u => bool_decide (User.ID u = id)) (gorm.users d) with
  | Some _ => d
  | None => gorm.Save_user {| User.ID := id |} d
  end.

(** The last name observed for a user. *)
Definition last_name_of (id : string) (d : gorm.DB) : option string :=
  UserNameObservation.Name
    <$> gorm.last_where (fun o => bool_decide (UserNameObservation.UserID o = id))
                        (gorm.user_name_observations d).

Definition new_observation (m : discord.Message.t) (id name : string) : UserNameObservation.t :=
  {| UserNameObservation.ID := 0; UserNameObservation.User := {| User.ID := id |};
     UserNameObservation.UserID := id; UserNameObservation.Name := name;
     UserNameObservation.Time := discord.Message.Timestamp m |}.

(** The two backfills of [observeUserName], as functions of the store. *)
Definition backfill_games (id name : string) (d : gorm.DB) : gorm.DB :=
  foldl (fun d game => snd (gorm.Save_game (Game.with_HostUser {| User.ID := id |} game) d))
        d (gorm.find_where (unresolved_game name) (gorm.games d)).

Definition backfill_mentions (id name : string) (d : gorm.DB) : gorm.DB :=
  foldl (fun d record =>
           gorm.Save_mention (InteractionUserMention.with_User {| User.ID := id |} record) d)
        d (gorm.find_where (unresolved_mention name) (gorm.interaction_user_mentions d)).

(** The store after an observation that is new. *)
Definition observed (m : discord.Message.t) (id name : string) (d : gorm.DB) : gorm.DB :=
  backfill_mentions id name
    (backfill_games id name
       (gorm.Create_observation (new_observation m id name) (ensure_user id d))).

Definition message_key (i : InteractionMessage.t) : string * string :=
  (InteractionMessage.Text i, InteractionMessage.Event i).

Record store_ok (d : gorm.DB) : Prop :=
  { users_unique : NoDup (User.ID <$> gorm.users d);
    items_unique : NoDup (Item.Name <$> gorm.items d);
    games_unique : NoDup (Game.ID <$> gorm.games d);
    games_nonzero : 0 ∉ Game.ID <$> gorm.games d;
    rounds_unique : NoDup (Round.key <$> gorm.rounds d);
    messages_unique : NoDup (message_key <$> gorm.interaction_messages d);
    mentions_unique :
      NoDup (InteractionUserMention.ID <$> gorm.interaction_user_mentions d);
    mentions_nonzero : 0 ∉ InteractionUserMention.ID <$> gorm.interaction_user_mentions d;
    observations_known :
      forall o, o ∈ gorm.user_name_observations d ->
                UserNameObservation.UserID o <> ""
                /\ UserNameObservation.UserID o ∈ User.ID <$> gorm.users d }.

(** [m] keeps [I]: if [I] holds before the call it holds in the state the
    call ends in, however it ends. *)
Definition preserves {A : Type} (I : Processor -> Prop) (m : M A) : Prop :=
  forall p, I p -> I (final (m p)).

(** [m] keeps the invariant of the store. *)
Definition keeps {A : Type} (m : M A) : Prop := preserves (fun p => store_ok (db p)) m.

Definition fix_game (id name : string) (g : Game.t) : Game.t :=
  if unresolved_game name g then Game.with_HostUser {| User.ID := id |} g else g.

Definition fix_mention (id name : string) (r : InteractionUserMention.t)
  : InteractionUserMention.t :=
  if unresolved_mention name r
  then InteractionUserMention.with_User {| User.ID := id |} r else r.

(** The observation as the store holds it, under the key it was given. *)
Definition stored_observation (m : discord.Message.t) (id name : string) (d : gorm.DB)
  : UserNameObservation.t :=
  {| UserNameObservation.ID :=
       gorm.next_id (UserNameObservation.ID <$> gorm.user_name_observations d);
     UserNameObservation.User := {| User.ID := id |};
     UserNameObservation.UserID := id;
     UserNameObservation.Name := name;
     UserNameObservation.Time := discord.Message.Timestamp m |}.

(** An export whose [messages] array is empty: it opens, decodes and
    rewinds without an error. *)
Definition empty_export : loader.File :=
  {| loader.FileName := "discord-exports/1224009923457847428/empty.json";
     loader.Decode := loader.DecodeOk [];
     loader.Seek := None |}.

(** What identifies a mention within a text: name, suffix, killed flag. *)
Definition mention_key (u : InteractionUserMention.t) : string * string * bool :=
  (InteractionUserMention.UserName u, InteractionUserMention.Suffix u,
   InteractionUserMention.Killed u).

(** The mention a submatch denotes, as that triple. *)
Definition match_key (match_ : list string) : string * string * bool :=
  mention_key (userInteraction_of match_).

(** One entry per distinct element, in the order of the first occurrences. *)
Fixpoint first_occurrences {A : Type} `{EqDecision A} (l : list A) : list A :=
  match l with
  | [] => []
  | x :: rest => x :: List.filter (fun y => negb (bool_decide (y = x))) (first_occurrences rest)
  end.

(** The position of [x] in [l] (0 if it is not there). *)
Definition position {A : Type} `{EqDecision A} (l : list A) (x : A) : nat :=
  default 0%nat (slices_Index l x).

(** A mention as [extractUsers] builds it before the users are filled in. *)
Definition bare (u : InteractionUserMention.t) : Prop :=
  InteractionUserMention.ID u = 0 /\ InteractionUserMention.UserID u = None
  /\ InteractionUserMention.User u = None.

Definition collect_mention (acc : list InteractionUserMention.t) (x : InteractionUserMention.t)
  : list InteractionUserMention.t :=
  match slices_Index acc x with Some _ => acc | None => acc ++ [x] end.

(** What the numbering of the rounds of a channel depends on: the ID of
    its last known game and the game and number of the round it has open. *)
Definition round_view (cs : channelState) : Z * Z * Z :=
  (Game.ID (LastKnownGame cs), Round.GameID (LastKnownRound cs),
   Round.RoundNumber (LastKnownRound cs)).

Section FrameVocabulary.
Variable c : discord.Channel.t.



End FrameVocabulary.

Section NumberingVocabulary.
Variable c : discord.Channel.t.
Variable g : Z.
Variable base : list Round.t.







End NumberingVocabulary.

(** No embed of the message announces a countdown. *)
Definition no_countdown (msg : discord.Message.t) : bool :=
  forallb (fun embed => negb (countdown_announcement embed)) (discord.Message.Embeds msg).

Section OpenedVocabulary.
Variable c : discord.Channel.t.
Variable g : Z.
Variable d : gorm.DB.

(** The processor's counter and the last known game of [c] are [g], the
    store is [d]. *)
Definition opened (p : Processor) : Prop :=
  LastKnownGameID p = g /\ Game.ID (LastKnownGame (chan p c)) = g /\ db p = d.

End OpenedVocabulary.

(** ** The switch over the embeds, the lifecycle, the matcher and the stored rows *)

(** The alternatives of the switch over an embed in [processExport], in
    the order the code tries them; [Unhandled] is its default. *)
Inductive embed_case : Type :=
| CountdownStart | ContinuedCountdown | GameStart | GameCancelled | GameWinner
| UserCommand | RoundNarrative | Ignored | Unhandled.

Definition switch_case (msg : discord.Message.t) (embedIndex : nat) (embed : discord.Embed.t)
  : embed_case :=
  if countdown_announcement embed then CountdownStart
  else if GoStrings.HasPrefix (discord.Embed.Description embed) "Starting in "
  then ContinuedCountdown
  else if GoStrings.HasPrefix (discord.Embed.Title embed) "Started a new " then GameStart
  else if title_is embed "Rumble Royale session cancelled" then GameCancelled
  else if (embedIndex =? 0)%nat && title_contains embed "WINNER!" then GameWinner
  else if author_contains embed "'s balance"
          || author_contains embed "'s backpacks"
          || (author_contains embed "'s Classic Era Items and Skins"
              && bool_decide (is_Some (discord.Message.Interaction msg)))
  then UserCommand
  else if GoStrings.HasPrefix (discord.Embed.Title embed) "__Round " then RoundNarrative
  else if ignored embed then Ignored
  else Unhandled.

(** A call leaves a projection of the processor untouched when the
    projection reads the same in every outcome of the call. *)
Section UntouchedVocabulary.
Context {B : Type}.
Variable proj : Processor -> B.
Definition untouched {A : Type} (m : M A) : Prop := forall p, proj (final (m p)) = proj p.
End UntouchedVocabulary.

(** The errors a handler of an embed can return, and those a replay of an
    export can: the error of an observation as it is, that of a handler
    under the ID of its message. *)
Inductive handler_error : error -> Prop :=
| handler_empty_username : handler_error (errors_New "empty username")
| handler_number e : handler_error (ErrNum e)
| handler_store e : handler_error (ErrStore e)
| handler_multi_item msg : handler_error (multi_item_error msg)
| handler_round : handler_error (not_running "round data")
| handler_event_round : handler_error (not_running "event round data").

Inductive export_error : error -> Prop :=
| export_observe : export_error (errors_New "empty username")
| export_handler msg e : handler_error e -> export_error (wrapError msg e).

(** The row a query of the games by ID returns. *)
Definition stored_game (id : Z) (d : gorm.DB) : option Game.t :=
  gorm.first_where (fun g => bool_decide (Game.ID g = id)) (gorm.games d).

Section LifecycleVocabulary.
Variable c : discord.Channel.t.

(** The channel is running a game that started at [ts] and whose end time
    is [te]. *)
Definition started (ts : Z) (te : option Z) (p : Processor) : Prop :=
  LastKnownIsGameRunning (chan p c) = true
  /\ Game.StartTime (LastKnownGame (chan p c)) = Some ts
  /\ Game.EndTime (LastKnownGame (chan p c)) = te.

End LifecycleVocabulary.

(** What it means for an expression to match at the front of a text:
    [spans r prev s c prev' s' c'] when [r] matches the part of [s] that
    ends where [s'] begins, [prev] and [prev'] being the bytes before the
    two positions and [c'] the groups captured on top of [c]. *)
Inductive spans : Regexp.re -> option ascii -> string -> Regexp.caps
                  -> option ascii -> string -> Regexp.caps -> Prop :=
| spans_Eps pv s c : spans Regexp.Eps pv s c pv s c
| spans_Lit a pv s c : spans (Regexp.Lit a) pv (String a s) c (Some a) s c
| spans_Cls (P : ascii -> bool) b pv s c :
    P b = true -> spans (Regexp.Cls P) pv (String b s) c (Some b) s c
| spans_Cat r1 r2 pv s c pv1 s1 c1 pv2 s2 c2 :
    spans r1 pv s c pv1 s1 c1 -> spans r2 pv1 s1 c1 pv2 s2 c2 ->
    spans (Regexp.Cat r1 r2) pv s c pv2 s2 c2
| spans_Alt_l r1 r2 pv s c pv' s' c' :
    spans r1 pv s c pv' s' c' -> spans (Regexp.Alt r1 r2) pv s c pv' s' c'
| spans_Alt_r r1 r2 pv s c pv' s' c' :
    spans r2 pv s c pv' s' c' -> spans (Regexp.Alt r1 r2) pv s c pv' s' c'
| spans_Opt_some r pv s c pv' s' c' :
    spans r pv s c pv' s' c' -> spans (Regexp.Opt r) pv s c pv' s' c'
| spans_Opt_none r pv s c : spans (Regexp.Opt r) pv s c pv s c
| spans_Star_none r pv s c : spans (Regexp.Star r) pv s c pv s c
| spans_Star_more r pv s c pv1 s1 c1 pv2 s2 c2 :
    spans r pv s c pv1 s1 c1 -> spans (Regexp.Star r) pv1 s1 c1 pv2 s2 c2 ->
    spans (Regexp.Star r) pv s c pv2 s2 c2
| spans_Plus r pv s c pv1 s1 c1 pv2 s2 c2 :
    spans r pv s c pv1 s1 c1 -> spans (Regexp.Star r) pv1 s1 c1 pv2 s2 c2 ->
    spans (Regexp.Plus r) pv s c pv2 s2 c2
| spans_PlusLazy_one r pv s c pv' s' c' :
    spans r pv s c pv' s' c' -> spans (Regexp.PlusLazy r) pv s c pv' s' c'
| spans_PlusLazy_more r pv s c pv1 s1 c1 pv2 s2 c2 :
    spans r pv s c pv1 s1 c1 -> spans (Regexp.PlusLazy r) pv1 s1 c1 pv2 s2 c2 ->
    spans (Regexp.PlusLazy r) pv s c pv2 s2 c2
| spans_Grp i r pv s c pv' s' c' :
    spans r pv s c pv' s' c' ->
    spans (Regexp.Grp i r) pv s c pv' s'
          ((i, GoStrings.take (String.length s - String.length s') s) :: c')
| spans_BolM pv s c :
    (pv = None \/ pv = Some Regexp.newline) -> spans Regexp.BolM pv s c pv s c
| spans_EolM pv s c :
    (s = "" \/ exists s', s = String Regexp.newline s') -> spans Regexp.EolM pv s c pv s c.

(** An expression without a capturing group. *)
Fixpoint groupless (r : Regexp.re) : bool :=
  match r with
  | Regexp.Eps | Regexp.Lit _ | Regexp.Cls _ | Regexp.BolM | Regexp.EolM => true
  | Regexp.Cat a b | Regexp.Alt a b => groupless a && groupless b
  | Regexp.Opt a | Regexp.Star a | Regexp.Plus a | Regexp.PlusLazy a => groupless a
  | Regexp.Grp _ _ => false
  end.

(** The user the name of a mention resolves to: that of the last
    observation of the name, if there is one. *)
Definition resolve (d : gorm.DB) (name : string) : option User.t :=
  preload_User d
    <$> gorm.last_where (fun o => bool_decide (UserNameObservation.Name o = name))
                        (gorm.user_name_observations d).

(** What [extractUsers] fills in for a mention. *)
Definition filled (d : gorm.DB) (u : InteractionUserMention.t) : InteractionUserMention.t :=
  match resolve d (InteractionUserMention.UserName u) with
  | Some user => InteractionUserMention.with_User user u
  | None => u
  end.


(** An interaction of round [r] whose message, of the text [text] and the
    event [event], the store [d] holds. *)
Definition recorded (r : Round.t) (d : gorm.DB) (text event : string) (i : Interaction.t)
  : Prop :=
  Interaction.Round i = r
  /\ Interaction.RoundID i = Round.ID r
  /\ Interaction.Message i ∈ gorm.interaction_messages d
  /\ Interaction.MessageID i = InteractionMessage.ID (Interaction.Message i)
  /\ message_key (Interaction.Message i) = (text, event).

(** What reading a round leaves alone: the state of the channel and the
    stored rounds, interactions and interaction messages. *)
Definition round_frame (c : discord.Channel.t) (p : Processor)
  : channelState * list Round.t * list Interaction.t * list InteractionMessage.t :=
  (chan p c, gorm.rounds (db p), gorm.interactions (db p), gorm.interaction_messages (db p)).

(** The game [createNewGame] opens: the fields it sets, the others zero;
    the host user is the user the host name resolves to, if any. *)
Definition opened_game (c : discord.Channel.t) (id : Z) (era : string)
           (hostName : option string) (d : gorm.DB) : Game.t :=
  let hostUser := hostName ≫= resolve d in
  {| Game.ID := id; Game.Era := era; Game.HostUserName := hostName;
     Game.HostUser := hostUser; Game.HostUserID := User.ID <$> hostUser;
     Game.DiscordChannelID := discord.Channel.ID c;
     Game.StartTime := None; Game.EndTime := None; Game.CountdownStartTime := 0;
     Game.Cancelled := false; Game.XPMultiplier := strconv.float32_zero;
     Game.RewardCoins := 0 |}.

(** The text that reads a gap, then an inner text, in turn, and then
    [rest]. *)
Fixpoint weave (gaps inner : list string) (rest : string) : string :=
  match gaps, inner with
  | gap :: gaps, x :: inner => gap +:+ x +:+ weave gaps inner rest
  | _, _ => rest
  end.

(** How the text of a mention opens. *)
Definition mention_text (m : string) : Prop :=
  exists body, m = "**" +:+ body \/ m = "~~**" +:+ body.

(** * Worked examples *)

Module Example.

Definition IsGraphic : Z -> bool := unicode.IsGraphic_latin1.

Definition bot : discord.User.t :=
  {| discord.User.ID := botAuthorID; discord.User.Name := "Rumble Royale" |}.

Definition embed (title description : string) : discord.Embed.t :=
  {| discord.Embed.Title := title; discord.Embed.Description := description;
     discord.Embed.Author := {| discord.EmbedAuthor.Name := "" |};
     discord.Embed.Footer := None |}.

Definition bot_message (id : string) (at_ : Z) (e : discord.Embed.t) : discord.Message.t :=
  {| discord.Message.ID := id; discord.Message.Timestamp := at_;
     discord.Message.Content := ""; discord.Message.Author := bot;
     discord.Message.Interaction := None; discord.Message.Mentions := [];
     discord.Message.Reactions := []; discord.Message.Embeds := [e] |}.

Definition nl : string := String Regexp.newline "".

Definition main : discord.Channel.t := {| discord.Channel.ID := mainChannelID |}.

Definition countdown_embed : discord.Embed.t :=
  embed "Rumble Royale hosted by zed" ("Era: Classic" +:+ nl +:+ nl +:+ "Click to join.").
Definition start_embed : discord.Embed.t :=
  embed "Started a new Rumble Royale session"
        ("**Prize:** 6000 <:gold:695955554199142421>" +:+ nl +:+ "**1.5x XP multiplier!**").
Definition round1_embed : discord.Embed.t :=
  embed "__Round 1__"
        ("<:K:861698472154759199> | **tokki\_egg** butchered ~~**leerdix**~~ with the __Egg Launcher__."
         +:+ nl +:+ "<:K:861698472154759199> | **zed** passed over ~~**leerdix**~~."
         +:+ nl +:+ nl +:+ "Players Left: 27").
Definition round2_embed : discord.Embed.t :=
  embed "__Round 2__ - STORM"
        ("A storm is gathering in the arena!" +:+ nl +:+ nl +:+ "The following players died:"
         +:+ nl +:+ "<:S:861698472272986122> | ~~**zed**~~").
Definition winner_embed : discord.Embed.t :=
  embed "<:Crwn2:872850260756664350> **__WINNER!__**" "**tokki\_egg**".

Definition countdown_message := bot_message "1" 100 countdown_embed.
Definition start_message := bot_message "2" 110 start_embed.
Definition round1_message := bot_message "3" 120 round1_embed.
Definition round2_message := bot_message "4" 130 round2_embed.
Definition winner_message := bot_message "5" 140 winner_embed.

(** One game: countdown, start, two rounds, winner. *)
Definition game_export : discord.Backup.t :=
  {| discord.Backup.Channel := main;
     discord.Backup.Messages :=
       [countdown_message; start_message; round1_message; round2_message; winner_message] |}.

(** What follows the countdown in that export. *)
Definition after_countdown : discord.Backup.t :=
  {| discord.Backup.Channel := main;
     discord.Backup.Messages :=
       [start_message; round1_message; round2_message; winner_message] |}.

Definition archive : list (string * (error + discord.Backup.t)) :=
  [("discord-exports/1224009923457847428/a.json", inr game_export)].

Definition first_run : result unit := runImport IsGraphic gorm.empty archive.

(** The channel right after the countdown announcement. *)
Definition counting_down : Processor :=
  final (processGameCountdownStart IsGraphic main countdown_message countdown_embed
                                   (newProcessor gorm.empty)).

(** A message of a user "U1" who calls themself "zed". *)
Definition zed_message : discord.Message.t :=
  {| discord.Message.ID := "6"; discord.Message.Timestamp := 150;
     discord.Message.Content := "gg";
     discord.Message.Author := {| discord.User.ID := "U1"; discord.User.Name := "zed" |};
     discord.Message.Interaction := None; discord.Message.Mentions := [];
     discord.Message.Reactions := []; discord.Message.Embeds := [] |}.

Definition narrative : string :=
  "~~**leerdix**~~ was hit, then ~~**leerdix**~~ fell and **zed the Mummy** won".

Definition shopping : discord.Channel.t := {| discord.Channel.ID := shoppingChannelID |}.

(** The main channel once the session announced by the countdown has
    started, and once its first round has been read. *)
Definition running : Processor :=
  final (processGameStart IsGraphic main start_message start_embed counting_down).
Definition after_round1 : Processor :=
  final (processRound IsGraphic main round1_message round1_embed running).

Definition cancel_embed : discord.Embed.t := embed "Rumble Royale session cancelled" "".
Definition cancel_message := bot_message "7" 105 cancel_embed.

(** The answer of the bot to a balance command, as an export holds it
    when the interaction is not recorded. *)
Definition balance_embed : discord.Embed.t :=
  {| discord.Embed.Title := ""; discord.Embed.Description := "6200 gold";
     discord.Embed.Author := {| discord.EmbedAuthor.Name := "zed's balance" |};
     discord.Embed.Footer := None |}.
Definition balance_message := bot_message "8" 160 balance_embed.

(** An export in which a round follows the countdown with no session
    start in between. *)
Definition premature_round : discord.Backup.t :=
  {| discord.Backup.Channel := main;
     discord.Backup.Messages := [countdown_message; round1_message] |}.

(** A processor whose store holds the text "A storm is gathering" with
    no event. *)
Definition stormy : Processor :=
  final (lookupInteractionMessage "A storm is gathering" "" (newProcessor gorm.empty)).

(** A processor that has observed the user "U1" under the name "zed". *)
Definition zed_observed : Processor :=
  final (observeUserName zed_message "U1" "zed" (newProcessor gorm.empty)).

(** An export file that holds one message, of time 100. *)
Definition export_file : loader.File :=
  {| loader.FileName := "discord-exports/1224009923457847428/A.JSON";
     loader.Decode := loader.DecodeOk [100];
     loader.Seek := None |}.


End Example.

(** * Properties *)

(** ** Reading the state of a channel *)

Lemma getChannelState_eq c p : getChannelState c p = Ok (chan p c) (entered c p).
Proof.
  unfold getChannelState, chan, entered.
  destruct (channels p !! discord.Channel.ID c); reflexivity.
Qed.

Lemma chan_entered c c' p : chan (entered c p) c' = chan p c'.
Proof.
  unfold chan, entered.
  destruct (channels p !! discord.Channel.ID c) eqn:E; [reflexivity|]. simpl.
  destruct (decide (discord.Channel.ID c = discord.Channel.ID c')) as [<-|Hne].
  - rewrite lookup_insert_eq, E. reflexivity.
  - rewrite lookup_insert_ne by exact Hne. reflexivity.
Qed.

Lemma db_entered c p : db (entered c p) = db p.
Proof. unfold entered. destruct (channels p !! _); reflexivity. Qed.

Lemma log_entered c p : log (entered c p) = log p.
Proof. unfold entered. destruct (channels p !! _); reflexivity. Qed.

Lemma LastKnownGameID_entered c p : LastKnownGameID (entered c p) = LastKnownGameID p.
Proof. unfold entered. destruct (channels p !! _); reflexivity. Qed.

Lemma chan_setChannelState c f p c' :
  chan (final (setChannelState c f p)) c'
  = if decide (discord.Channel.ID c = discord.Channel.ID c') then f (chan p c) else chan p c'.
Proof.
  unfold setChannelState, chan. simpl.
  destruct (decide (discord.Channel.ID c = discord.Channel.ID c')) as [<-|Hne].
  - rewrite lookup_insert_eq. reflexivity.
  - rewrite lookup_insert_ne by exact Hne. reflexivity.
Qed.

(** ** The guard of the lifecycle handlers *)

Lemma guard_running_idle c arg what body p :
  LastKnownIsGameRunning (chan p c) = false ->
  Game.ID (LastKnownGame (chan p c)) = 0 ->
  guard_running c arg what body p = Ok tt (warned arg c p).
Proof.
  intros Hrun Hid. unfold guard_running, bind. rewrite getChannelState_eq, Hrun, Hid. simpl.
  unfold log_Printf, warned. rewrite log_entered. reflexivity.
Qed.

Lemma guard_running_refuses c arg what body p :
  LastKnownIsGameRunning (chan p c) = false ->
  Game.ID (LastKnownGame (chan p c)) <> 0 ->
  guard_running c arg what body p = Err (not_running what) (refused arg what c p).
Proof.
  intros Hrun Hid. unfold guard_running, bind. rewrite getChannelState_eq, Hrun. simpl.
  destruct (Z.eqb_spec (Game.ID (LastKnownGame (chan p c))) 0) as [E|_]; [contradiction|].
  unfold log_Printf, refused, fail. rewrite log_entered. reflexivity.
Qed.

Lemma guard_running_passes c arg what body p :
  LastKnownIsGameRunning (chan p c) = true ->
  guard_running c arg what body p = body (entered c p).
Proof.
  intros Hrun. unfold guard_running, bind. rewrite getChannelState_eq, Hrun. reflexivity.
Qed.

(** ** The errors a call can return *)

Lemma errs_in_ret {A : Type} P (a : A) : errs_in P (ret a).
Proof. intros p e p' H. discriminate H. Qed.

Lemma errs_in_fail {A : Type} (P : error -> Prop) e : P e -> errs_in P (@fail A e).
Proof. intros HP p e' p' H. injection H as <- _. exact HP. Qed.

Lemma errs_in_bind {A B : Type} P (m : M A) (k : A -> M B) :
  errs_in P m -> (forall a, errs_in P (k a)) -> errs_in P (bind m k).
Proof.
  intros Hm Hk p e p' H. unfold bind in H.
  destruct (m p) as [a p1|e1 p1|p1|r p1] eqn:E; try discriminate.
  - exact (Hk a p1 e p' H).
  - injection H as <- _. exact (Hm p e1 p1 E).
Qed.

Lemma errs_in_forEach {A : Type} P (f : A -> M unit) l :
  (forall x, errs_in P (f x)) -> errs_in P (forEach f l).
Proof.
  intros Hf. induction l as [|x l IH]; simpl.
  - apply errs_in_ret.
  - apply errs_in_bind; [apply Hf | intros _; exact IH].
Qed.

Lemma errs_in_total {A : Type} P (m : M A) :
  (forall p, exists a p', m p = Ok a p') -> errs_in P m.
Proof. intros H p e p' E. destruct (H p) as (a & p1 & E1). congruence. Qed.

Lemma other_error_store e : other_error (ErrStore e).
Proof. intros [what H]. discriminate H. Qed.

Lemma other_error_empty_username : other_error (errors_New "empty username").
Proof. intros [what H]. discriminate H. Qed.

Lemma other_error_multi_item msg : other_error (multi_item_error msg).
Proof. intros [what H]. discriminate H. Qed.

Ltac total_call :=
  apply errs_in_total; intros ?; eexists; eexists; reflexivity.

Ltac errs_step :=
  match goal with
  | |- errs_in _ (ret _) => apply errs_in_ret
  | |- errs_in _ (bind _ _) => apply errs_in_bind; [|intros ?]
  | |- errs_in _ (forEach _ _) => apply errs_in_forEach; intros ?
  | |- errs_in _ (fail _) => apply errs_in_fail
  | |- errs_in _ (panic _) => intros ? ? ? ?; discriminate
  | |- errs_in _ getDB => total_call
  | |- errs_in _ (putDB _) => total_call
  | |- errs_in _ (modifyDB _) => total_call
  | |- errs_in _ (log_Printf _ _) => total_call
  | |- errs_in _ (setChannelState _ _) => total_call
  | |- errs_in _ (getChannelState _) =>
      apply errs_in_total; intros ?; eexists; eexists; apply getChannelState_eq
  | |- errs_in _ (match ?x with _ => _ end) => destruct x
  | |- errs_in _ (if ?x then _ else _) => destruct x
  | |- errs_in _ (let '(_, _) := ?x in _) => destruct x
  end.

Lemma errs_storeCurrentRound c : errs_in other_error (storeCurrentRound c).
Proof. unfold storeCurrentRound. repeat errs_step. apply other_error_store. Qed.

Lemma errs_storeInteraction i : errs_in other_error (storeInteraction i).
Proof. unfold storeInteraction. repeat errs_step. apply other_error_store. Qed.

Lemma errs_lookupUserName m name : errs_in other_error (lookupUserName m name).
Proof. unfold lookupUserName. repeat errs_step. apply other_error_empty_username. Qed.

Lemma errs_lookupItem name : errs_in other_error (lookupItem name).
Proof. unfold lookupItem, storeItem. repeat errs_step. Qed.

Lemma errs_lookupInteractionMessage text event :
  errs_in other_error (lookupInteractionMessage text event).
Proof.
  unfold lookupInteractionMessage, storeInteractionMessage. repeat errs_step.
  apply other_error_store.
Qed.

Lemma errs_extractUsers m msg : errs_in other_error (extractUsers m msg).
Proof.
  unfold extractUsers. repeat errs_step.
  induction l as [|x l IH]; simpl; repeat errs_step; auto using errs_lookupUserName.
Qed.

Lemma errs_extractItems_loop matches msg items :
  errs_in other_error (extractItems_loop matches msg items).
Proof.
  revert msg items. induction matches as [|x l IH]; intros msg items; simpl.
  - apply errs_in_ret.
  - apply errs_in_bind; [apply errs_lookupItem | intros ?; apply IH].
Qed.

Lemma errs_extractItems msg : errs_in other_error (extractItems msg).
Proof.
  unfold extractItems. errs_step.
  - errs_step. apply other_error_multi_item.
  - apply errs_extractItems_loop.
Qed.

Lemma errs_createNewRound c n : errs_in other_error (createNewRound c n).
Proof. unfold createNewRound. repeat errs_step. Qed.

Lemma errs_processRound_line c m line : errs_in other_error (processRound_line c m line).
Proof.
  unfold processRound_line.
  repeat first [ apply errs_extractUsers | apply errs_extractItems
               | apply errs_lookupInteractionMessage | apply errs_storeInteraction
               | errs_step ].
Qed.

Ltac errs_auto :=
  repeat first [ apply errs_extractUsers | apply errs_extractItems
               | apply errs_lookupInteractionMessage | apply errs_storeInteraction
               | apply errs_storeCurrentRound | apply errs_createNewRound
               | apply errs_processRound_line | errs_step ].

Ltac by_errs_in :=
  match goal with
  | |- ?b ?q = Err ?e _ -> other_error ?e =>
      let Hb := fresh "Hb" in
      assert (errs_in other_error b) as Hb; [errs_auto | intros H; exact (Hb _ _ _ H)]
  end.

Lemma storeCurrentGame_total c p : exists p', storeCurrentGame c p = Ok tt p'.
Proof.
  unfold storeCurrentGame, bind. rewrite getChannelState_eq. simpl.
  eexists. reflexivity.
Qed.

Section GuardedHandlers.
Variable unicode_IsGraphic : Z -> bool.

Lemma processEventRound_running c m e p e' p' :
  LastKnownIsGameRunning (chan p c) = true ->
  processEventRound unicode_IsGraphic c m e p = Err e' p' -> other_error e'.
Proof.
  intros Hrun. unfold processEventRound. rewrite guard_running_passes by exact Hrun.
  by_errs_in.
Qed.

Lemma processRound_running c m e p e' p' :
  LastKnownIsGameRunning (chan p c) = true ->
  processRound unicode_IsGraphic c m e p = Err e' p' -> other_error e'.
Proof.
  intros Hrun. unfold processRound. rewrite guard_running_passes by exact Hrun.
  destruct (GoStrings.Contains (discord.Embed.Title e) " - ").
  - apply processEventRound_running. rewrite chan_entered. exact Hrun.
  - by_errs_in.
Qed.

Lemma processGameWinner_running c m p e' p' :
  LastKnownIsGameRunning (chan p c) = true ->
  processGameWinner c m p = Err e' p' -> other_error e'.
Proof.
  intros Hrun. unfold processGameWinner. rewrite guard_running_passes by exact Hrun.
  match goal with
  | |- ?b ?q = Err ?e _ -> other_error ?e =>
      assert (errs_in other_error b) as Hb; [| intros H; exact (Hb _ _ _ H)]
  end.
  errs_auto. apply errs_in_total. intros q. destruct (storeCurrentGame_total c q) as [q' E].
  eexists; eexists; exact E.
Qed.

(** C1, as the code has it.  A "round" or "winner" message that arrives
    while the channel is not running is ignored with a warning, leaving
    the store, the counter and every channel state as they were, only when
    no game has been opened for the channel yet (the ID of the last known
    game is 0).  Once a game has been opened (the countdown state, or the
    idle state after a finished game) the handler logs an error line and
    returns the [InconsistentState] error; it returns that error in no
    other situation. *)
Theorem round_or_winner_without_running_game
        (c : discord.Channel.t) (m : discord.Message.t) (e : discord.Embed.t)
        (p : Processor) :
  (LastKnownIsGameRunning (chan p c) = false ->
   Game.ID (LastKnownGame (chan p c)) = 0 ->
   processRound unicode_IsGraphic c m e p = Ok tt (warned (ArgEmbed e) c p)
   /\ processGameWinner c m p = Ok tt (warned (ArgMessage m) c p)
   /\ db (warned (ArgEmbed e) c p) = db p
   /\ LastKnownGameID (warned (ArgEmbed e) c p) = LastKnownGameID p
   /\ (forall c', chan (warned (ArgEmbed e) c p) c' = chan p c'
                  /\ chan (warned (ArgMessage m) c p) c' = chan p c'))
  /\ (LastKnownIsGameRunning (chan p c) = false ->
      Game.ID (LastKnownGame (chan p c)) <> 0 ->
      processRound unicode_IsGraphic c m e p
      = Err (not_running "round data") (refused (ArgEmbed e) "round data" c p)
      /\ processGameWinner c m p
         = Err (not_running "game winner data")
               (refused (ArgMessage m) "game winner data" c p))
  /\ (forall err p',
         processRound unicode_IsGraphic c m e p = Err err p'
         \/ processGameWinner c m p = Err err p' ->
         InconsistentState err ->
         LastKnownIsGameRunning (chan p c) = false
         /\ Game.ID (LastKnownGame (chan p c)) <> 0).
Proof.
  split; [|split].
  - intros Hrun Hid. unfold processRound, processGameWinner.
    rewrite !guard_running_idle by assumption.
    repeat split; try reflexivity.
    + unfold warned. simpl. apply db_entered.
    + unfold warned. simpl. apply LastKnownGameID_entered.
    + unfold warned, chan. simpl. apply chan_entered.
    + unfold warned, chan. simpl. apply chan_entered.
  - intros Hrun Hid. unfold processRound, processGameWinner.
    rewrite !guard_running_refuses by assumption. split; reflexivity.
  - intros err p' H Hinc.
    destruct (LastKnownIsGameRunning (chan p c)) eqn:Hrun.
    + exfalso. destruct H as [H|H].
      * exact (processRound_running c m e p err p' Hrun H Hinc).
      * exact (processGameWinner_running c m p err p' Hrun H Hinc).
    + split; [reflexivity|]. intros Hid.
      unfold processRound, processGameWinner in H.
      rewrite !guard_running_idle in H by assumption.
      destruct H as [H|H]; discriminate H.
Qed.

End GuardedHandlers.

(** ** The identity resolver in closed form *)

Lemma with_db_same p : with_db (db p) p = p.
Proof. destruct p; reflexivity. Qed.

Lemma forEach_modifyDB {A : Type} (f : A -> gorm.DB -> gorm.DB) (l : list A) p :
  forEach (fun x => modifyDB (f x)) l p = Ok tt (with_db (foldl (fun d x => f x d) (db p) l) p).
Proof.
  revert p. induction l as [|x l IH]; intros p; simpl.
  - unfold ret. rewrite with_db_same. reflexivity.
  - unfold bind, modifyDB at 1. rewrite IH. reflexivity.
Qed.

Lemma lookupUserID_eq id p :
  id <> "" ->
  lookupUserID id p = Ok {| User.ID := id |} (with_db (ensure_user id (db p)) p).
Proof.
  intros Hid. unfold lookupUserID, ensure_user.
  destruct id as [|a id]; [contradiction|]. simpl.
  unfold bind, getDB.
  destruct (gorm.first_where _ (gorm.users (db p))) as [u|] eqn:E.
  - unfold ret. rewrite with_db_same.
    apply List.find_some in E as [_ E]. apply bool_decide_eq_true in E.
    destruct u as [uid]. simpl in E. subst uid. reflexivity.
  - reflexivity.
Qed.

Lemma lookupUserID_empty p : lookupUserID "" p = Err (errors_New "empty username") p.
Proof. reflexivity. Qed.

Lemma ensure_user_observations id d :
  gorm.user_name_observations (ensure_user id d) = gorm.user_name_observations d.
Proof. unfold ensure_user. destruct (gorm.first_where _ _); reflexivity. Qed.

Lemma observeUserName_known m id name p :
  id <> "" ->
  last_name_of id (db p) = Some name ->
  observeUserName m id name p = Ok tt (with_db (ensure_user id (db p)) p).
Proof.
  intros Hid Hlast. unfold observeUserName, bind. rewrite lookupUserID_eq by exact Hid.
  unfold getDB. cbn [db with_db].
  unfold last_name_of in Hlast. rewrite ensure_user_observations.
  destruct (gorm.last_where _ _) as [o|]; [|discriminate Hlast].
  simpl in Hlast. injection Hlast as ->. rewrite bool_decide_eq_true_2 by reflexivity.
  reflexivity.
Qed.

Lemma length_zero_nil {A : Type} (l : list A) : (0 <? length l)%nat = false -> l = [].
Proof. destruct l; [reflexivity | discriminate]. Qed.

Lemma fixupGames_eq id name p :
  exists lg,
    fixupGames {| User.ID := id |} name p
    = Ok tt (with_log lg (with_db (backfill_games id name (db p)) p)).
Proof.
  unfold fixupGames, bind, getDB.
  destruct (0 <? length _)%nat eqn:E.
  - rewrite forEach_modifyDB. unfold log_Printf. eexists. reflexivity.
  - apply length_zero_nil in E. unfold backfill_games. rewrite E. simpl.
    exists (log p). unfold ret. destruct p; reflexivity.
Qed.

Lemma fixupMentions_eq id name p :
  exists lg,
    let p' := with_log lg (with_db (backfill_mentions id name (db p)) p) in
    fixupMentions {| User.ID := id |} name p
    = if (0 <? length (gorm.find_where (unresolved_mention name)
                                       (gorm.interaction_user_mentions (db p))))%nat
      then Ok tt p'
      else if bool_decide (name = "menardi") then Fatal p' else Ok tt p'.
Proof.
  unfold fixupMentions, bind, getDB.
  destruct (0 <? length _)%nat eqn:E.
  - rewrite forEach_modifyDB. unfold log_Printf. eexists. reflexivity.
  - apply length_zero_nil in E. unfold backfill_mentions. rewrite E. simpl.
    destruct (bool_decide (name = "menardi")).
    + unfold log_Fatal. exists (log p ++ [FatalLine "Something went wrong here"]).
      destruct p; reflexivity.
    + exists (log p). unfold ret. destruct p; reflexivity.
Qed.

Lemma observeUserName_record_eq m id name p :
  exists lg,
    let d1 := backfill_games id name
                (gorm.Create_observation (new_observation m id name) (db p)) in
    let p' := with_log lg (with_db (backfill_mentions id name d1) p) in
    observeUserName_record m {| User.ID := id |} name p
    = if (0 <? length (gorm.find_where (unresolved_mention name)
                                       (gorm.interaction_user_mentions d1)))%nat
      then Ok tt p'
      else if bool_decide (name = "menardi") then Fatal p' else Ok tt p'.
Proof.
  unfold observeUserName_record, bind, modifyDB at 1. cbn [User.ID].
  fold (new_observation m id name).
  set (d0 := gorm.Create_observation (new_observation m id name) (db p)).
  destruct (fixupGames_eq id name (with_db d0 p)) as [lg1 ->]. cbn [db with_db with_log].
  destruct (fixupMentions_eq id name
              (with_log lg1 (with_db (backfill_games id name d0) p))) as [lg2 E].
  cbn [db with_db with_log] in E. exists lg2. exact E.
Qed.

Lemma observeUserName_new m id name p :
  id <> "" ->
  last_name_of id (db p) <> Some name ->
  exists lg,
    let p' := with_log lg (with_db (observed m id name (db p)) p) in
    observeUserName m id name p
    = if (0 <? length (gorm.find_where (unresolved_mention name)
                         (gorm.interaction_user_mentions
                            (backfill_games id name
                               (gorm.Create_observation (new_observation m id name)
                                                        (ensure_user id (db p)))))))%nat
      then Ok tt p'
      else if bool_decide (name = "menardi") then Fatal p' else Ok tt p'.
Proof.
  intros Hid Hlast. unfold observeUserName, bind. rewrite lookupUserID_eq by exact Hid.
  unfold getDB. cbn [db with_db].
  unfold last_name_of in Hlast. rewrite ensure_user_observations.
  destruct (gorm.last_where _ (gorm.user_name_observations (db p))) as [o|] eqn:E.
  - destruct (bool_decide (UserNameObservation.Name o = name)) eqn:En.
    + apply bool_decide_eq_true in En. subst name. exfalso. apply Hlast. reflexivity.
    + apply (observeUserName_record_eq m id name (with_db (ensure_user id (db p)) p)).
  - apply (observeUserName_record_eq m id name (with_db (ensure_user id (db p)) p)).
Qed.

(** ** The keys of the store *)

Lemma next_id_above ids x : x ∈ ids -> x < gorm.next_id ids.
Proof.
  unfold gorm.next_id. induction ids as [|y ids IH]; intros H.
  - inversion H.
  - csimpl. apply elem_of_cons in H as [->|H]; [lia|]. specialize (IH H). lia.
Qed.

Lemma next_id_positive ids : 0 < gorm.next_id ids.
Proof.
  unfold gorm.next_id. induction ids as [|y ids IH]; csimpl; lia.
Qed.

Lemma next_id_fresh ids : gorm.next_id ids ∉ ids.
Proof. intros H. apply next_id_above in H. lia. Qed.

Section Upsert.
Context {A K : Type} `{EqDecision K} (key : A -> K).

Lemma has_key_true k tbl : gorm.has_key key k tbl = true <-> k ∈ key <$> tbl.
Proof.
  unfold gorm.has_key. rewrite existsb_exists, list_elem_of_fmap. split.
  - intros (x & Hin & Hk). apply bool_decide_eq_true in Hk.
    exists x. split; [symmetry; exact Hk | apply list_elem_of_In; exact Hin].
  - intros (x & Hk & Hin). exists x. split; [apply list_elem_of_In; exact Hin|].
    apply bool_decide_eq_true. symmetry; exact Hk.
Qed.

Lemma has_key_false k tbl : gorm.has_key key k tbl = false <-> k ∉ key <$> tbl.
Proof.
  rewrite <- has_key_true. destruct (gorm.has_key key k tbl); split; intros H;
    try reflexivity; try discriminate; try (intros ?; discriminate).
  exfalso. apply H. reflexivity.
Qed.

Lemma upsert_absent row tbl :
  key row ∉ key <$> tbl -> gorm.upsert key row tbl = tbl ++ [row].
Proof.
  induction tbl as [|x tbl IH]; csimpl; intros H; [reflexivity|].
  rewrite ?fmap_cons in H. apply not_elem_of_cons in H as [Hne Hnin].
  destruct (decide (key x = key row)) as [E|_]; [congruence|].
  rewrite IH by exact Hnin. reflexivity.
Qed.

Lemma upsert_keys_present row tbl :
  key row ∈ key <$> tbl -> key <$> gorm.upsert key row tbl = key <$> tbl.
Proof.
  induction tbl as [|x tbl IH]; csimpl; intros H; [inversion H|].
  destruct (decide (key x = key row)) as [E|Hne].
  - rewrite ?fmap_cons. congruence.
  - rewrite ?fmap_cons. f_equal. apply IH.
    rewrite ?fmap_cons in H. apply elem_of_cons in H as [H|H]; [congruence | exact H].
Qed.

Lemma upsert_keys row tbl :
  key <$> gorm.upsert key row tbl
  = if gorm.has_key key (key row) tbl then key <$> tbl else (key <$> tbl) ++ [key row].
Proof.
  destruct (gorm.has_key key (key row) tbl) eqn:E.
  - apply upsert_keys_present, has_key_true, E.
  - rewrite upsert_absent by (apply has_key_false, E).
    rewrite fmap_app. reflexivity.
Qed.

Lemma upsert_NoDup row tbl :
  NoDup (key <$> tbl) -> NoDup (key <$> gorm.upsert key row tbl).
Proof.
  intros H. rewrite upsert_keys. destruct (gorm.has_key key (key row) tbl) eqn:E; [exact H|].
  apply NoDup_app. split; [exact H|]. split.
  - intros x Hx Hx'. apply list_elem_of_singleton in Hx'. subst x.
    apply has_key_false in E. contradiction.
  - apply NoDup_singleton.
Qed.

Lemma upsert_keys_incl row tbl k :
  k ∈ key <$> tbl -> k ∈ key <$> gorm.upsert key row tbl.
Proof.
  intros H. rewrite upsert_keys. destruct (gorm.has_key key (key row) tbl); [exact H|].
  apply elem_of_app. left; exact H.
Qed.

Lemma upsert_keys_inv row tbl k :
  k ∈ key <$> gorm.upsert key row tbl -> k = key row \/ k ∈ key <$> tbl.
Proof.
  rewrite upsert_keys. destruct (gorm.has_key key (key row) tbl); [right; assumption|].
  intros H. apply elem_of_app in H as [H|H]; [right; exact H|].
  apply list_elem_of_singleton in H. left; exact H.
Qed.

Lemma upsert_elem row tbl : row ∈ gorm.upsert key row tbl.
Proof.
  induction tbl as [|x tbl IH]; csimpl.
  - apply list_elem_of_singleton. reflexivity.
  - destruct (decide (key x = key row)); [left | right; exact IH].
Qed.

(** Upserting, one after the other, the images under [f] of the rows
    that satisfy [P] rewrites exactly these rows where they stand. *)
Lemma upsert_fold_map (f : A -> A) (P : A -> bool) :
  (forall x, key (f x) = key x) ->
  forall suf pre,
    NoDup (key <$> (pre ++ suf)) ->
    foldl (fun t x => gorm.upsert key (f x) t) (pre ++ suf) (List.filter P suf)
    = pre ++ ((fun x => if P x then f x else x) <$> suf).
Proof.
  intros Hf. induction suf as [|x suf IH]; intros pre Hnd; csimpl.
  - reflexivity.
  - assert (Hnd' := Hnd). rewrite fmap_app, ?fmap_cons in Hnd'.
    apply NoDup_app in Hnd' as (Hpre & Hdisj & Hsuf).
    destruct (P x) eqn:HP.
    + csimpl.
      assert (gorm.upsert key (f x) (pre ++ x :: suf) = (pre ++ [f x]) ++ suf) as ->.
      { clear IH Hnd Hpre Hsuf. induction pre as [|y pre IHp]; csimpl.
        - rewrite Hf. destruct (decide (key x = key x)); [reflexivity | congruence].
        - rewrite Hf. destruct (decide (key y = key x)) as [E|_].
          + exfalso. apply (Hdisj (key y)); [left | rewrite E; left].
          + f_equal. apply IHp.
            intros k Hk. apply Hdisj. right. exact Hk. }
      rewrite IH.
      * rewrite <- app_assoc. reflexivity.
      * rewrite <- app_assoc. csimpl. rewrite fmap_app, ?fmap_cons, ?Hf.
        rewrite fmap_app, ?fmap_cons in Hnd. csimpl. rewrite ?Hf. exact Hnd.
    + replace (pre ++ x :: suf) with ((pre ++ [x]) ++ suf) by (rewrite <- app_assoc; reflexivity).
      rewrite IH.
      * rewrite <- app_assoc. reflexivity.
      * rewrite <- app_assoc. exact Hnd.
Qed.

End Upsert.

(** ** The invariant of the store

    The keys that deduplicate the records: the ID of a user, the name of an
    item, the ID of a game, (game, round number) of a round, (text, event)
    of an interaction message and the ID of a user mention; no game or
    mention is stored under the zero key; every observation belongs to a
    stored user with a non-empty ID. *)

Lemma store_ok_empty : store_ok gorm.empty.
Proof.
  constructor; simpl; try apply NoDup_nil_2; try apply not_elem_of_nil.
  intros o H. inversion H.
Qed.

Lemma save_keys_ok {A : Type} (key : A -> Z) (with_key : Z -> A -> A) row tbl :
  (forall i x, key (with_key i x) = i) ->
  NoDup (key <$> tbl) -> 0 ∉ key <$> tbl ->
  let row' := if key row =? 0 then with_key (gorm.next_id (key <$> tbl)) row else row in
  NoDup (key <$> gorm.upsert key row' tbl) /\ 0 ∉ key <$> gorm.upsert key row' tbl.
Proof.
  intros Hwk Hnd H0 row'. split; [apply upsert_NoDup; exact Hnd|].
  intros H. apply upsert_keys_inv in H as [H|H]; [|contradiction].
  unfold row' in H. destruct (Z.eqb_spec (key row) 0) as [E|E].
  - rewrite Hwk in H. pose proof (next_id_positive (key <$> tbl)). lia.
  - congruence.
Qed.

Lemma store_ok_Save_user u d : store_ok d -> store_ok (gorm.Save_user u d).
Proof.
  intros []. constructor; cbn; auto.
  - apply upsert_NoDup; assumption.
  - intros o Ho. destruct (observations_known0 o Ho) as [? ?]. split; [assumption|].
    apply upsert_keys_incl. assumption.
Qed.

Lemma store_ok_Save_item i d : store_ok d -> store_ok (gorm.Save_item i d).
Proof. intros []. constructor; cbn; auto. apply upsert_NoDup; assumption. Qed.

Lemma store_ok_Save_game g d : store_ok d -> store_ok (snd (gorm.Save_game g d)).
Proof.
  intros []. unfold gorm.Save_game.
  destruct (save_keys_ok Game.ID Game.with_ID g (gorm.games d)) as [? ?]; auto.
  constructor; cbn; auto.
Qed.

Lemma store_ok_Save_mention m d : store_ok d -> store_ok (gorm.Save_mention m d).
Proof.
  intros []. unfold gorm.Save_mention.
  destruct (save_keys_ok InteractionUserMention.ID InteractionUserMention.with_ID m
                         (gorm.interaction_user_mentions d)) as [? ?]; auto.
  constructor; cbn; auto.
Qed.

Lemma store_ok_Create_round r d r' d' :
  gorm.Create_round r d = inl (r', d') -> store_ok d -> store_ok d'.
Proof.
  unfold gorm.Create_round. intros H [].
  destruct (gorm.has_key Round.ID _ _); [discriminate|].
  destruct (gorm.has_key Round.key _ _) eqn:E; [discriminate|].
  injection H as <- <-. constructor; cbn; auto.
  rewrite fmap_app. apply NoDup_app. split; [assumption|]. split.
  - intros k Hk Hk'. apply list_elem_of_singleton in Hk'. subst k.
    apply has_key_false in E. contradiction.
  - apply NoDup_singleton.
Qed.

Lemma Save_message_new text event d i d' :
  gorm.Save_message {| InteractionMessage.ID := 0; InteractionMessage.Text := text;
                       InteractionMessage.Event := event |} d = inl (i, d') ->
  i = {| InteractionMessage.ID := gorm.next_id (InteractionMessage.ID <$> gorm.interaction_messages d);
         InteractionMessage.Text := text; InteractionMessage.Event := event |}
  /\ d' = gorm.with_interaction_messages (gorm.interaction_messages d ++ [i]) d
  /\ text ∉ InteractionMessage.Text <$> gorm.interaction_messages d.
Proof.
  unfold gorm.Save_message. cbn [InteractionMessage.ID InteractionMessage.with_ID
                                 InteractionMessage.Text InteractionMessage.Event Z.eqb].
  set (tbl := gorm.interaction_messages d).
  set (i0 := {| InteractionMessage.ID := gorm.next_id (InteractionMessage.ID <$> tbl);
                InteractionMessage.Text := text; InteractionMessage.Event := event |}).
  destruct (existsb _ tbl) eqn:E; [discriminate|]. intros H. injection H as <- <-.
  assert (text ∉ InteractionMessage.Text <$> tbl) as Hfresh.
  { intros Hin. apply list_elem_of_fmap in Hin as (x & Hx & Hin).
    assert (existsb (fun x => bool_decide (InteractionMessage.Text x = text)
                              && negb (InteractionMessage.ID x
                                       =? gorm.next_id (InteractionMessage.ID <$> tbl))) tbl
            = true) as E'.
    { apply existsb_exists. exists x. split; [apply list_elem_of_In; exact Hin|].
      apply andb_true_iff. split; [apply bool_decide_eq_true; congruence|].
      apply negb_true_iff, Z.eqb_neq.
      pose proof (next_id_above (InteractionMessage.ID <$> tbl) (InteractionMessage.ID x)
                                (list_elem_of_fmap_2 _ _ _ Hin)). lia. }
    cbn in E. congruence. }
  split; [reflexivity|]. split; [|exact Hfresh].
  rewrite upsert_absent; [reflexivity|]. apply next_id_fresh.
Qed.

Lemma store_ok_Save_message text event d i d' :
  gorm.Save_message {| InteractionMessage.ID := 0; InteractionMessage.Text := text;
                       InteractionMessage.Event := event |} d = inl (i, d') ->
  store_ok d -> store_ok d'.
Proof.
  intros H []. apply Save_message_new in H as (Hi & -> & Hfresh).
  constructor; cbn; auto.
  rewrite fmap_app. apply NoDup_app. split; [assumption|]. split.
  - intros k Hk Hk'. apply list_elem_of_singleton in Hk'. subst k i.
    apply list_elem_of_fmap in Hk as (x & Hx & Hin). unfold message_key in Hx. cbn in Hx.
    injection Hx as Hx _. apply Hfresh. rewrite Hx. apply list_elem_of_fmap_2. exact Hin.
  - apply NoDup_singleton.
Qed.

Lemma create_mentions_ok ms tbl ms' tbl' :
  gorm.create_mentions ms tbl = (ms', tbl') ->
  NoDup (InteractionUserMention.ID <$> tbl) -> 0 ∉ InteractionUserMention.ID <$> tbl ->
  NoDup (InteractionUserMention.ID <$> tbl') /\ 0 ∉ InteractionUserMention.ID <$> tbl'.
Proof.
  revert tbl ms' tbl'. induction ms as [|m ms IH]; intros tbl ms' tbl' H Hnd H0.
  - injection H as <- <-. split; assumption.
  - cbn [gorm.create_mentions] in H.
    set (m' := if InteractionUserMention.ID m =? 0
               then InteractionUserMention.with_ID
                      (gorm.next_id (InteractionUserMention.ID <$> tbl)) m else m) in *.
    set (t1 := if gorm.has_key InteractionUserMention.ID (InteractionUserMention.ID m') tbl
               then tbl else tbl ++ [m']) in *.
    destruct (gorm.create_mentions ms t1) as [rest' t2] eqn:E.
    injection H as <- <-.
    apply (IH t1 rest' t2 E).
    + unfold t1. destruct (gorm.has_key _ _ tbl) eqn:Ek; [assumption|].
      rewrite fmap_app. apply NoDup_app. split; [assumption|]. split.
      * intros k Hk Hk'. apply list_elem_of_singleton in Hk'. subst k.
        apply has_key_false in Ek. contradiction.
      * apply NoDup_singleton.
    + unfold t1. destruct (gorm.has_key _ _ tbl) eqn:Ek; [assumption|].
      rewrite fmap_app. intros Hin. apply elem_of_app in Hin as [Hin|Hin]; [contradiction|].
      apply list_elem_of_singleton in Hin. unfold m' in Hin.
      destruct (Z.eqb_spec (InteractionUserMention.ID m) 0) as [Ez|Ez].
      * cbn in Hin. pose proof (next_id_positive (InteractionUserMention.ID <$> tbl)). lia.
      * congruence.
Qed.

Lemma create_items_ok is_ tbl :
  NoDup (Item.Name <$> tbl) -> NoDup (Item.Name <$> gorm.create_items is_ tbl).
Proof.
  unfold gorm.create_items. revert tbl. induction is_ as [|i is_ IH]; intros tbl Hnd; cbn.
  - exact Hnd.
  - apply IH. destruct (gorm.has_key Item.Name (Item.Name i) tbl) eqn:Ek; [assumption|].
    rewrite fmap_app. apply NoDup_app. split; [assumption|]. split.
    + intros k Hk Hk'. apply list_elem_of_singleton in Hk'. subst k.
      apply has_key_false in Ek. contradiction.
    + apply NoDup_singleton.
Qed.

Lemma store_ok_Create_interaction i d i' d' :
  gorm.Create_interaction i d = inl (i', d') -> store_ok d -> store_ok d'.
Proof.
  unfold gorm.Create_interaction. intros H [].
  destruct (gorm.has_key Interaction.ID _ _); [discriminate|].
  destruct (gorm.create_mentions _ _) as [ms mtbl] eqn:E.
  injection H as <- <-.
  destruct (create_mentions_ok _ _ _ _ E) as [? ?]; [assumption..|].
  constructor; cbn; auto. apply create_items_ok. assumption.
Qed.

Lemma first_where_user id users :
  gorm.first_where (fun u => bool_decide (User.ID u = id)) users = None ->
  id ∉ User.ID <$> users.
Proof.
  unfold gorm.first_where. intros H Hin. apply list_elem_of_fmap in Hin as (u & -> & Hin).
  apply list_elem_of_In in Hin. pose proof (List.find_none _ _ H u Hin) as Hf.
  cbn in Hf. rewrite bool_decide_eq_true_2 in Hf by reflexivity. discriminate.
Qed.

Lemma ensure_user_has id d : id ∈ User.ID <$> gorm.users (ensure_user id d).
Proof.
  unfold ensure_user. destruct (gorm.first_where _ _) as [u|] eqn:E.
  - apply List.find_some in E as [Hin E]. apply bool_decide_eq_true in E. subst id.
    apply list_elem_of_fmap_2, list_elem_of_In. exact Hin.
  - cbn. apply (list_elem_of_fmap_2 User.ID _ {| User.ID := id |}). apply upsert_elem.
Qed.

Lemma store_ok_ensure_user id d : store_ok d -> store_ok (ensure_user id d).
Proof.
  intros H. unfold ensure_user. destruct (gorm.first_where _ _); [exact H|].
  apply store_ok_Save_user. exact H.
Qed.

Lemma store_ok_Create_observation o d :
  UserNameObservation.UserID o <> "" ->
  UserNameObservation.UserID o ∈ User.ID <$> gorm.users d ->
  store_ok d -> store_ok (gorm.Create_observation o d).
Proof.
  intros Hne Hin []. constructor; cbn; auto.
  intros o' Ho'. apply elem_of_app in Ho' as [Ho'|Ho']; [auto|].
  apply list_elem_of_singleton in Ho'. subst o'. cbn. split; assumption.
Qed.

Lemma store_ok_foldl {A : Type} (f : gorm.DB -> A -> gorm.DB) l d :
  (forall d x, store_ok d -> store_ok (f d x)) -> store_ok d -> store_ok (foldl f d l).
Proof.
  intros Hf. revert d. induction l as [|x l IH]; intros d H; cbn; [exact H|].
  apply IH, Hf, H.
Qed.

Lemma store_ok_backfill_games id name d : store_ok d -> store_ok (backfill_games id name d).
Proof.
  intros H. unfold backfill_games. apply store_ok_foldl; [|exact H].
  intros d' g. apply store_ok_Save_game.
Qed.

Lemma store_ok_backfill_mentions id name d :
  store_ok d -> store_ok (backfill_mentions id name d).
Proof.
  intros H. unfold backfill_mentions. apply store_ok_foldl; [|exact H].
  intros d' g. apply store_ok_Save_mention.
Qed.

Lemma store_ok_observed m id name d :
  id <> "" -> store_ok d -> store_ok (observed m id name d).
Proof.
  intros Hid H. unfold observed.
  apply store_ok_backfill_mentions, store_ok_backfill_games, store_ok_Create_observation.
  - exact Hid.
  - apply ensure_user_has.
  - apply store_ok_ensure_user, H.
Qed.

(** ** Invariants of the processor along a call *)

Section Preserves.
Variable I : Processor -> Prop.

Lemma preserves_ret {A : Type} (a : A) : preserves I (ret a).
Proof. intros p H. exact H. Qed.

Lemma preserves_fail {A : Type} e : preserves I (@fail A e).
Proof. intros p H. exact H. Qed.

Lemma preserves_panic {A : Type} r : preserves I (@panic A r).
Proof. intros p H. exact H. Qed.

Lemma preserves_bind {A B : Type} (m : M A) (k : A -> M B) :
  preserves I m -> (forall a, preserves I (k a)) -> preserves I (bind m k).
Proof.
  intros Hm Hk p H. specialize (Hm p H). unfold bind.
  destruct (m p) as [a p1|e1 p1|p1|r p1]; cbn in *; try exact Hm.
  apply Hk, Hm.
Qed.

Lemma preserves_forEach {A : Type} (f : A -> M unit) l :
  (forall x, preserves I (f x)) -> preserves I (forEach f l).
Proof.
  intros Hf. induction l as [|x l IH]; cbn.
  - apply preserves_ret.
  - apply preserves_bind; [apply Hf | intros _; exact IH].
Qed.

Lemma preserves_mapError {A : Type} f (m : M A) : preserves I m -> preserves I (mapError f m).
Proof.
  intros Hm p H. specialize (Hm p H). unfold mapError.
  destruct (m p); cbn in *; exact Hm.
Qed.

Lemma preserves_dropError (m : M unit) : preserves I m -> preserves I (dropError m).
Proof.
  intros Hm p H. specialize (Hm p H). unfold dropError.
  destruct (m p); cbn in *; exact Hm.
Qed.
End Preserves.

Lemma keeps_same_db {A : Type} (m : M A) : (forall p, db (final (m p)) = db p) -> keeps m.
Proof. intros H p Hp. cbn. rewrite H. exact Hp. Qed.

Lemma keeps_modifyDB f : (forall d, store_ok d -> store_ok (f d)) -> keeps (modifyDB f).
Proof. intros H p Hp. cbn. apply H, Hp. Qed.

Lemma db_getChannelState c p : db (final (getChannelState c p)) = db p.
Proof. rewrite getChannelState_eq. apply db_entered. Qed.

Ltac keeps_step :=
  match goal with
  | |- keeps _ => unfold keeps
  | |- preserves _ (ret _) => apply preserves_ret
  | |- preserves _ (fail _) => apply preserves_fail
  | |- preserves _ (panic _) => apply preserves_panic
  | |- preserves _ (bind _ _) => apply preserves_bind; [|intros ?]
  | |- preserves _ (forEach _ _) => apply preserves_forEach; intros ?
  | |- preserves _ (mapError _ _) => apply preserves_mapError
  | |- preserves _ (dropError _) => apply preserves_dropError
  | |- preserves _ getDB => apply keeps_same_db; reflexivity
  | |- preserves _ (log_Printf _ _) => apply keeps_same_db; reflexivity
  | |- preserves _ (log_Fatal _) => apply keeps_same_db; reflexivity
  | |- preserves _ (setChannelState _ _) => apply keeps_same_db; reflexivity
  | |- preserves _ (getChannelState _) => apply keeps_same_db; apply db_getChannelState
  | |- preserves _ (fun p => Ok _ _) => apply keeps_same_db; reflexivity
  | |- preserves _ (match ?x with _ => _ end) => destruct x
  | |- preserves _ (if ?x then _ else _) => destruct x
  | |- preserves _ (let '(_, _) := ?x in _) => destruct x
  end.

Lemma keeps_storeCurrentGame c : keeps (storeCurrentGame c).
Proof.
  intros p Hp. unfold storeCurrentGame, bind. rewrite getChannelState_eq. cbn.
  rewrite db_entered. apply (store_ok_Save_game (LastKnownGame (chan p c)) (db p) Hp).
Qed.

Lemma keeps_storeCurrentRound c : keeps (storeCurrentRound c).
Proof.
  intros p Hp. unfold storeCurrentRound, bind. rewrite getChannelState_eq.
  unfold getDB. rewrite db_entered.
  destruct (gorm.Create_round (LastKnownRound (chan p c)) (db p)) as [[r d']|e] eqn:E.
  - cbn. apply (store_ok_Create_round _ _ _ _ E Hp).
  - cbn. rewrite db_entered. exact Hp.
Qed.

Lemma keeps_storeInteraction i : keeps (storeInteraction i).
Proof.
  intros p Hp. unfold storeInteraction, bind, getDB.
  destruct (gorm.Create_interaction i (db p)) as [[i' d']|e] eqn:E; cbn.
  - apply (store_ok_Create_interaction _ _ _ _ E Hp).
  - exact Hp.
Qed.

Lemma keeps_lookupUserName m name : keeps (lookupUserName m name).
Proof. unfold lookupUserName. repeat keeps_step. Qed.

Lemma keeps_lookupItem name : keeps (lookupItem name).
Proof.
  unfold lookupItem, storeItem. repeat keeps_step.
  apply keeps_modifyDB. intros d. apply store_ok_Save_item.
Qed.

Lemma keeps_lookupInteractionMessage text event : keeps (lookupInteractionMessage text event).
Proof.
  unfold lookupInteractionMessage. repeat keeps_step.
  intros p Hp. unfold storeInteractionMessage, bind, getDB.
  destruct (gorm.Save_message _ (db p)) as [[i' d']|e] eqn:E; cbn.
  - apply (store_ok_Save_message _ _ _ _ _ E Hp).
  - exact Hp.
Qed.

Lemma keeps_observeUserName m id name : keeps (observeUserName m id name).
Proof.
  intros p Hp. destruct (decide (id = "")) as [->|Hid].
  - unfold observeUserName, bind. rewrite lookupUserID_empty. exact Hp.
  - destruct (decide (last_name_of id (db p) = Some name)) as [E|E].
    + rewrite (observeUserName_known m id name p Hid E). cbn.
      apply store_ok_ensure_user, Hp.
    + destruct (observeUserName_new m id name p Hid E) as [lg H]. cbn zeta in H.
      rewrite H. repeat match goal with |- context [if ?b then _ else _] => destruct b end;
        cbn; apply store_ok_observed; assumption.
Qed.

Lemma keeps_extractUsers_fill m l : keeps (extractUsers_fill m l).
Proof.
  induction l as [|x l IH]; cbn.
  - apply preserves_ret.
  - apply preserves_bind; [apply keeps_lookupUserName|]. intros u.
    apply preserves_bind; [exact IH|]. intros r. apply preserves_ret.
Qed.

Lemma keeps_extractUsers m msg : keeps (extractUsers m msg).
Proof. unfold extractUsers. repeat keeps_step. apply keeps_extractUsers_fill. Qed.

Lemma keeps_extractItems msg : keeps (extractItems msg).
Proof.
  unfold extractItems. keeps_step. keeps_step; [keeps_step|].
  generalize (@nil Item.t) as items. generalize msg at 2 as s.
  induction (Regexp.FindAllStringSubmatch Patterns.rxItemFormatted 1 msg) as [|x l IH];
    intros s items; cbn.
  - apply preserves_ret.
  - apply preserves_bind; [apply keeps_lookupItem | intros ?; apply IH].
Qed.

Lemma keeps_createNewGame c m era hostName : keeps (createNewGame c m era hostName).
Proof. unfold createNewGame. repeat keeps_step; apply keeps_lookupUserName. Qed.

Lemma keeps_createNewRound c n : keeps (createNewRound c n).
Proof. unfold createNewRound. repeat keeps_step. Qed.

Lemma keeps_guard_running c arg what body : keeps body -> keeps (guard_running c arg what body).
Proof. intros H. unfold guard_running. repeat keeps_step. exact H. Qed.

Ltac keeps_auto :=
  repeat first
    [ apply keeps_storeCurrentGame | apply keeps_storeCurrentRound
    | apply keeps_storeInteraction | apply keeps_lookupUserName | apply keeps_lookupItem
    | apply keeps_lookupInteractionMessage | apply keeps_observeUserName
    | apply keeps_extractUsers | apply keeps_extractItems | apply keeps_createNewGame
    | apply keeps_createNewRound | apply keeps_guard_running | keeps_step ].

Lemma keeps_processGameWinner c m : keeps (processGameWinner c m).
Proof. unfold processGameWinner. keeps_auto. Qed.

Lemma keeps_processGameCancelled c m : keeps (processGameCancelled c m).
Proof. unfold processGameCancelled. keeps_auto. Qed.

Section KeepsInterpreter.
Variable unicode_IsGraphic : Z -> bool.

Lemma keeps_processGameCountdownStart c m e :
  keeps (processGameCountdownStart unicode_IsGraphic c m e).
Proof. unfold processGameCountdownStart. keeps_auto. Qed.

Lemma keeps_processRound_line c m line : keeps (processRound_line c m line).
Proof. unfold processRound_line. keeps_auto. Qed.

Lemma keeps_processEventRound c m e : keeps (processEventRound unicode_IsGraphic c m e).
Proof. unfold processEventRound. keeps_auto. Qed.

Lemma keeps_processRound c m e : keeps (processRound unicode_IsGraphic c m e).
Proof.
  unfold processRound. apply keeps_guard_running. unfold keeps. keeps_step.
  - apply keeps_processEventRound.
  - keeps_auto. apply keeps_processRound_line.
Qed.

Lemma keeps_processGameStart c m e : keeps (processGameStart unicode_IsGraphic c m e).
Proof. unfold processGameStart. keeps_auto. Qed.

Lemma keeps_processEmbed c msg i embed : keeps (processEmbed unicode_IsGraphic c msg i embed).
Proof.
  unfold processEmbed.
  repeat first [ apply keeps_processGameCountdownStart | apply keeps_processGameStart
               | apply keeps_processGameCancelled | apply keeps_processGameWinner
               | apply keeps_processRound | apply keeps_observeUserName | keeps_step ].
Qed.

Lemma keeps_embedLoop c msg i embeds : keeps (embedLoop unicode_IsGraphic c msg i embeds).
Proof.
  revert i. induction embeds as [|e embeds IH]; intros i; cbn.
  - apply preserves_ret.
  - apply preserves_bind; [apply keeps_processEmbed|]. intros [|]; [apply IH | apply preserves_ret].
Qed.

Lemma keeps_processMessage c msg : keeps (processMessage unicode_IsGraphic c msg).
Proof.
  unfold processMessage, observe_discord_user.
  repeat first [ apply keeps_observeUserName | apply keeps_embedLoop | keeps_step ].
Qed.

Lemma keeps_processExport backup : keeps (processExport unicode_IsGraphic backup).
Proof. unfold processExport. keeps_step. keeps_step. apply keeps_processMessage. Qed.

Lemma keeps_processBackups files : keeps (processBackups unicode_IsGraphic files).
Proof.
  unfold processBackups. repeat first [apply keeps_processExport | keeps_step].
Qed.

Lemma store_ok_runImport d files :
  store_ok d -> store_ok (db (final (runImport unicode_IsGraphic d files))).
Proof. intros H. apply (keeps_processBackups files (newProcessor d)). exact H. Qed.

End KeepsInterpreter.

(** ** The identity resolver: what an observation changes *)

Lemma foldl_proj {A B : Type} (proj : gorm.DB -> B) (f : gorm.DB -> A -> gorm.DB) l d :
  (forall d x, proj (f d x) = proj d) -> proj (foldl f d l) = proj d.
Proof.
  intros Hf. revert d. induction l as [|x l IH]; intros d; cbn; [reflexivity|].
  rewrite IH. apply Hf.
Qed.

Lemma games_fold_Save (f : Game.t -> Game.t) l d :
  (forall g, g ∈ l -> Game.ID (f g) <> 0) ->
  gorm.games (foldl (fun d g => snd (gorm.Save_game (f g) d)) d l)
  = foldl (fun t g => gorm.upsert Game.ID (f g) t) (gorm.games d) l.
Proof.
  revert d. induction l as [|x l IH]; intros d Hl; cbn [foldl]; [reflexivity|].
  rewrite IH by (intros g Hg; apply Hl; right; exact Hg).
  f_equal. unfold gorm.Save_game.
  destruct (Z.eqb_spec (Game.ID (f x)) 0) as [E|_]; [|reflexivity].
  exfalso. apply (Hl x); [left | exact E].
Qed.

Lemma mentions_fold_Save (f : InteractionUserMention.t -> InteractionUserMention.t) l d :
  (forall r, r ∈ l -> InteractionUserMention.ID (f r) <> 0) ->
  gorm.interaction_user_mentions (foldl (fun d r => gorm.Save_mention (f r) d) d l)
  = foldl (fun t r => gorm.upsert InteractionUserMention.ID (f r) t)
          (gorm.interaction_user_mentions d) l.
Proof.
  revert d. induction l as [|x l IH]; intros d Hl; cbn [foldl]; [reflexivity|].
  rewrite IH by (intros g Hg; apply Hl; right; exact Hg).
  f_equal. unfold gorm.Save_mention.
  destruct (Z.eqb_spec (InteractionUserMention.ID (f x)) 0) as [E|_]; [|reflexivity].
  exfalso. apply (Hl x); [left | exact E].
Qed.

Lemma backfill_games_games id name d :
  NoDup (Game.ID <$> gorm.games d) -> 0 ∉ Game.ID <$> gorm.games d ->
  gorm.games (backfill_games id name d) = fix_game id name <$> gorm.games d.
Proof.
  intros Hnd H0. unfold backfill_games.
  rewrite (games_fold_Save (Game.with_HostUser {| User.ID := id |})).
  - apply (upsert_fold_map Game.ID (Game.with_HostUser {| User.ID := id |})
                           (unresolved_game name) (fun _ => eq_refl) (gorm.games d) []).
    exact Hnd.
  - intros g Hg E. apply H0. cbn in E. rewrite <- E.
    apply list_elem_of_fmap_2. apply list_elem_of_In in Hg.
    apply list_elem_of_In. unfold gorm.find_where in Hg. apply List.filter_In in Hg. tauto.
Qed.

Lemma backfill_mentions_mentions id name d :
  NoDup (InteractionUserMention.ID <$> gorm.interaction_user_mentions d) ->
  0 ∉ InteractionUserMention.ID <$> gorm.interaction_user_mentions d ->
  gorm.interaction_user_mentions (backfill_mentions id name d)
  = fix_mention id name <$> gorm.interaction_user_mentions d.
Proof.
  intros Hnd H0. unfold backfill_mentions.
  rewrite (mentions_fold_Save (InteractionUserMention.with_User {| User.ID := id |})).
  - apply (upsert_fold_map InteractionUserMention.ID
                           (InteractionUserMention.with_User {| User.ID := id |})
                           (unresolved_mention name) (fun _ => eq_refl)
                           (gorm.interaction_user_mentions d) []).
    exact Hnd.
  - intros g Hg E. apply H0. cbn in E. rewrite <- E.
    apply list_elem_of_fmap_2. apply list_elem_of_In in Hg.
    apply list_elem_of_In. unfold gorm.find_where in Hg. apply List.filter_In in Hg. tauto.
Qed.

Lemma ensure_user_games id d : gorm.games (ensure_user id d) = gorm.games d.
Proof. unfold ensure_user. destruct (gorm.first_where _ _); reflexivity. Qed.

Lemma ensure_user_mentions id d :
  gorm.interaction_user_mentions (ensure_user id d) = gorm.interaction_user_mentions d.
Proof. unfold ensure_user. destruct (gorm.first_where _ _); reflexivity. Qed.

Lemma backfill_games_mentions id name d :
  gorm.interaction_user_mentions (backfill_games id name d) = gorm.interaction_user_mentions d.
Proof. unfold backfill_games. apply foldl_proj. intros; reflexivity. Qed.

Lemma backfill_games_observations id name d :
  gorm.user_name_observations (backfill_games id name d) = gorm.user_name_observations d.
Proof. unfold backfill_games. apply foldl_proj. intros; reflexivity. Qed.

Lemma backfill_mentions_games id name d :
  gorm.games (backfill_mentions id name d) = gorm.games d.
Proof. unfold backfill_mentions. apply foldl_proj. intros; reflexivity. Qed.

Lemma backfill_mentions_observations id name d :
  gorm.user_name_observations (backfill_mentions id name d) = gorm.user_name_observations d.
Proof. unfold backfill_mentions. apply foldl_proj. intros; reflexivity. Qed.

Lemma observed_observations m id name d :
  gorm.user_name_observations (observed m id name d)
  = gorm.user_name_observations d ++ [stored_observation m id name d].
Proof.
  unfold observed. rewrite backfill_mentions_observations, backfill_games_observations.
  cbn. rewrite ensure_user_observations. reflexivity.
Qed.

Lemma observed_games m id name d :
  store_ok d -> gorm.games (observed m id name d) = fix_game id name <$> gorm.games d.
Proof.
  intros []. unfold observed. rewrite backfill_mentions_games, backfill_games_games.
  - cbn. rewrite ensure_user_games. reflexivity.
  - cbn. rewrite ensure_user_games. assumption.
  - cbn. rewrite ensure_user_games. assumption.
Qed.

Lemma observed_mentions m id name d :
  store_ok d ->
  gorm.interaction_user_mentions (observed m id name d)
  = fix_mention id name <$> gorm.interaction_user_mentions d.
Proof.
  intros []. unfold observed. rewrite backfill_mentions_mentions.
  - rewrite backfill_games_mentions. cbn. rewrite ensure_user_mentions. reflexivity.
  - rewrite backfill_games_mentions. cbn. rewrite ensure_user_mentions. assumption.
  - rewrite backfill_games_mentions. cbn. rewrite ensure_user_mentions. assumption.
Qed.

Lemma observeUserName_new_final m id name p :
  id <> "" -> last_name_of id (db p) <> Some name ->
  db (final (observeUserName m id name p)) = observed m id name (db p).
Proof.
  intros Hid Hlast. destruct (observeUserName_new m id name p Hid Hlast) as [lg H].
  cbn zeta in H. rewrite H.
  repeat match goal with |- context [if ?b then _ else _] => destruct b end; reflexivity.
Qed.

(** C4.  When [observeUserName] records a new observation (the ID is not
    empty and the last name observed for it is another one, or none), the
    observation is appended, every stored game with no host user and the
    observed name as host name is rewritten where it stands to refer to the
    user, and so is every stored mention with no user and that name; the
    other rows are left as they were, so no game (or mention) is added. *)
Theorem observe_backfills_unresolved
        (m : discord.Message.t) (id name : string) (p : Processor) :
  store_ok (db p) ->
  id <> "" ->
  last_name_of id (db p) <> Some name ->
  let d' := db (final (observeUserName m id name p)) in
  gorm.user_name_observations d'
  = gorm.user_name_observations (db p) ++ [stored_observation m id name (db p)]
  /\ gorm.games d' = fix_game id name <$> gorm.games (db p)
  /\ gorm.interaction_user_mentions d'
     = fix_mention id name <$> gorm.interaction_user_mentions (db p)
  /\ Game.ID <$> gorm.games d' = Game.ID <$> gorm.games (db p).
Proof.
  intros Hok Hid Hlast d'. unfold d'.
  rewrite (observeUserName_new_final m id name p Hid Hlast).
  rewrite observed_observations, observed_games, observed_mentions by exact Hok.
  repeat split; try reflexivity.
  rewrite <- list_fmap_compose. apply list_fmap_ext. intros i g _. cbn.
  unfold fix_game. destruct (unresolved_game name g); reflexivity.
Qed.

(** C5.  On a store the interpreter has built (its invariant holds),
    observing for a user the name that its last observation already
    carries writes nothing: the call returns nil and the processor, its
    store and its log included, is as before. *)
Theorem observe_known_name_is_noop
        (m : discord.Message.t) (id name : string) (p : Processor) :
  store_ok (db p) ->
  last_name_of id (db p) = Some name ->
  observeUserName m id name p = Ok tt p.
Proof.
  intros Hok Hlast.
  assert (id <> "" /\ id ∈ User.ID <$> gorm.users (db p)) as [Hid Hin].
  { unfold last_name_of, gorm.last_where in Hlast.
    destruct (List.find _ _) as [o|] eqn:E; [|discriminate Hlast].
    apply List.find_some in E as [Ho E]. apply bool_decide_eq_true in E. subst id.
    apply (observations_known _ Hok). apply list_elem_of_In.
    apply List.in_rev. exact Ho. }
  rewrite (observeUserName_known m id name p Hid Hlast).
  unfold ensure_user. destruct (gorm.first_where _ _) as [u|] eqn:E.
  - rewrite with_db_same. reflexivity.
  - apply first_where_user in E. contradiction.
Qed.

(** C10.  When a new observation is recorded and no stored mention
    without a user carries the observed name, the call ends in [log.Fatal]
    if the name is "menardi" and returns nil for every other name; in both
    cases the observation has been appended by then. *)
Theorem observe_zero_match_menardi
        (m : discord.Message.t) (id name : string) (p : Processor) :
  id <> "" ->
  last_name_of id (db p) <> Some name ->
  gorm.find_where (unresolved_mention name) (gorm.interaction_user_mentions (db p)) = [] ->
  exists p',
    observeUserName m id name p
    = (if bool_decide (name = "menardi") then Fatal p' else Ok tt p')
    /\ gorm.user_name_observations (db p')
       = gorm.user_name_observations (db p) ++ [stored_observation m id name (db p)].
Proof.
  intros Hid Hlast Hzero.
  destruct (observeUserName_new m id name p Hid Hlast) as [lg H]. cbn zeta in H.
  rewrite backfill_games_mentions in H. cbn [gorm.interaction_user_mentions
    gorm.Create_observation gorm.with_user_name_observations] in H.
  rewrite ensure_user_mentions, Hzero in H. cbn [length Nat.ltb Nat.leb] in H.
  eexists. split; [exact H|]. cbn. apply observed_observations.
Qed.

(** ** The item-mention extractor *)

Lemma lookupItem_eq name p :
  exists item p',
    lookupItem name p = Ok item p'
    /\ Item.Name item = name
    /\ item ∈ gorm.items (db p').
Proof.
  unfold lookupItem, bind, getDB.
  destruct (gorm.first_where _ (gorm.items (db p))) as [i|] eqn:E.
  - apply List.find_some in E as [Hin E]. apply bool_decide_eq_true in E.
    exists i, p. repeat split; [exact E | apply list_elem_of_In; exact Hin].
  - eexists _, _. split; [reflexivity|]. split; [reflexivity|]. cbn. apply upsert_elem.
Qed.

(** C7.  [extractItems] fails with the error of the unsupported
    multi-item case exactly when the pattern of an item mention matches
    more than once in the text, and then leaves the processor as it was;
    without a match it returns the text and no item; with one match it
    returns the text with that match replaced by the placeholder and the
    one item of that (unescaped) name, which the store then holds. *)
Theorem extractItems_multi_item (msg : string) (p : Processor) :
  let matches := Regexp.FindAllStringSubmatch Patterns.rxItemFormatted 1 msg in
  ((1 < length matches)%nat -> extractItems msg p = Err (multi_item_error msg) p)
  /\ (matches = [] -> extractItems msg p = Ok (msg, []) p)
  /\ (forall match_, matches = [match_] ->
        exists item p',
          extractItems msg p
          = Ok (GoStrings.Replace1 msg (nth_s 0 match_) "{{item}}", [item]) p'
          /\ Item.Name item = unescapeMarkdown (nth_s 1 match_)
          /\ item ∈ gorm.items (db p'))
  /\ (forall e p', extractItems msg p = Err e p' -> (1 < length matches)%nat).
Proof.
  intros matches. unfold extractItems. fold matches. repeat split.
  - intros H. apply Nat.ltb_lt in H. rewrite H. reflexivity.
  - intros ->. reflexivity.
  - intros match_ ->. cbn [length Nat.ltb Nat.leb extractItems_loop]. unfold bind.
    destruct (lookupItem_eq (unescapeMarkdown (nth_s 1 match_)) p) as (item & p' & -> & Hn & Hin).
    exists item, p'. repeat split; assumption.
  - intros e p'. destruct (1 <? length matches)%nat eqn:E.
    + intros _. apply Nat.ltb_lt. exact E.
    + intros H. exfalso. destruct matches as [|m1 [|m2 rest]]; [discriminate H| |discriminate E].
      cbn [extractItems_loop] in H. unfold bind in H.
      destruct (lookupItem_eq (unescapeMarkdown (nth_s 1 m1)) p) as (item & p1 & E1 & _).
      rewrite E1 in H. discriminate H.
Qed.

(** ** The archive loader *)

(** C9, the failing input.  On an export that decodes to an empty
    [messages] array [walkFunc] neither returns a first-message timestamp
    nor returns an error: indexing the first message panics. *)
Theorem walkFunc_empty_export_panics :
  loader.walkFunc (fun _ => inl empty_export) []
                  "discord-exports/1224009923457847428/empty.json"
                  {| loader.IsDir := false; loader.Name := "empty.json" |} None
  = loader.RuntimePanic "index out of range [0] with length 0".
Proof. reflexivity. Qed.

(** ** The user-mention extractor *)

Lemma bare_userInteraction_of match_ : bare (userInteraction_of match_).
Proof.
  unfold userInteraction_of, bare.
  destruct (negb _); [cbn; auto|]. destruct (negb _); cbn; auto.
Qed.

Lemma bare_key_inj x y : bare x -> bare y -> mention_key x = mention_key y -> x = y.
Proof.
  destruct x, y. unfold bare, mention_key. cbn. intros (-> & -> & ->) (-> & -> & ->) H.
  injection H as -> -> ->. reflexivity.
Qed.

Section Index.
Context {A : Type} `{EqDecision A}.

Lemma slices_Index_Some (l : list A) x i : slices_Index l x = Some i -> l !! i = Some x.
Proof.
  revert i. induction l as [|y l IH]; intros i; cbn; [discriminate|].
  destruct (decide (y = x)) as [->|_].
  - intros [= <-]. reflexivity.
  - destruct (slices_Index l x) as [j|]; [|discriminate]. intros [= <-]. cbn. apply IH. reflexivity.
Qed.

Lemma slices_Index_None (l : list A) x : slices_Index l x = None <-> x ∉ l.
Proof.
  induction l as [|y l IH]; cbn.
  - split; [intros _; apply not_elem_of_nil | reflexivity].
  - destruct (decide (y = x)) as [->|Hne].
    + split; [discriminate | intros H; exfalso; apply H; left].
    + rewrite not_elem_of_cons, <- IH. destruct (slices_Index l x); cbn.
      * split; [discriminate | intros [_ H]; discriminate H].
      * split; [intros _; split; [congruence | reflexivity] | reflexivity].
Qed.

Lemma slices_Index_app_l (l ext : list A) x i :
  slices_Index l x = Some i -> slices_Index (l ++ ext) x = Some i.
Proof.
  revert i. induction l as [|y l IH]; intros i; cbn; [discriminate|].
  destruct (decide (y = x)); [auto|].
  destruct (slices_Index l x) as [j|] eqn:E; [|discriminate]. intros [= <-].
  rewrite (IH j eq_refl). reflexivity.
Qed.

Lemma slices_Index_app_new (l ext : list A) x :
  x ∉ l -> slices_Index (l ++ x :: ext) x = Some (length l).
Proof.
  induction l as [|y l IH]; cbn; intros H.
  - destruct (decide (x = x)); [reflexivity | congruence].
  - apply not_elem_of_cons in H as [Hne H].
    destruct (decide (y = x)); [congruence|]. rewrite (IH H). reflexivity.
Qed.

Lemma first_occurrences_sub (l : list A) x : x ∈ first_occurrences l -> x ∈ l.
Proof.
  induction l as [|y l IH]; cbn; [auto|]. intros H.
  apply elem_of_cons in H as [->|H]; [left|]. right. apply IH.
  apply list_elem_of_In in H. apply List.filter_In in H as [H _].
  apply list_elem_of_In. exact H.
Qed.

Lemma filter_filter_absorb (acc : list A) x (l : list A) :
  x ∈ acc ->
  List.filter (fun y => negb (bool_decide (y ∈ acc)))
              (List.filter (fun y => negb (bool_decide (y = x))) l)
  = List.filter (fun y => negb (bool_decide (y ∈ acc))) l.
Proof.
  intros Hx. induction l as [|y l IH]; cbn; [reflexivity|].
  destruct (bool_decide (y = x)) eqn:E1; cbn.
  - apply bool_decide_eq_true in E1. subst y.
    rewrite (bool_decide_eq_true_2 _ Hx). cbn. exact IH.
  - destruct (bool_decide (y ∈ acc)); cbn; rewrite IH; reflexivity.
Qed.

Lemma filter_snoc_split (acc : list A) x (l : list A) :
  List.filter (fun y => negb (bool_decide (y ∈ acc ++ [x]))) l
  = List.filter (fun y => negb (bool_decide (y ∈ acc)))
                (List.filter (fun y => negb (bool_decide (y = x))) l).
Proof.
  induction l as [|y l IH]; cbn; [reflexivity|].
  destruct (bool_decide (y = x)) eqn:E1; cbn.
  - apply bool_decide_eq_true in E1. subst y.
    rewrite bool_decide_eq_true_2 by (apply elem_of_app; right; left). cbn. exact IH.
  - apply bool_decide_eq_false in E1.
    destruct (bool_decide (y ∈ acc)) eqn:E2; cbn.
    + apply bool_decide_eq_true in E2.
      rewrite bool_decide_eq_true_2 by (apply elem_of_app; left; exact E2). cbn. exact IH.
    + apply bool_decide_eq_false in E2.
      rewrite bool_decide_eq_false_2; [cbn; rewrite IH; reflexivity|].
      intros H. apply elem_of_app in H as [H|H]; [contradiction|].
      apply list_elem_of_singleton in H. contradiction.
Qed.

(** The loop "append unless already there" collects the first
    occurrences. *)
Lemma collect_first_occurrences (l acc : list A) :
  foldl (fun acc x => match slices_Index acc x with
                      | Some _ => acc
                      | None => acc ++ [x]
                      end) acc l
  = acc ++ List.filter (fun y => negb (bool_decide (y ∈ acc))) (first_occurrences l).
Proof.
  revert acc. induction l as [|x l IH]; intros acc; cbn [foldl first_occurrences].
  - cbn. rewrite app_nil_r. reflexivity.
  - destruct (slices_Index acc x) as [i|] eqn:E.
    + assert (x ∈ acc) as Hx.
      { apply slices_Index_Some in E. apply list_elem_of_lookup_2 in E. exact E. }
      rewrite IH. cbn. rewrite (bool_decide_eq_true_2 _ Hx). cbn.
      rewrite filter_filter_absorb by exact Hx. reflexivity.
    + apply slices_Index_None in E. rewrite IH. cbn.
      rewrite (bool_decide_eq_false_2 _ E). cbn.
      rewrite filter_snoc_split, <- app_assoc. reflexivity.
Qed.
End Index.

Lemma extractUsers_step_snd s acc match_ :
  snd (extractUsers_step (s, acc) match_) = collect_mention acc (userInteraction_of match_).
Proof.
  unfold extractUsers_step, collect_mention.
  destruct (slices_Index acc (userInteraction_of match_)); reflexivity.
Qed.

Lemma extractUsers_step_fst s acc match_ :
  fst (extractUsers_step (s, acc) match_)
  = GoStrings.Replace1 s (nth_s 0 match_)
      (users_placeholder
         (position (collect_mention acc (userInteraction_of match_)) (userInteraction_of match_))).
Proof.
  unfold extractUsers_step, collect_mention, position.
  destruct (slices_Index acc (userInteraction_of match_)) as [i|] eqn:E; cbn.
  - rewrite E. reflexivity.
  - apply slices_Index_None in E. rewrite (slices_Index_app_new acc [] _ E). reflexivity.
Qed.

Lemma extractUsers_scan_from matches s acc :
  let r := foldl extractUsers_step (s, acc) matches in
  snd r = foldl collect_mention acc (userInteraction_of <$> matches)
  /\ (exists ext, snd r = acc ++ ext)
  /\ fst r = foldl (fun s match_ =>
                      GoStrings.Replace1 s (nth_s 0 match_)
                        (users_placeholder (position (snd r) (userInteraction_of match_))))
                   s matches.
Proof.
  revert s acc. induction matches as [|mt rest IH]; intros s acc; cbn [foldl fmap list_fmap].
  - cbn. repeat split. exists []. rewrite app_nil_r. reflexivity.
  - destruct (extractUsers_step (s, acc) mt) as [s1 acc1] eqn:E.
    pose proof (extractUsers_step_snd s acc mt) as Hsnd.
    pose proof (extractUsers_step_fst s acc mt) as Hfst.
    rewrite E in Hsnd, Hfst. cbn [fst snd] in Hsnd, Hfst.
    destruct (IH s1 acc1) as (H1 & [ext H2] & H3). cbn zeta in *.
    assert (exists i, slices_Index acc1 (userInteraction_of mt) = Some i) as [i Hi].
    { rewrite Hsnd. unfold collect_mention.
      destruct (slices_Index acc (userInteraction_of mt)) as [j|] eqn:Ej.
      - exists j. exact Ej.
      - apply slices_Index_None in Ej. exists (length acc).
        apply (slices_Index_app_new acc []). exact Ej. }
    split; [|split].
    + rewrite H1, Hsnd. reflexivity.
    + rewrite H2, Hsnd. unfold collect_mention.
      destruct (slices_Index acc (userInteraction_of mt)).
      * exists ext. reflexivity.
      * exists (userInteraction_of mt :: ext). rewrite <- app_assoc. reflexivity.
    + rewrite H3. f_equal.
      assert (position (snd (foldl extractUsers_step (s1, acc1) rest)) (userInteraction_of mt)
              = position acc1 (userInteraction_of mt)) as ->.
      { unfold position. rewrite H2, (slices_Index_app_l acc1 ext _ i Hi), Hi. reflexivity. }
      rewrite Hsnd. exact Hfst.
Qed.

Lemma filter_not_in_nil {A : Type} `{EqDecision A} (l : list A) :
  List.filter (fun y => negb (bool_decide (y ∈ @nil A))) l = l.
Proof.
  induction l as [|y l IH]; cbn; [reflexivity|].
  rewrite bool_decide_eq_false_2 by apply not_elem_of_nil. cbn. rewrite IH. reflexivity.
Qed.

Lemma extractUsers_scan_mentions matches msg :
  snd (extractUsers_scan matches msg) = first_occurrences (userInteraction_of <$> matches).
Proof.
  unfold extractUsers_scan.
  destruct (extractUsers_scan_from matches msg []) as (H & _ & _). cbn zeta in H. rewrite H.
  unfold collect_mention. rewrite collect_first_occurrences. cbn [app].
  apply filter_not_in_nil.
Qed.

Section InjectiveKeys.
Context {A B : Type} `{EqDecision A} `{EqDecision B} (f : A -> B).

Lemma filter_fmap_inj (x : A) (l : list A) :
  (forall y, y ∈ l -> f y = f x -> y = x) ->
  f <$> List.filter (fun y => negb (bool_decide (y = x))) l
  = List.filter (fun k => negb (bool_decide (k = f x))) (f <$> l).
Proof.
  induction l as [|y l IH]; intros Hinj; cbn; [reflexivity|].
  destruct (bool_decide (y = x)) eqn:E.
  - apply bool_decide_eq_true in E. subst y.
    rewrite bool_decide_eq_true_2 by reflexivity. cbn.
    apply IH. intros z Hz. apply Hinj. right. exact Hz.
  - apply bool_decide_eq_false in E.
    rewrite bool_decide_eq_false_2 by (intros Hk; apply E, Hinj; [left | exact Hk]).
    cbn. rewrite IH; [reflexivity|]. intros z Hz. apply Hinj. right. exact Hz.
Qed.

Lemma first_occurrences_fmap_inj (l : list A) :
  (forall x y, x ∈ l -> y ∈ l -> f x = f y -> x = y) ->
  f <$> first_occurrences l = first_occurrences (f <$> l).
Proof.
  induction l as [|x l IH]; intros Hinj; cbn; [reflexivity|].
  f_equal. rewrite filter_fmap_inj.
  - rewrite IH; [reflexivity|]. intros a b Ha Hb. apply Hinj; right; assumption.
  - intros y Hy Hk. symmetry. apply Hinj; [left | right; apply first_occurrences_sub, Hy|].
    symmetry. exact Hk.
Qed.

Lemma slices_Index_fmap_inj (l : list A) (x : A) :
  (forall y, y ∈ l -> f y = f x -> y = x) ->
  slices_Index (f <$> l) (f x) = slices_Index l x.
Proof.
  induction l as [|y l IH]; intros Hinj; cbn; [reflexivity|].
  destruct (decide (y = x)) as [->|Hne].
  - destruct (decide (f x = f x)); [reflexivity | congruence].
  - destruct (decide (f y = f x)) as [E|_].
    + exfalso. apply Hne, Hinj; [left | exact E].
    + rewrite IH; [reflexivity|]. intros z Hz. apply Hinj. right. exact Hz.
Qed.
End InjectiveKeys.

Lemma extractUsers_fill_keys m l p l' p' :
  extractUsers_fill m l p = Ok l' p' -> mention_key <$> l' = mention_key <$> l.
Proof.
  revert p l' p'. induction l as [|x l IH]; intros p l' p'; cbn.
  - intros [= <- _]. reflexivity.
  - unfold bind. destruct (lookupUserName m _ p) as [u p1| | |]; try discriminate.
    destruct (extractUsers_fill m l p1) as [r p2| | |] eqn:E; try discriminate.
    intros [= <- _]. cbn. f_equal; [|apply (IH p1 r p2 E)].
    destruct u; reflexivity.
Qed.

Section FirstOccurrences.
Context {A : Type} `{EqDecision A}.

Lemma first_occurrences_complete (l : list A) x : x ∈ l -> x ∈ first_occurrences l.
Proof.
  induction l as [|y l IH]; cbn; [auto|]. intros H.
  destruct (decide (x = y)) as [->|Hne]; [left|].
  apply elem_of_cons in H as [H|H]; [contradiction|]. right.
  apply list_elem_of_In, List.filter_In. split.
  - apply list_elem_of_In, IH, H.
  - rewrite bool_decide_eq_false_2 by exact Hne. reflexivity.
Qed.

Lemma NoDup_first_occurrences (l : list A) : NoDup (first_occurrences l).
Proof.
  induction l as [|y l IH]; cbn; [apply NoDup_nil_2|].
  apply NoDup_cons_2.
  - intros H. apply list_elem_of_In, List.filter_In in H as [_ H].
    rewrite bool_decide_eq_true_2 in H by reflexivity. discriminate H.
  - apply NoDup_ListNoDup, List.NoDup_filter, NoDup_ListNoDup, IH.
Qed.

Lemma foldl_ext_all {B : Type} (f g : B -> A -> B) (b : B) (l : list A) :
  (forall b x, f b x = g b x) -> foldl f b l = foldl g b l.
Proof.
  intros H. revert b. induction l as [|x l IH]; intros b; cbn; [reflexivity|].
  rewrite H. apply IH.
Qed.
End FirstOccurrences.

(** ** Round numbering within a game *)



Section Frame.
Variable c : discord.Channel.t.













End Frame.


Section StableMethods.
Variable c : discord.Channel.t.
















End StableMethods.

Lemma storeCurrentRound_eq c p :
  storeCurrentRound c p
  = match gorm.Create_round (LastKnownRound (chan p c)) (db p) with
    | inl (r, d') =>
        Ok tt (final (setChannelState c (with_LastKnownRound r) (with_db d' (entered c p))))
    | inr e => Err (ErrStore e) (entered c p)
    end.
Proof.
  unfold storeCurrentRound, bind. rewrite getChannelState_eq. unfold getDB.
  rewrite db_entered. destruct (gorm.Create_round _ _) as [[r d']|e]; reflexivity.
Qed.

Lemma Create_round_inl r d r' d' :
  gorm.Create_round r d = inl (r', d') ->
  gorm.rounds d' = gorm.rounds d ++ [r']
  /\ Round.GameID r' = Round.GameID r /\ Round.RoundNumber r' = Round.RoundNumber r.
Proof.
  unfold gorm.Create_round. destruct (gorm.has_key Round.ID _ _); [discriminate|].
  destruct (gorm.has_key Round.key _ _); [discriminate|]. intros [= <- <-].
  split; [reflexivity|]. destruct (Round.ID r =? 0); split; reflexivity.
Qed.

Section Numbering.
Variable unicode_IsGraphic : Z -> bool.
Variable c : discord.Channel.t.
Variable g : Z.
Variable base : list Round.t.
Hypothesis g_nonzero : g <> 0.















End Numbering.

Section Replay.
Variable unicode_IsGraphic : Z -> bool.
Variable c : discord.Channel.t.
Variable g : Z.
Variable base : list Round.t.
Hypothesis g_nonzero : g <> 0.





End Replay.
Section NewGame.
Variable c : discord.Channel.t.
Variable g : Z.
Variable d : gorm.DB.

Lemma opened_lookupUserName m name : preserves (opened c g d) (lookupUserName m name).
Proof.
  intros p H. unfold lookupUserName. destruct (String.length name =? 0)%nat; [exact H|].
  unfold bind, getDB. destruct (gorm.last_where _ _); exact H.
Qed.

Lemma opened_setChannelState f :
  (forall cs, Game.ID (LastKnownGame (f cs)) = Game.ID (LastKnownGame cs)) ->
  preserves (opened c g d) (setChannelState c f).
Proof.
  intros Hf p (H1 & H2 & H3). split; [exact H1|]. split; [|exact H3].
  rewrite chan_setChannelState. destruct (decide _); [|contradiction].
  rewrite Hf. exact H2.
Qed.
End NewGame.

Lemma createNewGame_spec c m era hostName p :
  let g := GoInt.add (LastKnownGameID p) 1 in
  let r := createNewGame c m era hostName p in
  opened c g (db p) (final r)
  /\ (forall u p', r = Ok u p' ->
        round_view (chan p' c) = (g, g, 0)
        /\ LastKnownIsGameRunning (chan p' c) = false).
Proof.
  intros g r. unfold r, createNewGame, bind. rewrite getChannelState_eq.
  cbv beta iota.
  match goal with |- context [setChannelState c ?f ?q] =>
    change (setChannelState c f q) with (Ok tt (final (setChannelState c f q)));
    set (p1 := final (setChannelState c f q)) end.
  cbv beta iota.
  assert (opened c g (db p) p1) as H1.
  { unfold p1. split; [|split].
    - cbn. rewrite LastKnownGameID_entered. reflexivity.
    - rewrite chan_setChannelState. destruct (decide _); [|contradiction].
      cbn. rewrite LastKnownGameID_entered. reflexivity.
    - cbn. apply db_entered. }
  set (host := match hostName with Some h => _ | None => _ end).
  assert (preserves (opened c g (db p)) host) as Hhost.
  { unfold host. destruct hostName as [h|]; [|apply preserves_ret].
    apply (preserves_bind _ (lookupUserName m h)); [apply opened_lookupUserName|].
    intros [u|]; [|apply preserves_ret]. apply opened_setChannelState. reflexivity. }
  specialize (Hhost p1 H1). destruct (host p1) as [[] p2|e p2|p2|rs p2]; cbn in Hhost.
  - change (setChannelState c ?f p2) with (Ok tt (final (setChannelState c f p2))).
    cbv beta iota.
    match goal with |- context [setChannelState c ?f2 (final (setChannelState c ?f1 p2))] =>
      set (p3 := final (setChannelState c f1 p2));
      change (setChannelState c f2 p3) with (Ok tt (final (setChannelState c f2 p3)));
      set (p4 := final (setChannelState c f2 p3)) end.
    assert (chan p4 c = with_LastKnownIsGameRunning false
                          (with_LastKnownRound
                             {| Round.ID := 0; Round.GameID := Game.ID (LastKnownGame (chan p2 c));
                                Round.Game := LastKnownGame (chan p2 c); Round.RoundNumber := 0;
                                Round.PostTime := 0 |} (chan p2 c))) as Hc.
    { unfold p4, p3. rewrite !chan_setChannelState.
      destruct (decide _); [reflexivity | contradiction]. }
    destruct Hhost as (Ha & Hb & Hd). cbv beta iota. cbn [final]. split.
    + unfold opened. split; [exact Ha|]. split. rewrite Hc. exact Hb. exact Hd.
    + intros u p' Heq. assert (p' = p4) as -> by congruence. rewrite Hc. unfold round_view. cbn. rewrite Hb. split; reflexivity.
  - split; [exact Hhost | intros ? ? [=]].
  - split; [exact Hhost | intros ? ? [=]].
  - split; [exact Hhost | intros ? ? [=]].
Qed.

Lemma processGameCountdownStart_spec IG c m e p p1 :
  processGameCountdownStart IG c m e p = Ok tt p1 ->
  let g := GoInt.add (LastKnownGameID p) 1 in
  round_view (chan p1 c) = (g, g, 0)
  /\ LastKnownIsGameRunning (chan p1 c) = false
  /\ LastKnownGameID p1 = g
  /\ db p1 = db p.
Proof.
  intros H. cbv zeta. set (g := GoInt.add (LastKnownGameID p) 1).
  unfold processGameCountdownStart, bind in H.
  match type of H with context [createNewGame c m ?era ?host p] =>
    destruct (createNewGame_spec c m era host p) as [Ho Hv];
    destruct (createNewGame c m era host p) as [[] p2| | |] eqn:E; try discriminate H
  end.
  cbn zeta in Ho, Hv. cbn [final] in Ho. destruct (Hv tt p2 eq_refl) as [Hv1 Hv2].
  destruct Ho as (Ha & Hb & Hd).
  rewrite getChannelState_eq in H.
  match type of H with context [setChannelState c ?f ?q] =>
    change (setChannelState c f q) with (Ok tt (final (setChannelState c f q))) in H;
    set (p3 := final (setChannelState c f q)) in H
  end.
  assert (p1 = p3) as -> by congruence. unfold p3.
  rewrite chan_setChannelState. destruct (decide _); [|contradiction].
  rewrite chan_entered. unfold round_view in *. cbn.
  injection Hv1 as Hv1 Hv3 Hv4. rewrite Hv1, Hv3, Hv4, Hv2.
  repeat split.
  - rewrite LastKnownGameID_entered. exact Ha.
  - rewrite db_entered. exact Hd.
Qed.



(** ** Running the import again *)

Lemma createNewGame_counter c m era hostName p :
  LastKnownGameID (final (createNewGame c m era hostName p)) = GoInt.add (LastKnownGameID p) 1
  /\ Game.ID (LastKnownGame (chan (final (createNewGame c m era hostName p)) c))
     = GoInt.add (LastKnownGameID p) 1.
Proof.
  destruct (createNewGame_spec c m era hostName p) as [(H1 & H2 & _) _].
  split; assumption.
Qed.


(** ** Interaction messages *)

Lemma first_where_message tbl i :
  NoDup (message_key <$> tbl) -> i ∈ tbl ->
  gorm.first_where
    (fun x => bool_decide (InteractionMessage.Text x = InteractionMessage.Text i)
              && bool_decide (InteractionMessage.Event x = InteractionMessage.Event i)) tbl
  = Some i.
Proof.
  unfold gorm.first_where. induction tbl as [|x tbl IH]; intros Hnd Hi; [inversion Hi|].
  rewrite fmap_cons in Hnd. apply NoDup_cons in Hnd as [Hx Hnd]. cbn.
  destruct (bool_decide (InteractionMessage.Text x = InteractionMessage.Text i)) eqn:E1;
    destruct (bool_decide (InteractionMessage.Event x = InteractionMessage.Event i)) eqn:E2;
    cbn.
  - apply bool_decide_eq_true in E1, E2.
    apply elem_of_cons in Hi as [->|Hi]; [reflexivity|]. exfalso. apply Hx.
    replace (message_key x) with (message_key i)
      by (unfold message_key; rewrite E1, E2; reflexivity).
    apply list_elem_of_fmap_2. exact Hi.
  - apply bool_decide_eq_false in E2.
    apply elem_of_cons in Hi as [->|Hi]; [contradiction | apply IH; assumption].
  - apply bool_decide_eq_false in E1.
    apply elem_of_cons in Hi as [->|Hi]; [contradiction | apply IH; assumption].
  - apply bool_decide_eq_false in E1.
    apply elem_of_cons in Hi as [->|Hi]; [contradiction | apply IH; assumption].
Qed.

(** C8.  On a store the interpreter has built, after a run of the import,
    however it ends, no two stored interaction messages have both the same
    text and the same event; and looking up the text and event of a stored
    message returns that message and leaves the processor, its store
    included, as it was. *)
Theorem interaction_messages_deduplicated
        (unicode_IsGraphic : Z -> bool) (d : gorm.DB)
        (files : list (string * (error + discord.Backup.t))) :
  store_ok d ->
  let p := final (runImport unicode_IsGraphic d files) in
  NoDup (message_key <$> gorm.interaction_messages (db p))
  /\ forall i, i ∈ gorm.interaction_messages (db p) ->
               lookupInteractionMessage (InteractionMessage.Text i)
                                        (InteractionMessage.Event i) p
               = Ok i p.
Proof.
  intros H p. pose proof (store_ok_runImport unicode_IsGraphic d files H) as Hok.
  fold p in Hok. split; [apply (messages_unique _ Hok)|].
  intros i Hi. unfold lookupInteractionMessage, bind, getDB.
  rewrite (first_where_message _ i (messages_unique _ Hok) Hi). reflexivity.
Qed.

(** ** The alternatives of the switch *)

Lemma processEmbed_switch IG c msg i embed :
  processEmbed IG c msg i embed
  = match switch_case msg i embed with
    | CountdownStart =>
        mapError (wrapError msg) (processGameCountdownStart IG c msg embed) ;; ret Next
    | ContinuedCountdown | Ignored => ret Next
    | GameStart => mapError (wrapError msg) (processGameStart IG c msg embed) ;; ret Next
    | GameCancelled => dropError (processGameCancelled c msg) ;; ret BreakEmbedLoop
    | GameWinner => dropError (processGameWinner c msg) ;; ret BreakEmbedLoop
    | UserCommand =>
        match discord.Message.Interaction msg with
        | Some i =>
            observeUserName msg (discord.User.ID (discord.Interaction.User i))
              (unescapeMarkdown
                 (List.hd "" (GoStrings.SplitN2
                                (discord.EmbedAuthor.Name (discord.Embed.Author embed)) "'"))) ;;
            ret BreakEmbedLoop
        | None => panic "invalid memory address or nil pointer dereference"
        end
    | RoundNarrative => mapError (wrapError msg) (processRound IG c msg embed) ;; ret Next
    | Unhandled =>
        log_Printf "ignoring unhandled message:\n\n%s\n\n%s\n\n"
                   [ArgS (discord.Message.Content msg); ArgEmbed embed] ;;
        ret Next
    end.
Proof.
  unfold processEmbed, switch_case.
  repeat match goal with |- context [if ?b then _ else _] => destruct b end; reflexivity.
Qed.

(** ** What a call leaves untouched *)

Section Untouched.
Context {B : Type}.
Variable proj : Processor -> B.

Lemma untouched_ret {A : Type} (a : A) : untouched proj (ret a).
Proof. intros p. reflexivity. Qed.

Lemma untouched_fail {A : Type} e : untouched proj (@fail A e).
Proof. intros p. reflexivity. Qed.

Lemma untouched_panic {A : Type} r : untouched proj (@panic A r).
Proof. intros p. reflexivity. Qed.

Lemma untouched_bind {A C : Type} (m : M A) (k : A -> M C) :
  untouched proj m -> (forall a, untouched proj (k a)) -> untouched proj (bind m k).
Proof.
  intros Hm Hk p. specialize (Hm p). unfold bind.
  destruct (m p) as [a p1|e p1|p1|r p1]; cbn in *; try exact Hm.
  rewrite Hk. exact Hm.
Qed.

Lemma untouched_forEach {A : Type} (f : A -> M unit) l :
  (forall x, untouched proj (f x)) -> untouched proj (forEach f l).
Proof.
  intros Hf. induction l as [|x l IH]; cbn.
  - apply untouched_ret.
  - apply untouched_bind; [apply Hf | intros _; exact IH].
Qed.

Lemma untouched_mapError {A : Type} f (m : M A) :
  untouched proj m -> untouched proj (mapError f m).
Proof. intros Hm p. specialize (Hm p). unfold mapError. destruct (m p); exact Hm. Qed.

Lemma untouched_dropError (m : M unit) : untouched proj m -> untouched proj (dropError m).
Proof. intros Hm p. specialize (Hm p). unfold dropError. destruct (m p); exact Hm. Qed.

Lemma untouched_preserves {A : Type} (m : M A) v :
  untouched proj m -> preserves (fun p => proj p = v) m.
Proof. intros Hm p Hp. rewrite Hm. exact Hp. Qed.

End Untouched.

(** One step through a method body; [prim] closes the goals about the
    primitives of the monad for the projection at hand. *)
Ltac untouched_with prim :=
  match goal with
  | |- untouched _ (ret _) => apply untouched_ret
  | |- untouched _ (fail _) => apply untouched_fail
  | |- untouched _ (panic _) => apply untouched_panic
  | |- untouched _ (bind _ _) => apply untouched_bind; [|intros ?]
  | |- untouched _ (forEach _ _) => apply untouched_forEach; intros ?
  | |- untouched _ (mapError _ _) => apply untouched_mapError
  | |- untouched _ (dropError _) => apply untouched_dropError
  | |- untouched _ (match ?x with _ => _ end) => destruct x
  | |- untouched _ (if ?x then _ else _) => destruct x
  | |- untouched _ (let '(_, _) := ?x in _) => destruct x
  | |- untouched _ _ => prim
  end.

(** Projections that read neither the store nor the log. *)
Ltac prim_state :=
  idtac;
  match goal with
  | |- untouched _ getDB => intros ?; reflexivity
  | |- untouched _ (putDB _) => intros ?; reflexivity
  | |- untouched _ (modifyDB _) => intros ?; reflexivity
  | |- untouched _ (log_Printf _ _) => intros ?; reflexivity
  | |- untouched _ (log_Fatal _) => intros ?; reflexivity
  end.

Lemma untouched_state_observeUserName m id name :
  untouched (fun p => (channels p, LastKnownGameID p)) (observeUserName m id name).
Proof.
  unfold observeUserName, lookupUserID, storeUser, observeUserName_record, fixupGames,
    fixupMentions.
  repeat untouched_with prim_state.
Qed.

Lemma untouched_state_processMessage IG c msg :
  discord.User.ID (discord.Message.Author msg) <> botAuthorID ->
  untouched (fun p => (channels p, LastKnownGameID p, gorm.rounds (db p),
                       gorm.interactions (db p), gorm.items (db p),
                       gorm.interaction_messages (db p)))
            (processMessage IG c msg).
Proof.
  intros Hne. unfold processMessage.
  apply String.eqb_neq in Hne. rewrite Hne. cbn [negb].
  unfold observe_discord_user, observeUserName, lookupUserID, storeUser,
    observeUserName_record, fixupGames, fixupMentions.
  repeat untouched_with prim_state.
Qed.

(** ** Frames of the state machine *)

Section StateFrame.
Context {B : Type}.
Variable proj : Processor -> B.
Variable c : discord.Channel.t.
Hypothesis Hdb : forall d p, proj (with_db d p) = proj p.
Hypothesis Hlog : forall l p, proj (with_log l p) = proj p.
Hypothesis Hent : forall p, proj (entered c p) = proj p.
Hypothesis Hset : forall f p, proj (final (setChannelState c f p)) = proj p.
Hypothesis Hctr : forall z p, proj (with_LastKnownGameID z p) = proj p.

Ltac prim_frame :=
  idtac;
  match goal with
  | |- untouched _ getDB => intros ?; reflexivity
  | |- untouched _ (putDB _) => intros ?; apply Hdb
  | |- untouched _ (modifyDB _) => intros ?; apply Hdb
  | |- untouched _ (log_Printf _ _) => intros ?; apply Hlog
  | |- untouched _ (log_Fatal _) => intros ?; apply Hlog
  | |- untouched _ (getChannelState c) => intros ?; rewrite getChannelState_eq; apply Hent
  | |- untouched _ (setChannelState c _) => intros ?; apply Hset
  end.

Lemma frame_lookupUserName m name : untouched proj (lookupUserName m name).
Proof. unfold lookupUserName. repeat untouched_with prim_frame. Qed.

Lemma frame_lookupItem name : untouched proj (lookupItem name).
Proof. unfold lookupItem, storeItem. repeat untouched_with prim_frame. Qed.

Lemma frame_lookupInteractionMessage text event :
  untouched proj (lookupInteractionMessage text event).
Proof.
  unfold lookupInteractionMessage, storeInteractionMessage. repeat untouched_with prim_frame.
Qed.

Lemma frame_storeInteraction i : untouched proj (storeInteraction i).
Proof. unfold storeInteraction. repeat untouched_with prim_frame. Qed.

Lemma frame_observeUserName m id name : untouched proj (observeUserName m id name).
Proof.
  unfold observeUserName, lookupUserID, storeUser, observeUserName_record, fixupGames,
    fixupMentions.
  repeat untouched_with prim_frame.
Qed.

Lemma frame_extractUsers_fill m l : untouched proj (extractUsers_fill m l).
Proof.
  induction l as [|x l IH]; cbn.
  - apply untouched_ret.
  - apply untouched_bind; [apply frame_lookupUserName|]. intros u.
    apply untouched_bind; [exact IH|]. intros r. apply untouched_ret.
Qed.

Lemma frame_extractUsers m msg : untouched proj (extractUsers m msg).
Proof.
  unfold extractUsers. repeat first [apply frame_extractUsers_fill | untouched_with prim_frame].
Qed.

Lemma frame_extractItems_loop matches msg items :
  untouched proj (extractItems_loop matches msg items).
Proof.
  revert msg items. induction matches as [|x l IH]; intros msg items; cbn.
  - apply untouched_ret.
  - apply untouched_bind; [apply frame_lookupItem | intros ?; apply IH].
Qed.

Lemma frame_extractItems msg : untouched proj (extractItems msg).
Proof.
  unfold extractItems. repeat first [apply frame_extractItems_loop | untouched_with prim_frame].
Qed.

Lemma frame_storeCurrentGame : untouched proj (storeCurrentGame c).
Proof. unfold storeCurrentGame. repeat untouched_with prim_frame. Qed.

Lemma frame_storeCurrentRound : untouched proj (storeCurrentRound c).
Proof. unfold storeCurrentRound. repeat untouched_with prim_frame. Qed.

Lemma frame_createNewRound n : untouched proj (createNewRound c n).
Proof. unfold createNewRound. repeat untouched_with prim_frame. Qed.

Lemma frame_guard_running arg what body :
  untouched proj body -> untouched proj (guard_running c arg what body).
Proof. intros H. unfold guard_running. repeat untouched_with prim_frame. exact H. Qed.

Ltac frame_auto :=
  repeat first
    [ apply frame_lookupUserName | apply frame_lookupItem
    | apply frame_lookupInteractionMessage | apply frame_storeInteraction
    | apply frame_observeUserName | apply frame_extractUsers | apply frame_extractItems
    | apply frame_storeCurrentGame | apply frame_storeCurrentRound
    | apply frame_createNewRound | apply frame_guard_running
    | untouched_with prim_frame ].

Lemma frame_processGameWinner m : untouched proj (processGameWinner c m).
Proof. unfold processGameWinner. frame_auto. Qed.

Lemma frame_processGameCancelled m : untouched proj (processGameCancelled c m).
Proof. unfold processGameCancelled. frame_auto. Qed.

Lemma frame_processGameSummary e : untouched proj (processGameSummary c e).
Proof. unfold processGameSummary. frame_auto. Qed.

Lemma frame_processRound_line m line : untouched proj (processRound_line c m line).
Proof. unfold processRound_line. frame_auto. Qed.

Lemma frame_processEventRound IG m e : untouched proj (processEventRound IG c m e).
Proof. unfold processEventRound. frame_auto. Qed.

Lemma frame_processRound IG m e : untouched proj (processRound IG c m e).
Proof.
  unfold processRound. apply frame_guard_running. untouched_with prim_frame.
  - apply frame_processEventRound.
  - frame_auto. apply frame_processRound_line.
Qed.

Lemma frame_processGameStart IG m e : untouched proj (processGameStart IG c m e).
Proof. unfold processGameStart. frame_auto. Qed.

Lemma frame_createNewGame m era hostName : untouched proj (createNewGame c m era hostName).
Proof.
  unfold createNewGame.
  repeat first [ apply frame_lookupUserName
               | untouched_with prim_frame
               | intros ?; apply Hctr
               | intros ?; reflexivity ].
Qed.

Lemma frame_processGameCountdownStart IG m e :
  untouched proj (processGameCountdownStart IG c m e).
Proof.
  unfold processGameCountdownStart.
  repeat first [apply frame_createNewGame | untouched_with prim_frame].
Qed.

(** A turn of the embed loop on an embed that does not announce a
    countdown, and on any embed when the projection does not read the
    counter of the games. *)
Lemma frame_processEmbed_quiet IG msg i embed :
  countdown_announcement embed = false -> untouched proj (processEmbed IG c msg i embed).
Proof.
  intros Hq. unfold processEmbed. rewrite Hq.
  repeat first [ apply frame_processGameStart | apply frame_processGameCancelled
               | apply frame_processGameWinner | apply frame_processRound
               | apply frame_observeUserName | untouched_with prim_frame ].
Qed.

Lemma frame_processEmbed IG msg i embed : untouched proj (processEmbed IG c msg i embed).
Proof.
  destruct (countdown_announcement embed) eqn:Hq.
  - unfold processEmbed. rewrite Hq.
    repeat first [apply frame_processGameCountdownStart | untouched_with prim_frame].
  - apply frame_processEmbed_quiet, Hq.
Qed.

Lemma frame_embedLoop_quiet IG msg i embeds :
  forallb (fun embed => negb (countdown_announcement embed)) embeds = true ->
  untouched proj (embedLoop IG c msg i embeds).
Proof.
  revert i. induction embeds as [|e embeds IH]; intros i Hq; cbn.
  - apply untouched_ret.
  - cbn in Hq. apply andb_true_iff in Hq as [Hq1 Hq2]. apply negb_true_iff in Hq1.
    apply untouched_bind; [apply frame_processEmbed_quiet, Hq1|].
    intros [|]; [apply IH, Hq2 | apply untouched_ret].
Qed.

Lemma frame_embedLoop IG msg i embeds : untouched proj (embedLoop IG c msg i embeds).
Proof.
  revert i. induction embeds as [|e embeds IH]; intros i; cbn.
  - apply untouched_ret.
  - apply untouched_bind; [apply frame_processEmbed|].
    intros [|]; [apply IH | apply untouched_ret].
Qed.

Lemma frame_processMessage_quiet IG msg :
  no_countdown msg = true -> untouched proj (processMessage IG c msg).
Proof.
  intros Hq. unfold processMessage, observe_discord_user.
  repeat first [ apply frame_observeUserName | apply frame_embedLoop_quiet
               | untouched_with prim_frame ].
  exact Hq.
Qed.

Lemma frame_processMessage IG msg : untouched proj (processMessage IG c msg).
Proof.
  unfold processMessage, observe_discord_user.
  repeat first [ apply frame_observeUserName | apply frame_embedLoop
               | untouched_with prim_frame ].
Qed.

End StateFrame.

(** ** The state machine and the messages that do not concern it *)

(** X1.  A message that is not written by the bot only feeds the identity
    resolver: however its processing ends, the state of every channel, the
    counter of the games and the stored rounds, interactions, items and
    interaction messages are what they were (its embeds are never looked
    at). *)
Theorem foreign_message_leaves_state_machine
        (unicode_IsGraphic : Z -> bool) (c : discord.Channel.t) (msg : discord.Message.t)
        (p : Processor) :
  discord.User.ID (discord.Message.Author msg) <> botAuthorID ->
  let p' := final (processMessage unicode_IsGraphic c msg p) in
  channels p' = channels p
  /\ LastKnownGameID p' = LastKnownGameID p
  /\ gorm.rounds (db p') = gorm.rounds (db p)
  /\ gorm.interactions (db p') = gorm.interactions (db p)
  /\ gorm.items (db p') = gorm.items (db p)
  /\ gorm.interaction_messages (db p') = gorm.interaction_messages (db p).
Proof.
  intros Hne p'. pose proof (untouched_state_processMessage unicode_IsGraphic c msg Hne p) as H.
  fold p' in H. cbv beta in H. injection H as H1 H2 H3 H4 H5 H6. repeat split; assumption.
Qed.

(** X2.  The state machines of the channels are independent: replaying an
    export of one channel leaves the state of every other channel as it
    was, however the replay ends. *)
Theorem other_channels_are_left_alone
        (unicode_IsGraphic : Z -> bool) (backup : discord.Backup.t)
        (c' : discord.Channel.t) (p : Processor) :
  discord.Channel.ID (discord.Backup.Channel backup) <> discord.Channel.ID c' ->
  chan (final (processExport unicode_IsGraphic backup p)) c' = chan p c'.
Proof.
  intros Hne. revert p.
  change (untouched (fun p => chan p c') (processExport unicode_IsGraphic backup)).
  unfold processExport. apply untouched_forEach. intros msg.
  apply frame_processMessage.
  - intros d p. reflexivity.
  - intros l p. reflexivity.
  - intros p. apply chan_entered.
  - intros f p. rewrite chan_setChannelState. destruct (decide _); [contradiction | reflexivity].
  - intros z p. reflexivity.
Qed.

Lemma processGameCountdownStart_counter IG c m e p :
  LastKnownGameID (final (processGameCountdownStart IG c m e p))
  = GoInt.add (LastKnownGameID p) 1.
Proof.
  unfold processGameCountdownStart, bind.
  match goal with |- context [createNewGame c m ?era ?host p] =>
    destruct (createNewGame_counter c m era host p) as [H _];
    destruct (createNewGame c m era host p) as [[] p2|e2 p2|p2|r p2]; cbn [final] in H |- *;
    try exact H
  end.
  rewrite getChannelState_eq. cbn. rewrite LastKnownGameID_entered. exact H.
Qed.

(** X3.  The counter that numbers the games moves only at a countdown
    announcement: a replay of messages none of whose embeds announces a
    countdown leaves it as it was, however the replay ends, and the handler
    of an announcement adds one to it (in Go's [int]) in every outcome,
    also when it returns an error. *)
Theorem game_counter_moves_only_at_countdowns
        (unicode_IsGraphic : Z -> bool) (backup : discord.Backup.t) (p : Processor) :
  (forallb no_countdown (discord.Backup.Messages backup) = true ->
   LastKnownGameID (final (processExport unicode_IsGraphic backup p)) = LastKnownGameID p)
  /\ forall c m e,
      LastKnownGameID (final (processGameCountdownStart unicode_IsGraphic c m e p))
      = GoInt.add (LastKnownGameID p) 1.
Proof.
  split; [|intros c m e; apply processGameCountdownStart_counter].
  unfold processExport. generalize (discord.Backup.Channel backup) as c.
  intros c Hq. revert p.
  induction (discord.Backup.Messages backup) as [|msg msgs IH]; intros p; [reflexivity|].
  cbn in Hq. apply andb_true_iff in Hq as [Hq1 Hq2].
  cbn [forEach]. unfold bind.
  pose proof (frame_processMessage_quiet LastKnownGameID c
                (fun d p => eq_refl) (fun l p => eq_refl) (LastKnownGameID_entered c)
                (fun f p => eq_refl) unicode_IsGraphic msg Hq1 p) as H.
  destruct (processMessage unicode_IsGraphic c msg p) as [[] p1|e1 p1|p1|r1 p1];
    cbn [final] in H |- *; try exact H.
  rewrite (IH Hq2). exact H.
Qed.

(** ** The switch over the embeds of a message *)

Lemma forEach_app {A : Type} (f : A -> M unit) (l1 l2 : list A) p :
  forEach f (l1 ++ l2) p = (forEach f l1 ;; forEach f l2) p.
Proof.
  revert p. induction l1 as [|x l1 IH]; intros p; cbn [app forEach]; [reflexivity|].
  unfold bind. destruct (f x p) as [[] p1|e p1|p1|r p1]; try reflexivity.
  rewrite IH. reflexivity.
Qed.

Lemma end_of_game_returns c arg what f p :
  exists p',
    guard_running c arg what
      (setChannelState c f ;; storeCurrentGame c ;;
       setChannelState c (with_LastKnownIsGameRunning false)) p = Ok tt p'
    \/ (LastKnownIsGameRunning (chan p c) = false
        /\ Game.ID (LastKnownGame (chan p c)) <> 0
        /\ p' = refused arg what c p
        /\ guard_running c arg what
             (setChannelState c f ;; storeCurrentGame c ;;
              setChannelState c (with_LastKnownIsGameRunning false)) p
           = Err (not_running what) p').
Proof.
  destruct (LastKnownIsGameRunning (chan p c)) eqn:Hrun.
  - rewrite guard_running_passes by exact Hrun. unfold bind at 1.
    change (setChannelState c f (entered c p))
      with (Ok tt (final (setChannelState c f (entered c p)))).
    cbv beta iota. unfold bind at 1.
    destruct (storeCurrentGame_total c (final (setChannelState c f (entered c p)))) as [q ->].
    eexists. left. reflexivity.
  - destruct (Z.eq_dec (Game.ID (LastKnownGame (chan p c))) 0) as [Hid|Hid].
    + rewrite guard_running_idle by assumption. eexists. left. reflexivity.
    + rewrite guard_running_refuses by assumption. eexists. right. repeat split; assumption.
Qed.

(** X4.  The error of the handler of a cancellation or of a winner
    announcement never leaves the loop over the embeds: its turn of the loop
    ends the message without an error, in the state the handler left, and
    the embeds that follow in the message are not looked at.  When a game
    has been opened on the channel but is not running, all that is left of
    the refused message is the ERROR line in the log. *)
Theorem end_of_game_errors_are_dropped
        (unicode_IsGraphic : Z -> bool) (c : discord.Channel.t) (msg : discord.Message.t)
        (embedIndex : nat) (embed : discord.Embed.t) (rest : list discord.Embed.t)
        (p : Processor) :
  (switch_case msg embedIndex embed = GameCancelled ->
   embedLoop unicode_IsGraphic c msg embedIndex (embed :: rest) p
   = Ok tt (final (processGameCancelled c msg p))
   /\ (LastKnownIsGameRunning (chan p c) = false ->
       Game.ID (LastKnownGame (chan p c)) <> 0 ->
       final (processGameCancelled c msg p)
       = refused (ArgMessage msg) "game cancellation" c p))
  /\ (switch_case msg embedIndex embed = GameWinner ->
      embedLoop unicode_IsGraphic c msg embedIndex (embed :: rest) p
      = Ok tt (final (processGameWinner c msg p))
      /\ (LastKnownIsGameRunning (chan p c) = false ->
          Game.ID (LastKnownGame (chan p c)) <> 0 ->
          final (processGameWinner c msg p)
          = refused (ArgMessage msg) "game winner data" c p)).
Proof.
  split; intros Hcase; cbn [embedLoop]; unfold bind at 1;
    rewrite processEmbed_switch, Hcase; split.
  - unfold bind, dropError, processGameCancelled.
    match goal with |- context [guard_running c ?arg ?what (setChannelState c ?f ;; _) p] =>
      destruct (end_of_game_returns c arg what f p) as [p' [H|(_ & _ & _ & H)]] end;
      rewrite H; reflexivity.
  - intros Hrun Hid. unfold processGameCancelled.
    rewrite guard_running_refuses by assumption. reflexivity.
  - unfold bind, dropError, processGameWinner.
    match goal with |- context [guard_running c ?arg ?what (setChannelState c ?f ;; _) p] =>
      destruct (end_of_game_returns c arg what f p) as [p' [H|(_ & _ & _ & H)]] end;
      rewrite H; reflexivity.
  - intros Hrun Hid. unfold processGameWinner.
    rewrite guard_running_refuses by assumption. reflexivity.
Qed.

(** X5.  An embed of the "balance" or "backpacks" kind on a message
    that carries no interaction makes the replay panic: the check for the
    interaction guards the third alternative of the case only, and the case
    then reads the user of the interaction.  A message of the bot with such
    an embed first, and with no mention and no reaction, takes the whole
    replay of its export down. *)
Theorem user_command_without_interaction_panics
        (unicode_IsGraphic : Z -> bool) (c : discord.Channel.t) (msg : discord.Message.t)
        (embedIndex : nat) (embed : discord.Embed.t) (p : Processor) :
  switch_case msg embedIndex embed = UserCommand ->
  discord.Message.Interaction msg = None ->
  author_contains embed "'s balance" || author_contains embed "'s backpacks" = true
  /\ processEmbed unicode_IsGraphic c msg embedIndex embed p
     = Panic "invalid memory address or nil pointer dereference" p
  /\ (forall rest before after p0,
         embedIndex = 0%nat ->
         discord.User.ID (discord.Message.Author msg) = botAuthorID ->
         discord.Message.Mentions msg = [] ->
         discord.Message.Reactions msg = [] ->
         discord.Message.Embeds msg = embed :: rest ->
         forEach (processMessage unicode_IsGraphic c) before p0 = Ok tt p ->
         processExport unicode_IsGraphic
           {| discord.Backup.Channel := c;
              discord.Backup.Messages := before ++ msg :: after |} p0
         = Panic "invalid memory address or nil pointer dereference" p).
Proof.
  intros Hcase Hnone. split; [|split].
  - unfold switch_case in Hcase. rewrite Hnone in Hcase.
    repeat match type of Hcase with
           | (if ?b then _ else _) = _ => destruct b eqn:?; try discriminate Hcase
           end.
    match goal with H : _ || _ || _ = true |- _ => rename H into Hor end.
    rewrite andb_false_r, orb_false_r in Hor. exact Hor.
  - rewrite processEmbed_switch, Hcase, Hnone. reflexivity.
  - intros rest before after p0 -> Hbot Hm Hr He Hbefore.
    unfold processExport. cbn [discord.Backup.Messages discord.Backup.Channel].
    rewrite forEach_app. unfold bind at 1. rewrite Hbefore. cbn [forEach].
    unfold bind at 1. unfold processMessage. rewrite Hnone, Hm, Hr, He, Hbot.
    rewrite String.eqb_refl. cbn [negb forEach]. unfold bind at 1 2 3. cbn [ret].
    cbn [embedLoop]. unfold bind at 1.
    rewrite processEmbed_switch, Hcase, Hnone. reflexivity.
Qed.

(** ** The errors a replay can return *)

Lemma errs_in_mapError {A : Type} (P Q : error -> Prop) f (m : M A) :
  errs_in Q m -> (forall e, Q e -> P (f e)) -> errs_in P (mapError f m).
Proof.
  intros Hm Hf p e p' H. unfold mapError in H.
  destruct (m p) as [a p1|e1 p1|p1|r p1] eqn:E; try discriminate H.
  injection H as <- _. apply Hf. exact (Hm p e1 p1 E).
Qed.

Lemma errs_in_dropError (P : error -> Prop) (m : M unit) : errs_in P (dropError m).
Proof.
  intros p e p' H. unfold dropError in H. destruct (m p); discriminate H.
Qed.

Ltac handler_errs :=
  repeat first [ errs_step | apply errs_in_dropError ];
  try solve [constructor].

Lemma handler_lookupUserName m name : errs_in handler_error (lookupUserName m name).
Proof. unfold lookupUserName. handler_errs. Qed.

Lemma handler_extractUsers_fill m l : errs_in handler_error (extractUsers_fill m l).
Proof.
  induction l as [|x l IH]; cbn; handler_errs; [apply handler_lookupUserName | exact IH].
Qed.

Lemma handler_extractUsers m msg : errs_in handler_error (extractUsers m msg).
Proof. unfold extractUsers. handler_errs. apply handler_extractUsers_fill. Qed.

Lemma handler_extractItems_loop matches msg items :
  errs_in handler_error (extractItems_loop matches msg items).
Proof.
  revert msg items. induction matches as [|x l IH]; intros msg items; cbn.
  - apply errs_in_ret.
  - apply errs_in_bind; [unfold lookupItem, storeItem; handler_errs | intros ?; apply IH].
Qed.

Lemma handler_extractItems msg : errs_in handler_error (extractItems msg).
Proof.
  unfold extractItems. errs_step; [handler_errs | apply handler_extractItems_loop].
Qed.

Lemma handler_storeCurrentGame c : errs_in handler_error (storeCurrentGame c).
Proof.
  apply errs_in_total. intros q. destruct (storeCurrentGame_total c q) as [q' E].
  eexists; eexists; exact E.
Qed.

Lemma handler_lookupInteractionMessage text event :
  errs_in handler_error (lookupInteractionMessage text event).
Proof. unfold lookupInteractionMessage, storeInteractionMessage. handler_errs. Qed.

Lemma handler_storeInteraction i : errs_in handler_error (storeInteraction i).
Proof. unfold storeInteraction. handler_errs. Qed.

Lemma handler_storeCurrentRound c : errs_in handler_error (storeCurrentRound c).
Proof. unfold storeCurrentRound. handler_errs. Qed.

Ltac handler_auto :=
  repeat first
    [ apply handler_extractUsers | apply handler_extractItems
    | apply handler_lookupInteractionMessage | apply handler_storeInteraction
    | apply handler_storeCurrentRound | apply handler_storeCurrentGame
    | apply handler_lookupUserName | errs_step ];
  try solve [constructor].

Lemma handler_processRound_line c m line : errs_in handler_error (processRound_line c m line).
Proof. unfold processRound_line. handler_auto. Qed.

Lemma handler_processEventRound IG c m e :
  errs_in handler_error (processEventRound IG c m e).
Proof. unfold processEventRound, guard_running, createNewRound. handler_auto. Qed.

Lemma handler_processRound IG c m e : errs_in handler_error (processRound IG c m e).
Proof.
  unfold processRound, guard_running, createNewRound.
  repeat first [ apply handler_processEventRound | apply handler_processRound_line
               | apply handler_storeCurrentRound | errs_step ];
    try solve [constructor].
Qed.

Lemma handler_processGameStart IG c m e : errs_in handler_error (processGameStart IG c m e).
Proof.
  unfold processGameStart. handler_auto.
Qed.

Lemma handler_processGameCountdownStart IG c m e :
  errs_in handler_error (processGameCountdownStart IG c m e).
Proof.
  unfold processGameCountdownStart, createNewGame.
  repeat first [ apply handler_lookupUserName | errs_step | total_call ].

Qed.

Lemma observe_errs m id name :
  errs_in (fun e => e = errors_New "empty username") (observeUserName m id name).
Proof.
  unfold observeUserName, lookupUserID, storeUser, observeUserName_record, fixupGames,
    fixupMentions.
  repeat first [errs_step | intros ? ? ? ?; discriminate]; reflexivity.
Qed.

Lemma export_observeUserName m id name : errs_in export_error (observeUserName m id name).
Proof. intros p e p' H. rewrite (observe_errs m id name p e p' H). constructor. Qed.

Lemma export_processEmbed IG c msg i embed :
  errs_in export_error (processEmbed IG c msg i embed).
Proof.
  rewrite processEmbed_switch. destruct (switch_case msg i embed);
    repeat first
      [ apply export_observeUserName
      | apply errs_in_dropError
      | eapply errs_in_mapError;
        [ first [ apply handler_processGameCountdownStart | apply handler_processGameStart
                | apply handler_processRound ]
        | intros ? ?; constructor; assumption ]
      | errs_step ].
Qed.

Lemma export_embedLoop IG c msg i embeds :
  errs_in export_error (embedLoop IG c msg i embeds).
Proof.
  revert i. induction embeds as [|e embeds IH]; intros i; cbn.
  - apply errs_in_ret.
  - apply errs_in_bind; [apply export_processEmbed|].
    intros [|]; [apply IH | apply errs_in_ret].
Qed.

Lemma export_processMessage IG c msg : errs_in export_error (processMessage IG c msg).
Proof.
  unfold processMessage, observe_discord_user.
  repeat first [apply export_observeUserName | apply export_embedLoop | errs_step].
Qed.

(** X6.  The errors a replay of an export can return: the error of an
    observation with an empty user ID, as it is, or the error of the
    handler of a countdown announcement, a session start or a round, under
    the ID of its message: an empty user name, a number that does not parse,
    an error of the store, more than one item in a narrative, or round data
    (event round data) seen when no game is considered running.  The error
    of a winner announcement or of a cancellation seen when no game is
    considered running is not among them. *)
Theorem processExport_errors
        (unicode_IsGraphic : Z -> bool) (backup : discord.Backup.t) (p : Processor) :
  (forall e p', processExport unicode_IsGraphic backup p = Err e p' -> export_error e)
  /\ (forall msg, ~ export_error (wrapError msg (not_running "game winner data"))
                  /\ ~ export_error (wrapError msg (not_running "game cancellation"))
                  /\ ~ export_error (not_running "game winner data")
                  /\ ~ export_error (not_running "game cancellation")).
Proof.
  split.
  - intros e p'. apply (errs_in_forEach export_error).
    intros msg. apply export_processMessage.
  - intros msg. repeat split; intros H; inversion H as [|msg' e' He' Heq];
      inversion He'.
Qed.

(** ** The other guarded handlers *)

Lemma processGameCancelled_running c m p e' p' :
  LastKnownIsGameRunning (chan p c) = true ->
  processGameCancelled c m p = Err e' p' -> other_error e'.
Proof.
  intros Hrun. unfold processGameCancelled. rewrite guard_running_passes by exact Hrun.
  match goal with
  | |- ?b ?q = Err ?e _ -> other_error ?e =>
      assert (errs_in other_error b) as Hb; [| intros H; exact (Hb _ _ _ H)]
  end.
  errs_auto. apply errs_in_total. intros q. destruct (storeCurrentGame_total c q) as [q' E].
  eexists; eexists; exact E.
Qed.

(** X7.  The handlers of a cancellation, of an event round and of a game
    summary open with the same check as those of a round and of a winner:
    while the channel is not running the message is ignored with a warning
    if no game has been opened on the channel yet, and refused with the
    [InconsistentState] error of its kind, after an ERROR line, if one has;
    a cancellation or an event round returns that error in no other
    situation, and a game summary on a running channel does nothing. *)
Theorem cancellation_event_or_summary_without_running_game
        (unicode_IsGraphic : Z -> bool) (c : discord.Channel.t) (m : discord.Message.t)
        (e : discord.Embed.t) (p : Processor) :
  (LastKnownIsGameRunning (chan p c) = false ->
   Game.ID (LastKnownGame (chan p c)) = 0 ->
   processGameCancelled c m p = Ok tt (warned (ArgMessage m) c p)
   /\ processEventRound unicode_IsGraphic c m e p = Ok tt (warned (ArgEmbed e) c p)
   /\ processGameSummary c e p = Ok tt (warned (ArgEmbed e) c p))
  /\ (LastKnownIsGameRunning (chan p c) = false ->
      Game.ID (LastKnownGame (chan p c)) <> 0 ->
      processGameCancelled c m p
      = Err (not_running "game cancellation") (refused (ArgMessage m) "game cancellation" c p)
      /\ processEventRound unicode_IsGraphic c m e p
         = Err (not_running "event round data") (refused (ArgEmbed e) "event round data" c p)
      /\ processGameSummary c e p
         = Err (not_running "game summary data")
               (refused (ArgEmbed e) "game summary data" c p))
  /\ (LastKnownIsGameRunning (chan p c) = true ->
      processGameSummary c e p = Ok tt (entered c p)
      /\ forall err p',
          processGameCancelled c m p = Err err p'
          \/ processEventRound unicode_IsGraphic c m e p = Err err p' ->
          ~ InconsistentState err).
Proof.
  split; [|split].
  - intros Hrun Hid. unfold processGameCancelled, processEventRound, processGameSummary.
    rewrite !guard_running_idle by assumption. repeat split.
  - intros Hrun Hid. unfold processGameCancelled, processEventRound, processGameSummary.
    rewrite !guard_running_refuses by assumption. repeat split.
  - intros Hrun. split.
    + unfold processGameSummary. rewrite guard_running_passes by exact Hrun. reflexivity.
    + intros err p' [H|H].
      * exact (processGameCancelled_running c m p err p' Hrun H).
      * exact (processEventRound_running unicode_IsGraphic c m e p err p' Hrun H).
Qed.

(** ** The life of a game *)

(** X8.  A session that is cancelled before it starts leaves no row in
    the store.  The handler of the countdown announcement writes nothing to
    the store; the cancellation that follows finds a game opened but not
    running, so it is refused, and the loop over the embeds drops the error:
    the store is as it was before the announcement and the channel stays as
    the announcement left it. *)
Theorem cancelled_before_start_is_not_stored
        (unicode_IsGraphic : Z -> bool) (c : discord.Channel.t)
        (m : discord.Message.t) (e : discord.Embed.t)
        (m' : discord.Message.t) (embedIndex : nat) (embed : discord.Embed.t)
        (p p1 : Processor) :
  processGameCountdownStart unicode_IsGraphic c m e p = Ok tt p1 ->
  GoInt.add (LastKnownGameID p) 1 <> 0 ->
  switch_case m' embedIndex embed = GameCancelled ->
  let p2 := refused (ArgMessage m') "game cancellation" c p1 in
  processGameCancelled c m' p1 = Err (not_running "game cancellation") p2
  /\ processEmbed unicode_IsGraphic c m' embedIndex embed p1 = Ok BreakEmbedLoop p2
  /\ db p2 = db p
  /\ chan p2 c = chan p1 c
  /\ LastKnownIsGameRunning (chan p2 c) = false.
Proof.
  intros Hcd Hg Hcase p2.
  destruct (processGameCountdownStart_spec _ c m e p p1 Hcd) as (Hv & Hrun & _ & Hdb).
  unfold round_view in Hv. injection Hv as Hid _ _.
  assert (processGameCancelled c m' p1 = Err (not_running "game cancellation") p2) as Hc.
  { unfold processGameCancelled. apply guard_running_refuses; [exact Hrun|].
    rewrite Hid. exact Hg. }
  assert (chan p2 c = chan p1 c) as Hch.
  { unfold p2, refused, chan. cbn. apply chan_entered. }
  split; [exact Hc|]. split; [|split; [|split]].
  - rewrite processEmbed_switch, Hcase. unfold bind, dropError. rewrite Hc. reflexivity.
  - unfold p2, refused. cbn. rewrite db_entered. exact Hdb.
  - exact Hch.
  - rewrite Hch. exact Hrun.
Qed.

Lemma bind_Ok {A C : Type} (m : M A) (k : A -> M C) p b p' :
  bind m k p = Ok b p' -> exists a p1, m p = Ok a p1 /\ k a p1 = Ok b p'.
Proof.
  unfold bind. destruct (m p) as [a p1|e p1|p1|r p1]; try discriminate.
  intros H. exists a, p1. split; [reflexivity | exact H].
Qed.

Lemma storeCurrentGame_eq c p :
  storeCurrentGame c p
  = Ok tt (final (setChannelState c
                    (with_LastKnownGame (fst (gorm.Save_game (LastKnownGame (chan p c)) (db p))))
                    (with_db (snd (gorm.Save_game (LastKnownGame (chan p c)) (db p)))
                             (entered c p)))).
Proof.
  unfold storeCurrentGame, bind. rewrite getChannelState_eq. unfold getDB.
  rewrite db_entered. reflexivity.
Qed.

Lemma first_where_upsert {A : Type} (key : A -> Z) (row : A) (tbl : list A) :
  gorm.first_where (fun x => bool_decide (key x = key row)) (gorm.upsert key row tbl)
  = Some row.
Proof.
  unfold gorm.first_where. induction tbl as [|x tbl IH]; cbn.
  - rewrite bool_decide_eq_true_2 by reflexivity. reflexivity.
  - destruct (decide (key x = key row)) as [E|E]; cbn.
    + rewrite bool_decide_eq_true_2 by reflexivity. reflexivity.
    + rewrite bool_decide_eq_false_2 by exact E. exact IH.
Qed.

Lemma Save_game_stored g d :
  Game.ID (fst (gorm.Save_game g d)) <> 0
  /\ stored_game (Game.ID (fst (gorm.Save_game g d))) (snd (gorm.Save_game g d))
     = Some (fst (gorm.Save_game g d))
  /\ (Game.ID g <> 0 -> fst (gorm.Save_game g d) = g).
Proof.
  unfold gorm.Save_game, stored_game. cbn [fst snd gorm.games gorm.with_games].
  split; [|split].
  - destruct (Z.eqb_spec (Game.ID g) 0) as [E|E]; [|exact E].
    cbn. pose proof (next_id_positive (Game.ID <$> gorm.games d)). lia.
  - apply (first_where_upsert Game.ID).
  - intros Hne. destruct (Z.eqb_spec (Game.ID g) 0) as [E|E]; [contradiction | reflexivity].
Qed.

Section Lifecycle.
Variable unicode_IsGraphic : Z -> bool.
Variable c : discord.Channel.t.

Lemma started_setChannelState ts te f :
  (forall cs, LastKnownIsGameRunning (f cs) = LastKnownIsGameRunning cs
              /\ Game.StartTime (LastKnownGame (f cs)) = Game.StartTime (LastKnownGame cs)
              /\ Game.EndTime (LastKnownGame (f cs)) = Game.EndTime (LastKnownGame cs)) ->
  preserves (started c ts te) (setChannelState c f).
Proof.
  intros Hf p (H1 & H2 & H3). unfold started. rewrite chan_setChannelState.
  destruct (decide _); [|contradiction]. destruct (Hf (chan p c)) as (-> & -> & ->).
  repeat split; assumption.
Qed.

Lemma processGameStart_spec m e p p1 :
  processGameStart unicode_IsGraphic c m e p = Ok tt p1 ->
  exists q,
    started c (discord.Message.Timestamp m) (Game.EndTime (LastKnownGame (chan p c))) q
    /\ storeCurrentGame c q = Ok tt p1.
Proof.
  unfold processGameStart. intros H.
  set (ts := discord.Message.Timestamp m) in *.
  set (te := Game.EndTime (LastKnownGame (chan p c))).
  apply bind_Ok in H as (cs & q0 & H0 & H). rewrite getChannelState_eq in H0.
  injection H0 as _ <-.
  apply bind_Ok in H as ([] & q1 & H1 & H). injection H1 as <-.
  apply bind_Ok in H as ([] & q2 & H2 & H). injection H2 as <-.
  match type of H with context [with_channels ?ch2 (with_channels ?ch1 (entered c p))] =>
    set (q2 := with_channels ch2 (with_channels ch1 (entered c p))) in * end.
  assert (started c ts te q2) as Hq2.
  { unfold started, q2, chan. cbn. rewrite !lookup_insert_eq. cbn.
    fold (chan (entered c p) c). rewrite chan_entered. repeat split; reflexivity. }
  apply bind_Ok in H as ([] & q3 & H3 & H).
  assert (started c ts te q3) as Hq3.
  { match type of H3 with ?prize q2 = _ =>
      assert (preserves (started c ts te) prize) as Hp end.
    { repeat keeps_step. apply started_setChannelState. intros cs'. repeat split; reflexivity. }
    specialize (Hp q2 Hq2). rewrite H3 in Hp. exact Hp. }
  apply bind_Ok in H as ([] & q4 & H4 & H).
  assert (started c ts te q4) as Hq4.
  { match type of H4 with ?xp q3 = _ =>
      assert (preserves (started c ts te) xp) as Hp end.
    { repeat keeps_step. apply started_setChannelState. intros cs'. repeat split; reflexivity. }
    specialize (Hp q3 Hq3). rewrite H4 in Hp. exact Hp. }
  exists q4. split; assumption.
Qed.

Lemma storeCurrentGame_chan q :
  chan (final (storeCurrentGame c q)) c
  = with_LastKnownGame (fst (gorm.Save_game (LastKnownGame (chan q c)) (db q))) (chan q c)
  /\ db (final (storeCurrentGame c q))
     = snd (gorm.Save_game (LastKnownGame (chan q c)) (db q)).
Proof.
  rewrite storeCurrentGame_eq. cbn [final]. rewrite chan_setChannelState.
  destruct (decide _); [|contradiction]. split; [|reflexivity].
  change (chan (with_db ?d ?q') c) with (chan q' c). rewrite chan_entered. reflexivity.
Qed.

(** What the handlers of a winner announcement and of a cancellation do
    to a running channel; [f] is what they write to the game. *)
Lemma end_of_game_spec arg what (f : Game.t -> Game.t) p :
  LastKnownIsGameRunning (chan p c) = true ->
  Game.ID (LastKnownGame (chan p c)) <> 0 ->
  (forall g, Game.ID (f g) = Game.ID g) ->
  exists p2,
    guard_running c arg what
      (setChannelState c (fun cs => with_LastKnownGame (f (LastKnownGame cs)) cs) ;;
       storeCurrentGame c ;;
       setChannelState c (with_LastKnownIsGameRunning false)) p = Ok tt p2
    /\ LastKnownIsGameRunning (chan p2 c) = false
    /\ LastKnownGame (chan p2 c) = f (LastKnownGame (chan p c))
    /\ stored_game (Game.ID (LastKnownGame (chan p c))) (db p2)
       = Some (f (LastKnownGame (chan p c))).
Proof.
  intros Hrun Hid Hf. rewrite guard_running_passes by exact Hrun.
  unfold bind at 1.
  match goal with |- context [setChannelState c ?f1 (entered c p)] =>
    change (setChannelState c f1 (entered c p))
      with (Ok tt (final (setChannelState c f1 (entered c p))));
    set (q1 := final (setChannelState c f1 (entered c p))) end.
  cbv beta iota. unfold bind at 1.
  assert (chan q1 c = with_LastKnownGame (f (LastKnownGame (chan p c))) (chan p c)) as Hq1.
  { unfold q1. rewrite chan_setChannelState. destruct (decide _); [|contradiction].
    rewrite chan_entered. reflexivity. }
  assert (db q1 = db p) as Hd1 by (unfold q1; cbn; apply db_entered).
  destruct (storeCurrentGame_chan q1) as [Hc2 Hd2].
  rewrite storeCurrentGame_eq in Hc2, Hd2 |- *. cbn [final] in Hc2, Hd2. cbv beta iota.
  match goal with |- context [setChannelState c ?f2 ?q] =>
    change (setChannelState c f2 q) with (Ok tt (final (setChannelState c f2 q)));
    set (q2 := q) in *; set (q3 := final (setChannelState c f2 q2)) end.
  exists q3. split; [reflexivity|].
  assert (chan q3 c = with_LastKnownIsGameRunning false (chan q2 c)) as Hq3.
  { unfold q3. rewrite chan_setChannelState. destruct (decide _); [reflexivity|contradiction]. }
  rewrite Hq1 in Hc2, Hd2. cbn [LastKnownGame with_LastKnownGame] in Hc2, Hd2.
  destruct (Save_game_stored (f (LastKnownGame (chan p c))) (db q1)) as (_ & Hst & Hsame).
  rewrite (Hsame ltac:(rewrite Hf; exact Hid)) in Hst, Hc2. rewrite Hf in Hst.
  split; [rewrite Hq3; reflexivity|]. split.
  - rewrite Hq3, Hc2. reflexivity.
  - unfold q3. cbn [db final setChannelState with_channels]. rewrite Hd2. exact Hst.
Qed.

End Lifecycle.

(** X9.  A session start that is handled without an error leaves the
    channel running and the game in the store, under a non-zero ID and
    with the time of the message as its start.  A winner announcement that
    follows writes the time of its message to the game as its end, a
    cancellation that time and the cancelled flag; either saves the game
    under its ID again and leaves the channel not running. *)
Theorem started_game_is_stored_and_ended
        (unicode_IsGraphic : Z -> bool) (c : discord.Channel.t)
        (m1 : discord.Message.t) (e : discord.Embed.t) (m2 : discord.Message.t)
        (p p1 : Processor) :
  processGameStart unicode_IsGraphic c m1 e p = Ok tt p1 ->
  let g := LastKnownGame (chan p1 c) in
  let ended := Game.with_EndTime (Some (discord.Message.Timestamp m2)) g in
  LastKnownIsGameRunning (chan p1 c) = true
  /\ Game.StartTime g = Some (discord.Message.Timestamp m1)
  /\ Game.ID g <> 0
  /\ stored_game (Game.ID g) (db p1) = Some g
  /\ (exists p2,
         processGameWinner c m2 p1 = Ok tt p2
         /\ LastKnownIsGameRunning (chan p2 c) = false
         /\ stored_game (Game.ID g) (db p2) = Some ended)
  /\ (exists p2,
         processGameCancelled c m2 p1 = Ok tt p2
         /\ LastKnownIsGameRunning (chan p2 c) = false
         /\ stored_game (Game.ID g) (db p2) = Some (Game.with_Cancelled true ended)).
Proof.
  intros H g ended.
  destruct (processGameStart_spec unicode_IsGraphic c m1 e p p1 H)
    as (q & (Hrun & Hst & _) & Hq).
  destruct (storeCurrentGame_chan c q) as [Hc Hd]. rewrite Hq in Hc, Hd. cbn [final] in Hc, Hd.
  destruct (Save_game_stored (LastKnownGame (chan q c)) (db q)) as (Hid & Hstored & _).
  assert (g = fst (gorm.Save_game (LastKnownGame (chan q c)) (db q))) as Hg.
  { unfold g. rewrite Hc. reflexivity. }
  assert (LastKnownIsGameRunning (chan p1 c) = true) as Hrun1.
  { rewrite Hc. exact Hrun. }
  assert (Game.ID g <> 0) as Hid1 by (rewrite Hg; exact Hid).
  split; [exact Hrun1|]. split; [|split; [exact Hid1|split; [|split]]].
  - rewrite Hg. unfold gorm.Save_game. cbn [fst].
    destruct (Game.ID (LastKnownGame (chan q c)) =? 0); exact Hst.
  - rewrite Hg, Hd. exact Hstored.
  - destruct (end_of_game_spec c (ArgMessage m2) "game winner data"
                (Game.with_EndTime (Some (discord.Message.Timestamp m2))) p1 Hrun1 Hid1
                ltac:(reflexivity)) as (p2 & H1 & H2 & _ & H4).
    exists p2. split; [exact H1|]. split; [exact H2 | exact H4].
  - destruct (end_of_game_spec c (ArgMessage m2) "game cancellation"
                (fun g => Game.with_Cancelled true
                            (Game.with_EndTime (Some (discord.Message.Timestamp m2)) g))
                p1 Hrun1 Hid1 ltac:(reflexivity)) as (p2 & H1 & H2 & _ & H4).
    exists p2. split; [exact H1|]. split; [exact H2 | exact H4].
Qed.

(** ** The identity resolver: observing and looking up *)

Lemma first_where_present id (users : list User.t) :
  id ∈ User.ID <$> users ->
  gorm.first_where (fun u => bool_decide (User.ID u = id)) users = Some {| User.ID := id |}.
Proof.
  intros Hin. destruct (gorm.first_where _ users) as [u|] eqn:E.
  - apply List.find_some in E as [_ E]. apply bool_decide_eq_true in E.
    destruct u as [uid]. cbn in E. subst uid. reflexivity.
  - apply first_where_user in E. contradiction.
Qed.

Lemma ensure_user_present id d :
  id ∈ User.ID <$> gorm.users d -> ensure_user id d = d.
Proof. intros Hin. unfold ensure_user. rewrite (first_where_present id _ Hin). reflexivity. Qed.

Lemma observed_users m id name d :
  gorm.users (observed m id name d) = gorm.users (ensure_user id d).
Proof.
  unfold observed, backfill_mentions, backfill_games.
  rewrite (foldl_proj gorm.users) by (intros; reflexivity).
  rewrite (foldl_proj gorm.users) by (intros; reflexivity).
  reflexivity.
Qed.

Lemma last_where_snoc {A : Type} (P : A -> bool) (l : list A) (x : A) :
  P x = true -> gorm.last_where P (l ++ [x]) = Some x.
Proof. intros H. unfold gorm.last_where. rewrite rev_unit. cbn. rewrite H. reflexivity. Qed.

(** The processor an observation that returns nil leaves: the user is
    known to the store and carries the observed name as its last one; if the
    observation was new, it is the last observation of the store. *)
Lemma observeUserName_Ok m id name p p1 :
  observeUserName m id name p = Ok tt p1 ->
  id <> ""
  /\ id ∈ User.ID <$> gorm.users (db p1)
  /\ last_name_of id (db p1) = Some name
  /\ (last_name_of id (db p) <> Some name ->
      gorm.user_name_observations (db p1)
      = gorm.user_name_observations (db p) ++ [stored_observation m id name (db p)]).
Proof.
  intros H. destruct (decide (id = "")) as [->|Hid].
  { unfold observeUserName, bind in H. rewrite lookupUserID_empty in H. discriminate H. }
  split; [exact Hid|].
  destruct (decide (last_name_of id (db p) = Some name)) as [E|E].
  - rewrite (observeUserName_known m id name p Hid E) in H. injection H as <-.
    cbn [db with_db]. split; [apply ensure_user_has|]. split; [|contradiction].
    unfold last_name_of in *. rewrite ensure_user_observations. exact E.
  - assert (db p1 = observed m id name (db p)) as Hdb.
    { rewrite <- (observeUserName_new_final m id name p Hid E). rewrite H. reflexivity. }
    rewrite Hdb. split; [rewrite observed_users; apply ensure_user_has|].
    split; [|intros _; apply observed_observations].
    unfold last_name_of. rewrite observed_observations.
    rewrite last_where_snoc by (cbn; apply bool_decide_eq_true_2; reflexivity).
    reflexivity.
Qed.

(** X10.  Observing is idempotent: once an observation of a name for a
    user has returned nil, the same observation (from whatever message)
    returns nil and leaves the processor, its store and its log included,
    exactly as it is; this needs no assumption on the store. *)
Theorem observing_twice_is_observing_once
        (m m' : discord.Message.t) (id name : string) (p p1 : Processor) :
  observeUserName m id name p = Ok tt p1 ->
  observeUserName m' id name p1 = Ok tt p1.
Proof.
  intros H. destruct (observeUserName_Ok m id name p p1 H) as (Hid & Hin & Hlast & _).
  rewrite (observeUserName_known m' id name p1 Hid Hlast).
  rewrite (ensure_user_present id (db p1) Hin), with_db_same. reflexivity.
Qed.

(** X11.  An observed name can be looked up: after an observation of a
    non-empty name has returned nil, [lookupUserName] resolves the name to a
    user and changes nothing, and if the observation was a new one (the
    user's last name was another one, or none) it resolves the name to that
    very user, whoever carried the name before: the last observation
    wins. *)
Theorem observed_name_resolves
        (m m' : discord.Message.t) (id name : string) (p p1 : Processor) :
  observeUserName m id name p = Ok tt p1 ->
  name <> "" ->
  (exists u, lookupUserName m' name p1 = Ok (Some u) p1)
  /\ (last_name_of id (db p) <> Some name ->
      lookupUserName m' name p1 = Ok (Some {| User.ID := id |}) p1).
Proof.
  intros H Hname. destruct (observeUserName_Ok m id name p p1 H) as (Hid & Hin & Hlast & Hnew).
  assert (forall o, gorm.last_where (fun o => bool_decide (UserNameObservation.Name o = name))
                                    (gorm.user_name_observations (db p1)) = Some o ->
                    lookupUserName m' name p1 = Ok (Some (preload_User (db p1) o)) p1) as Hl.
  { intros o Ho. unfold lookupUserName. destruct name as [|a name]; [contradiction|].
    cbn [String.length Nat.eqb]. unfold bind, getDB. rewrite Ho. reflexivity. }
  split.
  - unfold last_name_of in Hlast.
    destruct (gorm.last_where _ (gorm.user_name_observations (db p1))) as [o|] eqn:Eo;
      [|discriminate Hlast].
    cbn in Hlast. injection Hlast as Hn.
    apply List.find_some in Eo as [Hino _].
    destruct (gorm.last_where (fun o => bool_decide (UserNameObservation.Name o = name))
                              (gorm.user_name_observations (db p1))) as [o'|] eqn:Eo'.
    + eexists. apply Hl. reflexivity.
    + exfalso. pose proof (List.find_none _ _ Eo' o Hino) as Hf. cbn in Hf.
      rewrite bool_decide_eq_true_2 in Hf by exact Hn. discriminate Hf.
  - intros Hfresh. specialize (Hnew Hfresh).
    rewrite (Hl (stored_observation m id name (db p))).
    + unfold preload_User. cbn [UserNameObservation.UserID stored_observation].
      rewrite (first_where_present id _ Hin). reflexivity.
    + rewrite Hnew. apply last_where_snoc. cbn. apply bool_decide_eq_true_2. reflexivity.
Qed.

(** ** Get-or-create lookups *)

Lemma find_app_none {A : Type} (P : A -> bool) (l1 l2 : list A) :
  List.find P l1 = None -> List.find P (l1 ++ l2) = List.find P l2.
Proof.
  induction l1 as [|x l1 IH]; cbn; [reflexivity|].
  destruct (P x); [discriminate | exact IH].
Qed.

Lemma first_where_message_none text event tbl :
  gorm.first_where
    (fun i => bool_decide (InteractionMessage.Text i = text)
              && bool_decide (InteractionMessage.Event i = event)) tbl = None
  <-> (text, event) ∉ message_key <$> tbl.
Proof.
  unfold gorm.first_where. split.
  - intros H Hin. apply list_elem_of_fmap in Hin as (x & Hx & Hin).
    apply list_elem_of_In in Hin. pose proof (List.find_none _ _ H x Hin) as Hf.
    unfold message_key in Hx. injection Hx as -> ->. cbn in Hf.
    rewrite !bool_decide_eq_true_2 in Hf by reflexivity. discriminate Hf.
  - intros Hnot. destruct (List.find _ tbl) as [x|] eqn:E; [|reflexivity].
    exfalso. apply List.find_some in E as [Hin E]. apply andb_true_iff in E as [E1 E2].
    apply bool_decide_eq_true in E1, E2. apply Hnot.
    replace (text, event) with (message_key x) by (unfold message_key; congruence).
    apply list_elem_of_fmap_2, list_elem_of_In. exact Hin.
Qed.

Lemma Save_message_conflict text event d :
  gorm.Save_message {| InteractionMessage.ID := 0; InteractionMessage.Text := text;
                       InteractionMessage.Event := event |} d
  = inr (gorm.ErrConstraint "interaction_message_text_idx")
  <-> text ∈ InteractionMessage.Text <$> gorm.interaction_messages d.
Proof.
  split.
  - intros H. unfold gorm.Save_message in H.
    cbn [InteractionMessage.ID InteractionMessage.with_ID InteractionMessage.Text Z.eqb] in H.
    destruct (existsb _ (gorm.interaction_messages d)) eqn:E; [|discriminate H].
    apply existsb_exists in E as (x & Hin & E). apply andb_true_iff in E as [E _].
    apply bool_decide_eq_true in E. rewrite <- E.
    apply list_elem_of_fmap_2, list_elem_of_In. exact Hin.
  - intros Hin.
    destruct (gorm.Save_message _ d) as [[i d']|[index]] eqn:E.
    + apply Save_message_new in E as (_ & _ & Hfresh). contradiction.
    + unfold gorm.Save_message in E. destruct (existsb _ _); [|discriminate E].
      injection E as <-. reflexivity.
Qed.

(** X12.  [lookupInteractionMessage] gets or creates the message of a
    text and an event: the message it returns carries both, and looking the
    same text and event up again returns the same message, under the same
    ID, and changes nothing.  The messages are looked up by text and event,
    but the store keeps their texts unique: when the text is stored under
    another event only, the lookup fails with the error of that index and
    changes nothing, and it fails in no other case. *)
Theorem lookupInteractionMessage_gets_or_creates (text event : string) (p : Processor) :
  let tbl := gorm.interaction_messages (db p) in
  (forall i p',
      lookupInteractionMessage text event p = Ok i p' ->
      InteractionMessage.Text i = text
      /\ InteractionMessage.Event i = event
      /\ i ∈ gorm.interaction_messages (db p')
      /\ lookupInteractionMessage text event p' = Ok i p'
      /\ (((text, event) ∈ message_key <$> tbl) -> p' = p))
  /\ (((text, event) ∉ message_key <$> tbl) ->
      (text ∈ InteractionMessage.Text <$> tbl) ->
      lookupInteractionMessage text event p
      = Err (ErrStore (gorm.ErrConstraint "interaction_message_text_idx")) p)
  /\ (forall e p',
         lookupInteractionMessage text event p = Err e p' ->
         ((text, event) ∉ message_key <$> tbl)
         /\ (text ∈ InteractionMessage.Text <$> tbl)).
Proof.
  intros tbl. unfold lookupInteractionMessage, storeInteractionMessage, bind, getDB.
  fold tbl.
  destruct (gorm.first_where _ tbl) as [x|] eqn:E.
  - split; [|split].
    + intros i p' H. injection H as <- <-. fold tbl. rewrite E.
      apply List.find_some in E as [Hin E]. apply andb_true_iff in E as [E1 E2].
      apply bool_decide_eq_true in E1, E2. apply list_elem_of_In in Hin.
      repeat split; assumption || reflexivity.
    + intros Hnot _. apply first_where_message_none in Hnot.
      unfold tbl in *. rewrite E in Hnot. discriminate.
    + intros e p' H. discriminate H.
  - pose proof (proj1 (first_where_message_none text event tbl) E) as Hnot.
    destruct (gorm.Save_message _ (db p)) as [[i d']|err] eqn:Es.
    + pose proof Es as Hs. apply Save_message_new in Hs as (Hi & Hd & Hfresh).
      split; [|split].
      * intros i0 p' H. cbn in H. injection H as <- <-. cbn [db with_db].
        rewrite Hd. cbn [gorm.interaction_messages gorm.with_interaction_messages].
        unfold gorm.first_where. rewrite (find_app_none _ _ _ E).
        assert (InteractionMessage.Text i = text /\ InteractionMessage.Event i = event)
          as [Ht He] by (rewrite Hi; split; reflexivity).
        cbn [List.find]. rewrite Ht, He, !bool_decide_eq_true_2 by reflexivity.
        cbn [andb].
        split; [reflexivity|]. split; [reflexivity|].
        split; [apply elem_of_app; right; apply list_elem_of_singleton; reflexivity|].
        split; [reflexivity | intros Hin; contradiction].
      * intros _ Hin. contradiction.
      * intros e p' H. discriminate H.
    + split; [|split].
      * intros i p' H. discriminate H.
      * intros _ Hin. unfold tbl in Hin.
        apply (Save_message_conflict text event) in Hin.
        rewrite Hin in Es. injection Es as <-. reflexivity.
      * intros e p' _. split; [exact Hnot|].
        apply (Save_message_conflict text event). rewrite Es. f_equal.
        unfold gorm.Save_message in Es. destruct (existsb _ _); [|discriminate Es].
        injection Es as <-. reflexivity.
Qed.

Lemma first_where_item name items :
  gorm.first_where (fun i => bool_decide (Item.Name i = name)) items
  = if bool_decide (name ∈ Item.Name <$> items) then Some {| Item.Name := name |} else None.
Proof.
  unfold gorm.first_where. destruct (List.find _ items) as [x|] eqn:E.
  - apply List.find_some in E as [Hin E]. apply bool_decide_eq_true in E.
    destruct x as [n]. cbn in E. subst n.
    rewrite bool_decide_eq_true_2; [reflexivity|].
    apply (list_elem_of_fmap_2 Item.Name _ {| Item.Name := name |}), list_elem_of_In, Hin.
  - rewrite bool_decide_eq_false_2; [reflexivity|].
    intros Hin. apply list_elem_of_fmap in Hin as (x & -> & Hin).
    apply list_elem_of_In in Hin. pose proof (List.find_none _ _ E x Hin) as Hf.
    cbn in Hf. rewrite bool_decide_eq_true_2 in Hf by reflexivity. discriminate.
Qed.

(** X13.  [lookupItem] and [lookupUserID] get or create a row by its
    key and cannot be told apart from a plain lookup afterwards: the first
    call returns the row of that key, leaving the processor as it is when
    the store holds the key already and saving the row when it does not,
    and a second call returns the same row and changes nothing.
    [lookupItem] never fails; [lookupUserID] fails on the empty ID only,
    touching nothing. *)
Theorem lookup_or_create_is_idempotent (name id : string) (p : Processor) :
  (exists p',
      lookupItem name p = Ok {| Item.Name := name |} p'
      /\ lookupItem name p' = Ok {| Item.Name := name |} p'
      /\ name ∈ Item.Name <$> gorm.items (db p')
      /\ (name ∈ Item.Name <$> gorm.items (db p) -> p' = p))
  /\ (id <> "" ->
      exists p',
        lookupUserID id p = Ok {| User.ID := id |} p'
        /\ lookupUserID id p' = Ok {| User.ID := id |} p'
        /\ id ∈ User.ID <$> gorm.users (db p')
        /\ (id ∈ User.ID <$> gorm.users (db p) -> p' = p))
  /\ lookupUserID "" p = Err (errors_New "empty username") p.
Proof.
  split; [|split; [|reflexivity]].
  - unfold lookupItem, storeItem, bind, getDB, modifyDB. rewrite first_where_item.
    destruct (bool_decide (name ∈ Item.Name <$> gorm.items (db p))) eqn:E.
    + apply bool_decide_eq_true in E. exists p. rewrite first_where_item.
      rewrite bool_decide_eq_true_2 by exact E.
      split; [reflexivity|]. split; [reflexivity|]. split; [exact E | reflexivity].
    + apply bool_decide_eq_false in E. eexists. split; [reflexivity|].
      cbn [db with_db]. rewrite first_where_item.
      assert (name ∈ Item.Name <$> gorm.items (gorm.Save_item {| Item.Name := name |} (db p)))
        as Hin.
      { cbn. apply (list_elem_of_fmap_2 Item.Name _ {| Item.Name := name |}), upsert_elem. }
      rewrite bool_decide_eq_true_2 by exact Hin.
      split; [reflexivity|]. split; [exact Hin | intros; contradiction].
  - intros Hid. exists (with_db (ensure_user id (db p)) p).
    split; [apply lookupUserID_eq, Hid|].
    pose proof (ensure_user_has id (db p)) as Hin. split; [|split; [exact Hin|]].
    + rewrite (lookupUserID_eq id _ Hid). cbn [db with_db].
      rewrite (ensure_user_present id _ Hin). reflexivity.
    + intros Hin0. rewrite (ensure_user_present id _ Hin0). apply with_db_same.
Qed.

(** ** Unescaping *)

Lemma append_cons c (s t : string) : String c s +:+ t = String c (s +:+ t).
Proof. reflexivity. Qed.

Lemma string_length_app (s t : string) :
  String.length (s +:+ t) = (String.length s + String.length t)%nat.
Proof.
  induction s as [|c s IH]; [reflexivity|]. rewrite append_cons. cbn. rewrite IH. reflexivity.
Qed.

Lemma HasPrefix_length s prefix :
  GoStrings.HasPrefix s prefix = true -> (String.length prefix <= String.length s)%nat.
Proof.
  revert s. induction prefix as [|a prefix IH]; intros s H; cbn; [lia|].
  destruct s as [|b s]; cbn in H; [discriminate|].
  destruct (Ascii.eqb a b); [|discriminate]. apply IH in H. cbn. lia.
Qed.

Lemma ReplaceAll_go_length s old new skip :
  (String.length new <= String.length old)%nat ->
  (String.length (GoStrings.ReplaceAll_go s old new skip) + Nat.min skip (String.length s)
   <= String.length s)%nat.
Proof.
  intros Hlen. revert skip. induction s as [|c s IH]; intros skip; [cbn; lia|].
  cbn [GoStrings.ReplaceAll_go]. destruct skip as [|k].
  - destruct (GoStrings.HasPrefix (String c s) old) eqn:E.
    + apply HasPrefix_length in E. cbn [String.length] in *. rewrite string_length_app.
      specialize (IH (String.length old - 1)%nat). lia.
    + cbn [String.length]. specialize (IH 0%nat). lia.
  - cbn [String.length]. specialize (IH k). lia.
Qed.

Lemma ReplaceAll_length s old new :
  (String.length new <= String.length old)%nat ->
  (String.length (GoStrings.ReplaceAll s old new) <= String.length s)%nat.
Proof.
  intros H. pose proof (ReplaceAll_go_length s old new 0 H). unfold GoStrings.ReplaceAll. lia.
Qed.

Lemma ReplaceAll_nonempty s old a new :
  s <> "" -> GoStrings.ReplaceAll s old (String a new) <> "".
Proof.
  destruct s as [|c s]; [contradiction|]. intros _. unfold GoStrings.ReplaceAll.
  cbn [GoStrings.ReplaceAll_go].
  destruct (GoStrings.HasPrefix (String c s) old); [rewrite append_cons|]; discriminate.
Qed.

Lemma Contains_cons c s a :
  GoStrings.Contains (String c s) (String a "") = false ->
  c <> a /\ GoStrings.Contains s (String a "") = false.
Proof.
  unfold GoStrings.Contains. cbn.
  destruct (Ascii.eqb_spec a c) as [->|Hne].
  - destruct s; discriminate.
  - destruct (GoStrings.Index s (String a "")); cbn; [discriminate|].
    intros _. split; [congruence | reflexivity].
Qed.

Lemma ReplaceAll_absent s a old new :
  GoStrings.Contains s (String a "") = false ->
  GoStrings.ReplaceAll s (String a old) new = s.
Proof.
  unfold GoStrings.ReplaceAll. induction s as [|c s IH]; intros H; [reflexivity|].
  apply Contains_cons in H as [Hne H]. cbn.
  destruct (Ascii.eqb_spec a c) as [->|_]; [contradiction|].
  rewrite (IH H). reflexivity.
Qed.

(** X14.  [unescapeMarkdown] leaves a text without a backslash as it is,
    never makes a text longer, and returns the empty text for the empty
    text only. *)
Theorem unescapeMarkdown_plain_text (msg : string) :
  (GoStrings.Contains msg "\" = false -> unescapeMarkdown msg = msg)
  /\ (String.length (unescapeMarkdown msg) <= String.length msg)%nat
  /\ (unescapeMarkdown msg = "" <-> msg = "").
Proof.
  unfold unescapeMarkdown. split; [|split; [|split]].
  - intros H. rewrite !(ReplaceAll_absent msg) by exact H. reflexivity.
  - repeat (etransitivity; [apply ReplaceAll_length; cbn; lia|]). reflexivity.
  - intros H. destruct (decide (msg = "")) as [E|E]; [exact E|]. exfalso.
    revert H. repeat apply ReplaceAll_nonempty. exact E.
  - intros ->. reflexivity.
Qed.

(** ** The archive loader: the files it collects *)

Lemma Index_byte_cons c s a :
  GoStrings.Index (String c s) (String a "")
  = if Ascii.eqb a c then Some 0%nat else S <$> GoStrings.Index s (String a "").
Proof.
  cbn [GoStrings.Index GoStrings.HasPrefix].
  destruct (Ascii.eqb a c); [destruct s|]; reflexivity.
Qed.

Lemma Contains_slash_app stem ext :
  GoStrings.Contains ext "/" = false ->
  GoStrings.Contains (stem +:+ ext) "/" = GoStrings.Contains stem "/".
Proof.
  intros H. unfold GoStrings.Contains in *.
  induction stem as [|c stem IH].
  { change ("" +:+ ext) with ext. rewrite H. reflexivity. }
  rewrite append_cons, !Index_byte_cons.
  destruct (Ascii.eqb "/" c); [reflexivity|].
  destruct (GoStrings.Index (stem +:+ ext) "/"), (GoStrings.Index stem "/");
    cbn in *; congruence.
Qed.

(** [filepath.Ext] of a name that ends in a dot and a suffix without a dot
    or a slash is that dot and suffix, whatever comes before. *)
Lemma Ext_suffix stem suffix :
  GoStrings.Contains suffix "/" = false ->
  GoStrings.Contains suffix "." = false ->
  loader.Ext (stem +:+ "." +:+ suffix) = "." +:+ suffix.
Proof.
  intros Hslash Hdot.
  assert (loader.Ext suffix = "") as Hs.
  { clear Hslash. induction suffix as [|c s IH]; [reflexivity|].
    apply Contains_cons in Hdot as [Hne Hdot]. cbn [loader.Ext]. rewrite (IH Hdot). cbn.
    destruct (GoStrings.Contains s "/"); [reflexivity|].
    destruct (Ascii.eqb_spec c "."); [contradiction | reflexivity]. }
  assert (loader.Ext ("." +:+ suffix) = "." +:+ suffix) as Hb.
  { rewrite append_cons. change ("" +:+ suffix) with suffix.
    cbn [loader.Ext]. rewrite Hslash, Hs. reflexivity. }
  induction stem as [|c stem IH]; [exact Hb|].
  rewrite append_cons. cbn [loader.Ext]. rewrite IH. rewrite append_cons.
  cbn [String.length Nat.eqb negb].
  destruct (GoStrings.Contains (stem +:+ _) "/"); reflexivity.
Qed.

(** X15.  [walkFunc] collects every regular file whose name ends in a
    dot and a suffix that equals "json" under case folding, whatever comes
    before the dot: if the file
    opens, decodes and rewinds, it is appended to the backups collected so
    far with the time of its first message, and if it holds no message the
    call panics.  A directory is skipped, an error handed in is handed back,
    and in every outcome that returns, the backups collected so far are
    kept as they are, in their order. *)
Theorem walkFunc_collects_json_exports
        (open : string -> loader.File + error) (backupFiles : list loader.backupFile)
        (path stem suffix : string) (r : loader.File) (Messages : list Z) :
  loader.EqualFold_json ("." +:+ suffix) = true ->
  GoStrings.Contains suffix "/" = false ->
  GoStrings.Contains suffix "." = false ->
  open path = inl r ->
  loader.Decode r = loader.DecodeOk Messages ->
  loader.Seek r = None ->
  loader.walkFunc open backupFiles path
                  {| loader.IsDir := false; loader.Name := stem +:+ "." +:+ suffix |} None
  = match Messages with
    | [] => loader.RuntimePanic "index out of range [0] with length 0"
    | firstMessage :: _ =>
        loader.Return None (backupFiles ++ [{| loader.firstMessageTime := firstMessage;
                                               loader.file := r |}])
    end
  /\ (forall name, loader.walkFunc open backupFiles path
                                   {| loader.IsDir := true; loader.Name := name |} None
                   = loader.Return None backupFiles)
  /\ (forall info err, loader.walkFunc open backupFiles path info (Some err)
                       = loader.Return (Some err) backupFiles)
  /\ (forall info err e collected,
         loader.walkFunc open backupFiles path info err = loader.Return e collected ->
         exists new, collected = backupFiles ++ new /\ (length new <= 1)%nat
                     /\ (e <> None -> new = [])).
Proof.
  intros Hfold Hslash Hdot Hopen Hdecode Hseek. split; [|split; [|split]].
  - unfold loader.walkFunc. cbn [loader.IsDir loader.Name orb].
    rewrite (Ext_suffix stem suffix Hslash Hdot), Hfold.
    cbn [negb]. rewrite Hopen, Hdecode, Hseek. reflexivity.
  - reflexivity.
  - reflexivity.
  - intros info err e collected. unfold loader.walkFunc.
    destruct err as [e0|].
    { intros [= <- <-]. exists []. rewrite app_nil_r. repeat split; cbn; lia || reflexivity. }
    destruct (loader.IsDir info || negb _).
    { intros [= <- <-]. exists []. rewrite app_nil_r. repeat split; cbn; lia || reflexivity. }
    destruct (open path) as [r'|e1].
    2:{ intros [= <- <-]. exists []. rewrite app_nil_r. repeat split; cbn; lia || reflexivity. }
    destruct (loader.Decode r') as [e2|ms].
    { intros [= <- <-]. exists []. rewrite app_nil_r. repeat split; cbn; lia || reflexivity. }
    destruct (loader.Seek r') as [e3|].
    { intros [= <- <-]. exists []. rewrite app_nil_r. repeat split; cbn; lia || reflexivity. }
    destruct ms as [|t ms]; [discriminate|].
    intros [= <- <-]. eexists. split; [reflexivity|]. split; [cbn; lia|].
    intros H. contradiction.
Qed.

(** ** The dump *)

Section LastRow.
Context {A : Type}.
Variable key : A -> Z.

Lemma Last_from a tbl x :
  foldl (gorm.later key) (Some a) tbl = Some x ->
  key a <= key x
  /\ (forall y, y ∈ tbl -> key y <= key x)
  /\ (x = a \/ (key a < key x
                /\ List.find (fun y => bool_decide (key y = key x)) tbl = Some x)).
Proof.
  revert a. induction tbl as [|y t IH]; intros a H; cbn in H.
  - injection H as <-. split; [lia|]. split; [|left; reflexivity].
    intros y Hy. inversion Hy.
  - destruct (Z.ltb_spec (key a) (key y)) as [Hlt|Hge].
    + apply IH in H as (H1 & H2 & H3). split; [lia|]. split.
      * intros z Hz. apply elem_of_cons in Hz as [->|Hz]; [exact H1 | apply H2, Hz].
      * right. split; [lia|]. cbn. destruct H3 as [->|[H3 H4]].
        -- rewrite bool_decide_eq_true_2 by reflexivity. reflexivity.
        -- rewrite bool_decide_eq_false_2 by lia. exact H4.
    + apply IH in H as (H1 & H2 & H3). split; [exact H1|]. split.
      * intros z Hz. apply elem_of_cons in Hz as [->|Hz]; [lia | apply H2, Hz].
      * destruct H3 as [->|[H3 H4]]; [left; reflexivity|]. right. split; [exact H3|].
        cbn. rewrite bool_decide_eq_false_2 by lia. exact H4.
Qed.

Lemma Last_total tbl a : exists x, foldl (gorm.later key) (Some a) tbl = Some x.
Proof.
  revert a. induction tbl as [|y t IH]; intros a; cbn; [eexists; reflexivity|].
  destruct (key a <? key y); apply IH.
Qed.

(** [Last] returns the first of the rows with the greatest key. *)
Lemma Last_spec tbl x :
  gorm.Last key tbl = Some x ->
  (forall y, y ∈ tbl -> key y <= key x)
  /\ gorm.first_where (fun y => bool_decide (key y = key x)) tbl = Some x.
Proof.
  unfold gorm.Last, gorm.first_where. destruct tbl as [|a t]; [discriminate|].
  cbn [foldl gorm.later]. intros H. apply Last_from in H as (H1 & H2 & H3). split.
  - intros y Hy. apply elem_of_cons in Hy as [->|Hy]; [exact H1 | apply H2, Hy].
  - cbn. destruct H3 as [->|[H3 H4]].
    + rewrite bool_decide_eq_true_2 by reflexivity. reflexivity.
    + rewrite bool_decide_eq_false_2 by lia. exact H4.
Qed.

Lemma Last_None tbl : gorm.Last key tbl = None <-> tbl = [].
Proof.
  split; [|intros ->; reflexivity]. destruct tbl as [|a t]; [reflexivity|].
  unfold gorm.Last. cbn [foldl gorm.later]. destruct (Last_total t a) as [x E].
  rewrite E. discriminate.
Qed.

Lemma Last_greatest tbl x :
  gorm.first_where (fun y => bool_decide (key y = key x)) tbl = Some x ->
  (forall y, y ∈ tbl -> key y <= key x) ->
  gorm.Last key tbl = Some x.
Proof.
  intros Hfirst Hmax. destruct (gorm.Last key tbl) as [z|] eqn:E.
  - destruct (Last_spec tbl z E) as [Hz Hfz].
    assert (x ∈ tbl) as Hx.
    { apply List.find_some in Hfirst as [Hin _]. apply list_elem_of_In, Hin. }
    assert (z ∈ tbl) as Hzin.
    { apply List.find_some in Hfz as [Hin _]. apply list_elem_of_In, Hin. }
    assert (key z = key x) as Hk by (specialize (Hz x Hx); specialize (Hmax z Hzin); lia).
    rewrite Hk in Hfz. congruence.
  - apply Last_None in E. subst tbl. discriminate Hfirst.
Qed.

End LastRow.

(** X16.  [runDump] panics exactly when the last game of the store (the
    one with the greatest ID) has a start time and no end time: for a game
    that has started, the end time is read where the start time was meant.
    On a store without games, or whose last game has not started or has
    ended, it returns. *)
Theorem runDump_panics_on_unfinished_game
        (WriteString : Z -> option error) (Export : gorm.DB -> option error) (d : gorm.DB)
        (reason : string) :
  dump.runDump WriteString Export d = dump.RuntimePanic reason
  <-> exists lastGame,
        gorm.Last Game.ID (gorm.games d) = Some lastGame
        /\ is_Some (Game.StartTime lastGame)
        /\ Game.EndTime lastGame = None
        /\ reason = "invalid memory address or nil pointer dereference".
Proof.
  unfold dump.runDump, dump.game_timestamps.
  destruct (gorm.Last Game.ID (gorm.games d)) as [g|].
  - destruct (Game.StartTime g) as [ts|] eqn:Es; destruct (Game.EndTime g) as [te|] eqn:Ee;
      cbn beta iota zeta.
    + split; [destruct (WriteString _); discriminate|].
      intros (g' & [= <-] & _ & He & _). congruence.
    + split.
      * intros [= <-]. exists g. rewrite Es. repeat split; eauto.
      * intros (g' & _ & _ & _ & ->). reflexivity.
    + split; [destruct (WriteString _); discriminate|].
      intros (g' & [= <-] & _ & He & _). congruence.
    + split; [destruct (WriteString _); discriminate|].
      intros (g' & [= <-] & [ts Hs] & _). congruence.
  - cbn beta iota zeta. split; [destruct (WriteString _); discriminate|].
    intros (g' & H & _). discriminate H.
Qed.

(** X17.  A dump that follows an import which ended in the middle of a
    game panics: when the handler of a session start has stored a game that
    has no end time yet, and no stored game has a greater ID, [runDump] on
    the store it leaves dereferences nil. *)
Theorem dump_after_unfinished_import_panics
        (unicode_IsGraphic : Z -> bool) (WriteString : Z -> option error)
        (Export : gorm.DB -> option error)
        (c : discord.Channel.t) (m : discord.Message.t) (e : discord.Embed.t)
        (p p1 : Processor) :
  processGameStart unicode_IsGraphic c m e p = Ok tt p1 ->
  Game.EndTime (LastKnownGame (chan p c)) = None ->
  (forall g, g ∈ gorm.games (db p1) -> Game.ID g <= Game.ID (LastKnownGame (chan p1 c))) ->
  dump.runDump WriteString Export (db p1)
  = dump.RuntimePanic "invalid memory address or nil pointer dereference".
Proof.
  intros H Hend Hmax.
  destruct (processGameStart_spec unicode_IsGraphic c m e p p1 H) as (q & (_ & Hst & He) & Hq).
  destruct (storeCurrentGame_chan c q) as [Hc Hd]. rewrite Hq in Hc, Hd. cbn [final] in Hc, Hd.
  destruct (Save_game_stored (LastKnownGame (chan q c)) (db q)) as (_ & Hstored & _).
  set (g := LastKnownGame (chan p1 c)) in *.
  assert (g = fst (gorm.Save_game (LastKnownGame (chan q c)) (db q))) as Hg.
  { unfold g. rewrite Hc. reflexivity. }
  assert (Game.StartTime g = Some (discord.Message.Timestamp m) /\ Game.EndTime g = None)
    as [Hs Hn].
  { rewrite Hg. unfold gorm.Save_game. cbn [fst]. rewrite Hend in He.
    destruct (Game.ID (LastKnownGame (chan q c)) =? 0); split; assumption. }
  unfold dump.runDump.
  rewrite (Last_greatest Game.ID (gorm.games (db p1)) g); [|rewrite Hg, Hd; exact Hstored|exact Hmax].
  unfold dump.game_timestamps. rewrite Hs, Hn. reflexivity.
Qed.

Lemma latest_cases (a b c0 d : Z) :
  dump.latest [a] = Z.max 0 a
  /\ dump.latest [a; b] = Z.max 0 (Z.max a b)
  /\ dump.latest [a; b; c0] = Z.max 0 (Z.max a (Z.max b c0))
  /\ dump.latest [a; b; c0; d] = Z.max 0 (Z.max a (Z.max b (Z.max c0 d))).
Proof.
  unfold dump.latest. cbn [foldl].
  repeat match goal with |- context [?x <? ?y] => destruct (Z.ltb_spec x y) end;
    repeat split; lia.
Qed.

(** X18.  When [runDump] returns, the time it has put in the header is
    the latest of the zero time, the countdown start and the end time of
    the last game and the post time of the last round (the last row being
    the one with the greatest ID); the start time of the game is not among
    them.  The error it returns is that of writing the header, or else that
    of the export. *)
Theorem runDump_latest_timestamp
        (WriteString : Z -> option error) (Export : gorm.DB -> option error) (d : gorm.DB)
        (latestTimestamp : Z) (err : option error) :
  dump.runDump WriteString Export d = dump.Return latestTimestamp err ->
  latestTimestamp
  = Z.max 0 (Z.max match gorm.Last Game.ID (gorm.games d) with
                   | Some lastGame =>
                       Z.max (Game.CountdownStartTime lastGame)
                             (default 0 (Game.EndTime lastGame))
                   | None => 0
                   end
                   match gorm.Last Round.ID (gorm.rounds d) with
                   | Some lastRound => Round.PostTime lastRound
                   | None => 0
                   end)
  /\ err = match WriteString latestTimestamp with
           | Some e => Some e
           | None => Export d
           end.
Proof.
  unfold dump.runDump, dump.game_timestamps.
  destruct (gorm.Last Game.ID (gorm.games d)) as [g|];
    [destruct (Game.StartTime g), (Game.EndTime g) as [te|]|];
    destruct (gorm.Last Round.ID (gorm.rounds d)) as [r|];
    cbn beta iota zeta; cbn [app default];
    try discriminate;
    match goal with
    | |- context [dump.latest ?l] => set (t := dump.latest l)
    end;
    intros H;
    assert (latestTimestamp = t /\ err = match WriteString t with
                                         | Some e => Some e
                                         | None => Export d
                                         end) as [-> ->]
      by (destruct (WriteString t); injection H as <- <-; split; reflexivity);
    (split; [|reflexivity]); unfold t;
    match goal with
    | |- dump.latest [?a] = _ => pose proof (proj1 (latest_cases a 0 0 0)) as E
    | |- dump.latest [?a; ?b] = _ =>
        pose proof (proj1 (proj2 (latest_cases a b 0 0))) as E
    | |- dump.latest [?a; ?b; ?c0] = _ =>
        pose proof (proj1 (proj2 (proj2 (latest_cases a b c0 0)))) as E
    | |- dump.latest [?a; ?b; ?c0; ?d0] = _ =>
        pose proof (proj2 (proj2 (proj2 (latest_cases a b c0 d0)))) as E
    | |- dump.latest [] = _ => assert (dump.latest [] = 0) as E by reflexivity
    end;
    rewrite E; unfold id; lia.
Qed.

(** ** The matcher reports matches of the expression only *)

Section MatcherSoundness.
Import Regexp.

Lemma orelse_Some {A : Type} (x y : option A) res :
  orelse x y = Some res -> x = Some res \/ y = Some res.
Proof. destruct x; cbn; intros H; [left | right]; exact H. Qed.

Lemma run_spans {R : Type} fuel :
  forall r pv s c (k : option ascii -> string -> caps -> option R) res,
    run fuel r pv s c k = Some res ->
    exists pv' s' c', spans r pv s c pv' s' c' /\ k pv' s' c' = Some res.
Proof.
  induction fuel as [|f IH]; intros r pv s c k res H; [discriminate H|].
  destruct r; cbn [run] in H.
  - eexists _, _, _. split; [constructor | exact H].
  - destruct s as [|b s]; [discriminate|]. destruct (Ascii.eqb_spec c0 b) as [->|]; [|discriminate].
    eexists _, _, _. split; [constructor | exact H].
  - destruct s as [|b s]; [discriminate|]. destruct (p b) eqn:E; [|discriminate].
    eexists _, _, _. split; [constructor; exact E | exact H].
  - apply IH in H as (pv1 & s1 & c1 & H1 & H). apply IH in H as (pv2 & s2 & c2 & H2 & H).
    eexists _, _, _. split; [econstructor; eassumption | exact H].
  - apply orelse_Some in H as [H|H]; apply IH in H as (pv1 & s1 & c1 & H1 & H);
      eexists _, _, _; (split; [|exact H]).
    + apply spans_Alt_l. exact H1.
    + apply spans_Alt_r. exact H1.
  - apply orelse_Some in H as [H|H].
    + apply IH in H as (pv1 & s1 & c1 & H1 & H).
      eexists _, _, _. split; [apply spans_Opt_some; exact H1 | exact H].
    + eexists _, _, _. split; [apply spans_Opt_none | exact H].
  - apply orelse_Some in H as [H|H].
    + apply IH in H as (pv1 & s1 & c1 & H1 & H).
      destruct (String.length s1 <? String.length s)%nat; [|discriminate].
      apply IH in H as (pv2 & s2 & c2 & H2 & H).
      eexists _, _, _. split; [eapply spans_Star_more; eassumption | exact H].
    + eexists _, _, _. split; [apply spans_Star_none | exact H].
  - apply IH in H as (pv1 & s1 & c1 & H1 & H). apply IH in H as (pv2 & s2 & c2 & H2 & H).
    eexists _, _, _. split; [eapply spans_Plus; eassumption | exact H].
  - apply IH in H as (pv1 & s1 & c1 & H1 & H). apply orelse_Some in H as [H|H].
    + eexists _, _, _. split; [apply spans_PlusLazy_one; exact H1 | exact H].
    + destruct (String.length s1 <? String.length s)%nat; [|discriminate].
      apply IH in H as (pv2 & s2 & c2 & H2 & H).
      eexists _, _, _. split; [eapply spans_PlusLazy_more; eassumption | exact H].
  - apply IH in H as (pv1 & s1 & c1 & H1 & H).
    eexists _, _, _. split; [apply spans_Grp; exact H1 | exact H].
  - destruct pv as [b|].
    + destruct (Ascii.eqb_spec b newline) as [->|]; [|discriminate].
      eexists _, _, _. split; [apply spans_BolM; right; reflexivity | exact H].
    + eexists _, _, _. split; [apply spans_BolM; left; reflexivity | exact H].
  - destruct s as [|b s].
    + eexists _, _, _. split; [apply spans_EolM; left; reflexivity | exact H].
    + destruct (Ascii.eqb_spec b newline) as [->|]; [|discriminate].
      eexists _, _, _. split; [apply spans_EolM; right; eexists; reflexivity | exact H].
Qed.

Lemma spans_length r pv s c pv' s' c' :
  spans r pv s c pv' s' c' -> (String.length s' <= String.length s)%nat.
Proof. induction 1; cbn; lia. Qed.

Lemma spans_groupless r pv s c pv' s' c' :
  spans r pv s c pv' s' c' -> groupless r = true -> c' = c.
Proof.
  induction 1; cbn; intros Hg; try reflexivity; try discriminate;
    try (apply andb_true_iff in Hg as [Hg1 Hg2]); try congruence; auto.
  - rewrite IHspans2, IHspans1 by assumption. reflexivity.
  - rewrite IHspans2, IHspans1 by assumption. reflexivity.
  - rewrite IHspans2, IHspans1 by assumption. reflexivity.
  - rewrite IHspans2, IHspans1 by assumption. reflexivity.
Qed.

(** The submatches [FindAllStringSubmatch] returns are groups of matches
    of the whole expression, each started on an empty list of groups. *)
Lemma match_here_spans r prev s c pv' s' :
  match_here r prev s = Some (c, pv', s') -> spans (Grp 0 r) prev s [] pv' s' c.
Proof.
  unfold match_here. intros H. apply run_spans in H as (pv1 & s1 & c1 & H1 & H).
  injection H as <- <- <-. exact H1.
Qed.

Lemma find_from_spans r s :
  forall prev c pv' s',
    find_from r prev s = Some (c, pv', s') ->
    exists prev0 s0, spans (Grp 0 r) prev0 s0 [] pv' s' c.
Proof.
  induction s as [|b s IH]; intros prev c pv' s' H; cbn [find_from] in H.
  - destruct (match_here r prev "") as [[[c0 pv0] s0]|] eqn:E; [|discriminate].
    injection H as <- <- <-. eexists _, _. apply match_here_spans. exact E.
  - destruct (match_here r prev (String b s)) as [[[c0 pv0] s0]|] eqn:E.
    + injection H as <- <- <-. eexists _, _. apply match_here_spans. exact E.
    + apply IH in H. exact H.
Qed.

Lemma find_all_spans r fuel :
  forall prev s c,
    c ∈ find_all fuel r prev s ->
    exists prev0 s0 pv' s', spans (Grp 0 r) prev0 s0 [] pv' s' c.
Proof.
  induction fuel as [|f IH]; intros prev s c H; cbn [find_all] in H; [inversion H|].
  destruct (find_from r prev s) as [[[c0 pv0] rest]|] eqn:E; [|inversion H].
  assert (c = c0 -> exists prev0 s0 pv' s', spans (Grp 0 r) prev0 s0 [] pv' s' c) as Hhere.
  { intros ->. apply find_from_spans in E as (prev0 & s0 & E). eauto. }
  destruct (String.length rest <? String.length s)%nat.
  - apply elem_of_cons in H as [->|H]; [apply Hhere; reflexivity | eapply IH; exact H].
  - apply list_elem_of_singleton in H. apply Hhere, H.
Qed.

Lemma FindAllStringSubmatch_spans r n s match_ :
  match_ ∈ FindAllStringSubmatch r n s ->
  exists c prev0 s0 pv' s',
    match_ = groups n c /\ spans (Grp 0 r) prev0 s0 [] pv' s' c.
Proof.
  unfold FindAllStringSubmatch. intros H. apply list_elem_of_fmap in H as (c & -> & H).
  apply find_all_spans in H as (prev0 & s0 & pv' & s' & H). eauto 10.
Qed.

End MatcherSoundness.

(** ** The user-mention extractor never fails *)

Ltac invert H := inversion H; subst; clear H.

Section MentionMatches.
Import Regexp.

Lemma take_length n s : String.length (GoStrings.take n s) = Nat.min n (String.length s).
Proof.
  revert s. induction n as [|n IH]; intros s; [reflexivity|].
  destruct s as [|c s]; [reflexivity|]. cbn. rewrite IH. reflexivity.
Qed.

Lemma take_nonempty n s : (0 < n)%nat -> (0 < String.length s)%nat -> GoStrings.take n s <> "".
Proof.
  intros Hn Hs E. apply (f_equal String.length) in E. rewrite take_length in E. cbn in E. lia.
Qed.

(** The first group of [rxStrDiscordUsername] captures at least one byte;
    the second group is the only other one. *)
Lemma username_spans g pv s c pv' s' c' :
  spans (Patterns.rxStrDiscordUsername g) pv s c pv' s' c' ->
  exists name, name <> ""
               /\ (c' = (g, name) :: c \/ exists suffix, c' = (S g, suffix) :: (g, name) :: c).
Proof.
  unfold Patterns.rxStrDiscordUsername. intros H.
  invert H. match goal with H : spans (Grp g _) _ _ _ _ _ _ |- _ => invert H end.
  match goal with H : spans (Cat (Star _) (Cls _)) _ _ _ _ _ _ |- _ =>
    pose proof (spans_groupless _ _ _ _ _ _ _ H eq_refl) as ->; invert H end.
  match goal with H : spans (Star _) _ _ _ _ _ _ |- _ => apply spans_length in H end.
  match goal with H : spans (Cls _) _ _ _ _ _ _ |- _ => invert H end.
  match goal with H : spans (Opt _) _ _ ((_, GoStrings.take ?n ?s) :: _) _ _ _ |- _ =>
    assert (GoStrings.take n s <> "") as Hname
      by (cbn [String.length] in *; apply take_nonempty; lia);
    exists (GoStrings.take n s); split; [exact Hname|] end.
  match goal with H : spans (Opt _) _ _ _ _ _ _ |- _ => invert H end.
  - right. match goal with H : spans (Grp _ _) _ _ _ _ _ _ |- _ => invert H end.
    match goal with H : spans (Cat _ _) _ _ _ _ _ _ |- _ =>
      pose proof (spans_groupless _ _ _ _ _ _ _ H eq_refl) as -> end.
    eexists. reflexivity.
  - left. reflexivity.
Qed.

Lemma Str_groupless s : groupless (Str s) = true.
Proof. induction s as [|a s IH]; [reflexivity | exact IH]. Qed.

(** A match of [rxUserFormatted] names a user in its first group, or else
    in its third. *)
Lemma user_match_named match_ msg :
  match_ ∈ FindAllStringSubmatch Patterns.rxUserFormatted 4 msg ->
  InteractionUserMention.UserName (userInteraction_of match_) <> "".
Proof.
  intros H. apply FindAllStringSubmatch_spans in H as (c & prev0 & s0 & pv' & s' & -> & H).
  invert H. unfold Patterns.rxUserFormatted, Seq in *. cbn [foldr] in *.
  assert (forall name, name <> "" -> unescapeMarkdown name <> "") as Hun.
  { intros name Hn. unfold unescapeMarkdown. repeat apply ReplaceAll_nonempty. exact Hn. }
  match goal with H : spans (Alt _ _) _ _ _ _ _ _ |- _ => invert H end;
    match goal with H : spans (Cat _ (Cat _ _)) _ _ _ _ _ _ |- _ => invert H end;
    match goal with H : spans (Cat (Lit _) _) _ _ _ _ _ _ |- _ =>
      pose proof (spans_groupless _ _ _ _ _ _ _ H eq_refl) as ->; clear H end;
    match goal with H : spans (Cat _ (Cat _ Eps)) _ _ _ _ _ _ |- _ => invert H end;
    match goal with H : spans (Cat _ Eps) _ _ _ _ _ _ |- _ =>
      pose proof (spans_groupless _ _ _ _ _ _ _ H eq_refl) as ->; clear H end;
    match goal with H : spans _ _ _ [] _ _ _ |- _ =>
      apply (username_spans _ _ _ []) in H as (name & Hname & [->|[suffix ->]]) end;
    unfold userInteraction_of, groups, nth_s; cbn;
    (destruct name as [|a name]; [contradiction|]); cbn;
    apply (Hun (String a name)); discriminate.
Qed.

Lemma with_log_same p : with_log (log p) p = p.
Proof. destruct p; reflexivity. Qed.

Lemma lookupUserName_eq m name p :
  name <> "" ->
  exists lg, lookupUserName m name p = Ok (resolve (db p) name) (with_log lg p).
Proof.
  intros Hn. unfold lookupUserName, resolve. destruct name as [|a name]; [contradiction|].
  cbn [String.length Nat.eqb]. unfold bind, getDB.
  destruct (gorm.last_where _ _) as [o|]; cbn.
  - exists (log p). rewrite with_log_same. reflexivity.
  - eexists. reflexivity.
Qed.

Lemma extractUsers_fill_eq m l p :
  Forall (fun u => InteractionUserMention.UserName u <> "") l ->
  exists lg, extractUsers_fill m l p = Ok (filled (db p) <$> l) (with_log lg p).
Proof.
  intros Hl. revert p. induction Hl as [|x l Hx Hl IH]; intros p; cbn [extractUsers_fill].
  - exists (log p). rewrite with_log_same. reflexivity.
  - unfold bind. destruct (lookupUserName_eq m _ p Hx) as [lg1 ->].
    destruct (IH (with_log lg1 p)) as [lg2 ->]. cbn [db with_log].
    exists lg2. reflexivity.
Qed.

Lemma extractUsers_eq m msg p :
  let matches := Regexp.FindAllStringSubmatch Patterns.rxUserFormatted 4 msg in
  Forall (fun u => InteractionUserMention.UserName u <> "")
         (snd (extractUsers_scan matches msg))
  /\ exists lg,
      extractUsers m msg p
      = Ok (fst (extractUsers_scan matches msg),
            filled (db p) <$> snd (extractUsers_scan matches msg)) (with_log lg p).
Proof.
  intros matches.
  assert (Forall (fun u => InteractionUserMention.UserName u <> "")
                 (snd (extractUsers_scan matches msg))) as Hnames.
  { rewrite extractUsers_scan_mentions. apply Forall_forall. intros u Hu.
    apply first_occurrences_sub in Hu. apply list_elem_of_fmap in Hu as (mt & -> & Hmt).
    apply (user_match_named mt msg Hmt). }
  split; [exact Hnames|].
  unfold extractUsers. fold matches.
  destruct (extractUsers_scan matches msg) as [text l]. cbn [fst snd] in *.
  destruct (extractUsers_fill_eq m l p Hnames) as [lg E].
  exists lg. unfold bind. rewrite E. reflexivity.
Qed.

(** X19.  [extractUsers] never returns an error: a match of the pattern
    of a mention always names a user, so the lookup of an empty name, the
    only error of the loop, is not reached.  The call returns, it writes
    nothing but log lines, and a mention it returns carries a user exactly
    when its name has been observed: the user of the last observation of
    that name. *)
Theorem extractUsers_never_fails (m : discord.Message.t) (msg : string) (p : Processor) :
  exists text users p',
    extractUsers m msg p = Ok (text, users) p'
    /\ db p' = db p
    /\ channels p' = channels p
    /\ LastKnownGameID p' = LastKnownGameID p
    /\ Forall (fun u => InteractionUserMention.UserName u <> ""
                        /\ InteractionUserMention.User u
                           = resolve (db p) (InteractionUserMention.UserName u)
                        /\ InteractionUserMention.UserID u
                           = User.ID <$> InteractionUserMention.User u) users.
Proof.
  destruct (extractUsers_eq m msg p) as [Hnames [lg E]]. cbn zeta in *.
  eexists _, _, _. split; [exact E|]. repeat split.
  apply Forall_fmap. apply Forall_forall. intros u Hu.
  pose proof (proj1 (Forall_forall _ _) Hnames u Hu) as Hn. cbn beta in Hn.
  assert (bare u) as (_ & Hid & Huser).
  { rewrite extractUsers_scan_mentions in Hu. apply first_occurrences_sub in Hu.
    apply list_elem_of_fmap in Hu as (mt & -> & _). apply bare_userInteraction_of. }
  unfold compose, filled. destruct (resolve (db p) (InteractionUserMention.UserName u)) eqn:Er;
    cbn; rewrite ?Er.
  - split; [exact Hn|]. split; reflexivity.
  - rewrite Huser, Hid. split; [exact Hn|]. split; reflexivity.
Qed.

End MentionMatches.

(** ** What the user-mention extractor makes of the text *)

Lemma Contains_byte_app (s t : string) a :
  GoStrings.Contains (s +:+ t) (String a "")
  = GoStrings.Contains s (String a "") || GoStrings.Contains t (String a "").
Proof.
  unfold GoStrings.Contains. induction s as [|c s IH].
  - reflexivity.
  - rewrite append_cons, !Index_byte_cons. destruct (Ascii.eqb a c); [reflexivity|].
    destruct (GoStrings.Index (s +:+ t) _), (GoStrings.Index s _); cbn in *;
      try reflexivity; try discriminate; exact IH.
Qed.

Lemma HasPrefix_app (m W : string) : GoStrings.HasPrefix (m +:+ W) m = true.
Proof.
  induction m as [|a m IH]; [destruct W; reflexivity|].
  rewrite append_cons. cbn. rewrite Ascii.eqb_refl. exact IH.
Qed.

Lemma Index_prefix s sub : GoStrings.HasPrefix s sub = true -> GoStrings.Index s sub = Some 0%nat.
Proof. intros H. destruct s; cbn [GoStrings.Index]; rewrite H; reflexivity. Qed.

Lemma Index_cons_skip a s sub :
  GoStrings.HasPrefix (String a s) sub = false ->
  GoStrings.Index (String a s) sub = S <$> GoStrings.Index s sub.
Proof. intros H. cbn [GoStrings.Index]. rewrite H. reflexivity. Qed.

Lemma mention_text_not_before a Q m W :
  GoStrings.Contains (String a Q) "*" = false ->
  mention_text m ->
  GoStrings.HasPrefix (String a (Q +:+ m +:+ W)) m = false.
Proof.
  intros HQ [body [-> | ->]].
  - apply Contains_cons in HQ as [Ha _].
    change ("**" +:+ body) with (String "*" (String "*" body)).
    cbn [GoStrings.HasPrefix].
    destruct (Ascii.eqb_spec "*" a) as [<-|_]; [contradiction | reflexivity].
  - apply Contains_cons in HQ as [Ha HQ].
    change ("~~**" +:+ body) with (String "~" (String "~" (String "*" (String "*" body)))).
    cbn [GoStrings.HasPrefix].
    destruct (Ascii.eqb "~" a); [|reflexivity].
    destruct Q as [|b Q].
    + reflexivity.
    + apply Contains_cons in HQ as [Hb HQ]. rewrite append_cons.
      cbn [GoStrings.HasPrefix].
      destruct (Ascii.eqb "~" b); [|reflexivity].
      destruct Q as [|c Q].
      * reflexivity.
      * apply Contains_cons in HQ as [Hc HQ]. rewrite append_cons.
        cbn [GoStrings.HasPrefix].
        destruct (Ascii.eqb_spec "*" c) as [<-|_]; [contradiction | reflexivity].
Qed.

Lemma Index_mention Q m W :
  GoStrings.Contains Q "*" = false ->
  mention_text m ->
  GoStrings.Index (Q +:+ m +:+ W) m = Some (String.length Q).
Proof.
  intros HQ Hm. induction Q as [|a Q IH].
  - change ("" +:+ m +:+ W) with (m +:+ W). apply Index_prefix, HasPrefix_app.
  - rewrite append_cons, Index_cons_skip by (apply mention_text_not_before; assumption).
    apply Contains_cons in HQ as [_ HQ]. rewrite (IH HQ). reflexivity.
Qed.

Lemma take_app_length (Q X : string) : GoStrings.take (String.length Q) (Q +:+ X) = Q.
Proof. induction Q as [|a Q IH]; [destruct X; reflexivity|]. rewrite append_cons. cbn. rewrite IH. reflexivity. Qed.

Lemma drop_app_length (Q X : string) n :
  GoStrings.drop (String.length Q + n) (Q +:+ X) = GoStrings.drop n X.
Proof. induction Q as [|a Q IH]; [reflexivity|]. rewrite append_cons. cbn. exact IH. Qed.

Lemma drop_length_app (m W : string) : GoStrings.drop (String.length m) (m +:+ W) = W.
Proof.
  rewrite <- (Nat.add_0_r (String.length m)), drop_app_length. reflexivity.
Qed.

Lemma Replace1_mention Q m W new :
  GoStrings.Contains Q "*" = false ->
  mention_text m ->
  GoStrings.Replace1 (Q +:+ m +:+ W) m new = Q +:+ new +:+ W.
Proof.
  intros HQ Hm. unfold GoStrings.Replace1. rewrite Index_mention by assumption.
  rewrite take_app_length, drop_app_length, drop_length_app. reflexivity.
Qed.

Lemma append_assoc3 (a b c : string) : (a +:+ b) +:+ c = a +:+ b +:+ c.
Proof. induction a as [|x a IH]; [reflexivity|]. rewrite !append_cons, IH. reflexivity. Qed.

Lemma pretty_N_char_no_star x : pretty_N_char x <> "*"%char.
Proof.
  unfold pretty_N_char. destruct x as [|q]; [discriminate|].
  do 4 (try destruct q as [q|q|]); discriminate.
Qed.

Lemma pretty_N_go_no_star x s :
  GoStrings.Contains s "*" = false -> GoStrings.Contains (pretty_N_go x s) "*" = false.
Proof.
  revert s. induction (N.lt_wf_0 x) as [x _ IH]. intros s Hs.
  destruct (N.eq_dec x 0%N) as [->|Hx]; [rewrite pretty_N_go_0; exact Hs|].
  rewrite pretty_N_go_step by lia. apply IH.
  - apply N.div_lt; lia.
  - unfold GoStrings.Contains in *. rewrite Index_byte_cons.
    destruct (Ascii.eqb_spec "*" (pretty_N_char (x `mod` 10))) as [E|_].
    + exfalso. symmetry in E. exact (pretty_N_char_no_star _ E).
    + destruct (GoStrings.Index s "*"); [discriminate | reflexivity].
Qed.

Lemma users_placeholder_no_star index :
  GoStrings.Contains (users_placeholder index) "*" = false.
Proof.
  unfold users_placeholder. rewrite !Contains_byte_app.
  assert (GoStrings.Contains (pretty index) "*" = false) as ->.
  { unfold pretty, pretty_nat, pretty, pretty_N.
    destruct (decide (N.of_nat index = 0%N)); [reflexivity|].
    apply pretty_N_go_no_star. reflexivity. }
  reflexivity.
Qed.

(** Replacing, turn after turn, the first occurrence of the text of a
    mention replaces the mentions where they stand, as long as no [*] comes
    before them. *)
Lemma rewrite_weave (f : list string -> string) (ms : list (list string)) :
  forall (gaps : list string) (P rest : string),
    length gaps = length ms ->
    GoStrings.Contains P "*" = false ->
    Forall (fun gap => GoStrings.Contains gap "*" = false) gaps ->
    Forall (fun mt => mention_text (nth_s 0 mt) /\ GoStrings.Contains (f mt) "*" = false) ms ->
    foldl (fun s mt => GoStrings.Replace1 s (nth_s 0 mt) (f mt))
          (P +:+ weave gaps (nth_s 0 <$> ms) rest) ms
    = P +:+ weave gaps (f <$> ms) rest.
Proof.
  induction ms as [|mt ms IH]; intros gaps P rest Hlen HP Hgaps Hms.
  - destruct gaps; [reflexivity | discriminate Hlen].
  - destruct gaps as [|gap gaps]; [discriminate Hlen|].
    injection Hlen as Hlen. inversion Hgaps as [|? ? Hgap Hgaps']; subst.
    inversion Hms as [|? ? [Hmt Hf] Hms']; subst.
    cbn [fmap list_fmap weave foldl].
    rewrite <- (append_assoc3 P gap), Replace1_mention; [|rewrite Contains_byte_app, HP, Hgap; reflexivity|exact Hmt].
    rewrite <- (append_assoc3 (P +:+ gap) (f mt)).
    rewrite IH; [|exact Hlen| |exact Hgaps'|exact Hms'].
    + rewrite !append_assoc3. reflexivity.
    + rewrite !Contains_byte_app, HP, Hgap, Hf. reflexivity.
Qed.

Section MentionTexts.
Import Regexp.

Lemma Str_spans lit pv s c pv' s' c' :
  spans (Str lit) pv s c pv' s' c' -> s = lit +:+ s'.
Proof.
  revert pv s c. induction lit as [|a lit IH]; intros pv s c H; cbn [Str] in H.
  - invert H. reflexivity.
  - invert H. match goal with H : spans (Lit _) _ _ _ _ _ _ |- _ => invert H end.
    rewrite append_cons. f_equal. eapply IH. eassumption.
Qed.

Lemma take_app_more (lit s : string) n :
  GoStrings.take (String.length lit + n) (lit +:+ s) = lit +:+ GoStrings.take n s.
Proof.
  induction lit as [|a lit IH]; [reflexivity|]. rewrite !append_cons. cbn. rewrite IH.
  reflexivity.
Qed.

(** The text of a match of [rxUserFormatted] opens with the two stars, or
    with the strike-through and the two stars. *)
Lemma user_match_text match_ msg :
  match_ ∈ FindAllStringSubmatch Patterns.rxUserFormatted 4 msg ->
  mention_text (nth_s 0 match_).
Proof.
  intros H. apply FindAllStringSubmatch_spans in H as (c & prev0 & s0 & pv' & s' & -> & H).
  invert H. unfold Patterns.rxUserFormatted, Seq in *. cbn [foldr] in *.
  match goal with
  | |- mention_text (nth_s 0 (groups 4 ((0%nat, ?t) :: ?c))) =>
      change (nth_s 0 (groups 4 ((0%nat, t) :: c))) with t
  end.
  match goal with H : spans (Alt _ _) _ _ _ _ _ _ |- _ => invert H end;
    match goal with H : spans (Cat _ (Cat _ _)) _ _ _ _ _ _ |- _ => invert H end;
    match goal with
    | H : spans (Cat (Lit _) _) _ _ _ _ ?s1 _, H' : spans _ _ ?s1 _ _ _ _ |- _ =>
        apply spans_length in H'
    end.
  - match goal with H : spans _ _ _ _ _ _ _ |- _ => apply (Str_spans "~~**") in H; subst s0 end.
    exists (GoStrings.take (String.length s1 - String.length s') s1). right.
    rewrite string_length_app.
    replace (String.length "~~**" + String.length s1 - String.length s')%nat
      with (String.length "~~**" + (String.length s1 - String.length s'))%nat by lia.
    apply take_app_more.
  - match goal with H : spans _ _ _ _ _ _ _ |- _ => apply (Str_spans "**") in H; subst s0 end.
    exists (GoStrings.take (String.length s1 - String.length s') s1). left.
    rewrite string_length_app.
    replace (String.length "**" + String.length s1 - String.length s')%nat
      with (String.length "**" + (String.length s1 - String.length s'))%nat by lia.
    apply take_app_more.
Qed.

End MentionTexts.

(** C6, as the code has it.  When [extractUsers] returns, the mentions it
    returns are, as (name, suffix, killed) triples, the distinct triples of
    the matches in the text, one entry each, in the order in which they
    first occur, and every match has the index of its triple in that list,
    which for a repeated mention is the index of its first occurrence.  The
    text it returns is the input in which, match after match, the first
    occurrence of the matched text in the text as rewritten so far has been
    replaced by the placeholder of that index.  When no [*] stands outside
    the matches, before the last of them, these are the matches where they
    stand: every occurrence, the repeated ones included, is replaced by its
    placeholder, and the rest of the text is kept. *)
Theorem extractUsers_collapses_repeats
        (m : discord.Message.t) (msg text : string)
        (users : list InteractionUserMention.t) (p p' : Processor) :
  extractUsers m msg p = Ok (text, users) p' ->
  let matches := Regexp.FindAllStringSubmatch Patterns.rxUserFormatted 4 msg in
  mention_key <$> users = first_occurrences (match_key <$> matches)
  /\ NoDup (mention_key <$> users)
  /\ text = foldl (fun s match_ =>
                     GoStrings.Replace1 s (nth_s 0 match_)
                       (users_placeholder (position (mention_key <$> users) (match_key match_))))
                  msg matches
  /\ (forall match_, match_ ∈ matches ->
                     (mention_key <$> users) !! position (mention_key <$> users) (match_key match_)
                     = Some (match_key match_))
  /\ (forall (gaps : list string) (rest : string),
         length gaps = length matches ->
         msg = weave gaps (nth_s 0 <$> matches) rest ->
         Forall (fun gap => GoStrings.Contains gap "*" = false) gaps ->
         text = weave gaps
                      ((fun match_ =>
                          users_placeholder (position (mention_key <$> users)
                                                      (match_key match_))) <$> matches)
                      rest).
Proof.
  intros H matches. unfold extractUsers in H. fold matches in H.
  destruct (extractUsers_scan matches msg) as [s1 l1] eqn:Escan. unfold bind in H.
  destruct (extractUsers_fill m l1 p) as [l2 p2| | |] eqn:Efill; try discriminate H.
  injection H as <- <- <-.
  pose proof (extractUsers_fill_keys m l1 p l2 p2 Efill) as Hkeys.
  pose proof (extractUsers_scan_mentions matches msg) as Hl1.
  rewrite Escan in Hl1. cbn [snd] in Hl1.
  assert (forall y, y ∈ l1 -> bare y) as Hbare.
  { intros y Hy. rewrite Hl1 in Hy. apply first_occurrences_sub in Hy.
    apply list_elem_of_fmap in Hy as (mt & -> & _). apply bare_userInteraction_of. }
  assert (mention_key <$> l1 = first_occurrences (match_key <$> matches)) as Hk.
  { rewrite Hl1, first_occurrences_fmap_inj.
    - rewrite <- list_fmap_compose. reflexivity.
    - intros x y Hx Hy. apply list_elem_of_fmap in Hx as (mx & -> & _).
      apply list_elem_of_fmap in Hy as (my & -> & _).
      apply bare_key_inj; apply bare_userInteraction_of. }
  assert (forall mt, position (mention_key <$> l2) (match_key mt)
                     = position l1 (userInteraction_of mt)) as Hpos.
  { intros mt. unfold position, match_key. rewrite Hkeys, slices_Index_fmap_inj; [reflexivity|].
    intros y Hy. apply bare_key_inj; [apply Hbare, Hy | apply bare_userInteraction_of]. }
  assert (s1 = foldl (fun s match_ =>
                        GoStrings.Replace1 s (nth_s 0 match_)
                          (users_placeholder (position (mention_key <$> l2)
                                                       (match_key match_))))
                     msg matches) as Htext.
  { destruct (extractUsers_scan_from matches msg []) as (_ & _ & H3). cbn zeta in H3.
    fold (extractUsers_scan matches msg) in H3. rewrite Escan in H3. cbn [fst snd] in H3.
    rewrite H3. apply foldl_ext_all. intros b mt. rewrite Hpos. reflexivity. }
  rewrite Hkeys, Hk. split; [reflexivity|]. split; [apply NoDup_first_occurrences|].
  rewrite <- Hk, <- Hkeys. split; [exact Htext|]. split.
  - intros mt Hmt. rewrite Hkeys, Hk. unfold position.
    destruct (slices_Index (first_occurrences (match_key <$> matches)) (match_key mt))
      as [i|] eqn:E.
    + cbn. apply slices_Index_Some. exact E.
    + exfalso. apply slices_Index_None in E. apply E, first_occurrences_complete.
      apply list_elem_of_fmap_2. exact Hmt.
  - intros gaps rest Hlen Hmsg Hgaps. rewrite Htext, Hmsg.
    apply (rewrite_weave _ matches gaps "" rest Hlen eq_refl Hgaps).
    apply Forall_forall. intros mt Hmt. split.
    + apply (user_match_text mt msg), Hmt.
    + apply users_placeholder_no_star.
Qed.

(** ** What a round narrative stores *)

Section RoundLines.
Variable c : discord.Channel.t.

Lemma round_frame_extractItems msg : untouched (round_frame c) (extractItems msg).
Proof.
  unfold extractItems. untouched_with prim_state; [untouched_with prim_state|].
  generalize (@nil Item.t) as items. generalize msg at 2 as s.
  induction (Regexp.FindAllStringSubmatch Patterns.rxItemFormatted 1 msg) as [|x l IH];
    intros s items; cbn.
  - apply untouched_ret.
  - apply untouched_bind; [|intros ?; apply IH].
    unfold lookupItem, storeItem. repeat untouched_with prim_state.
Qed.


Lemma lookupInteractionMessage_Ok text event p i p' :
  lookupInteractionMessage text event p = Ok i p' ->
  message_key i = (text, event)
  /\ i ∈ gorm.interaction_messages (db p')
  /\ (exists ext, gorm.interaction_messages (db p')
                  = gorm.interaction_messages (db p) ++ ext)
  /\ chan p' c = chan p c
  /\ gorm.rounds (db p') = gorm.rounds (db p)
  /\ gorm.interactions (db p') = gorm.interactions (db p).
Proof.
  unfold lookupInteractionMessage, storeInteractionMessage, bind, getDB.
  destruct (gorm.first_where _ _) as [x|] eqn:E.
  - intros [= <- <-]. apply List.find_some in E as [Hin E].
    apply andb_true_iff in E as [E1 E2]. apply bool_decide_eq_true in E1, E2.
    split; [unfold message_key; congruence|].
    split; [apply list_elem_of_In, Hin|].
    split; [exists []; rewrite app_nil_r; reflexivity|]. repeat split.
  - destruct (gorm.Save_message _ (db p)) as [[i0 d']|err] eqn:Es; [|discriminate].
    intros [= <- <-]. apply Save_message_new in Es as (Hi & -> & _). cbn.
    split; [rewrite Hi; reflexivity|].
    split; [apply elem_of_app; right; apply list_elem_of_singleton; reflexivity|].
    split; [eexists; reflexivity|]. repeat split.
Qed.

Lemma storeInteraction_Ok i0 p i p' :
  storeInteraction i0 p = Ok i p' ->
  gorm.interactions (db p') = gorm.interactions (db p) ++ [i]
  /\ Interaction.Round i = Interaction.Round i0
  /\ Interaction.RoundID i = Interaction.RoundID i0
  /\ Interaction.Message i = Interaction.Message i0
  /\ Interaction.MessageID i = Interaction.MessageID i0
  /\ chan p' c = chan p c
  /\ gorm.rounds (db p') = gorm.rounds (db p)
  /\ gorm.interaction_messages (db p') = gorm.interaction_messages (db p).
Proof.
  unfold storeInteraction, bind, getDB.
  destruct (gorm.Create_interaction i0 (db p)) as [[i1 d']|err] eqn:E; [|discriminate].
  intros [= <- <-]. unfold gorm.Create_interaction in E.
  destruct (gorm.has_key _ _ _); [discriminate|].
  destruct (gorm.create_mentions _ _) as [ms mtbl]. injection E as <- <-. cbn.
  destruct (Interaction.ID i0 =? 0); repeat split.
Qed.




(** The two steps every round handler starts with, and the two it ends
    with. *)
Lemma round_stored ts (rest : M unit) q p' :
  (setChannelState c
     (fun cs => with_LastKnownRound (Round.with_PostTime ts (LastKnownRound cs)) cs) ;;
   storeCurrentRound c ;; rest) q = Ok tt p' ->
  exists r p2,
    rest p2 = Ok tt p'
    /\ chan p2 c = with_LastKnownRound r (chan q c)
    /\ gorm.rounds (db p2) = gorm.rounds (db q) ++ [r]
    /\ Round.key r = Round.key (LastKnownRound (chan q c))
    /\ Round.PostTime r = ts
    /\ gorm.interactions (db p2) = gorm.interactions (db q)
    /\ gorm.interaction_messages (db p2) = gorm.interaction_messages (db q).
Proof.
  intros H.
  apply bind_Ok in H as ([] & p1 & H1 & H).
  match type of H1 with setChannelState c ?f ?q = _ =>
    assert (p1 = final (setChannelState c f q)) as Hp1 by (injection H1 as <-; reflexivity)
  end.
  clear H1.
  assert (chan p1 c = with_LastKnownRound (Round.with_PostTime ts (LastKnownRound (chan q c)))
                                          (chan q c)) as Hc1.
  { rewrite Hp1, chan_setChannelState. destruct (decide _); [reflexivity|contradiction]. }
  assert (db p1 = db q) as Hd1 by (rewrite Hp1; reflexivity).
  clear Hp1.
  apply bind_Ok in H as ([] & p2 & H2 & H).
  rewrite storeCurrentRound_eq, Hc1, Hd1 in H2. cbn [LastKnownRound with_LastKnownRound] in H2.
  destruct (gorm.Create_round _ (db q)) as [[r d']|err] eqn:Er; [|discriminate H2].
  match type of H2 with Ok tt ?q' = _ =>
    assert (p2 = q') as Hp2 by (injection H2 as <-; reflexivity) end.
  clear H2.
  exists r, p2. split; [exact H|].
  pose proof (Create_round_inl _ _ _ _ Er) as (Hrounds & Hgid & Hnum).
  unfold gorm.Create_round in Er. destruct (gorm.has_key Round.ID _ _); [discriminate|].
  destruct (gorm.has_key Round.key _ _); [discriminate|]. injection Er as <- <-.
  split.
  { rewrite Hp2, chan_setChannelState. destruct (decide _); [|contradiction].
    match goal with |- context [chan (with_db ?d ?q') c] =>
      change (chan (with_db d q') c) with (chan q' c) end.
    rewrite chan_entered, Hc1. reflexivity. }
  rewrite Hp2. cbn [db final setChannelState with_channels with_db].
  split; [exact Hrounds|].
  split; [unfold Round.key; cbn in Hgid, Hnum; rewrite Hgid, Hnum; reflexivity|].
  split; [destruct (Round.ID _ =? 0); reflexivity|]. split; reflexivity.
Qed.

Lemma next_round_opened q p' :
  (let* cs := getChannelState c in
   createNewRound c (GoInt.add (Round.RoundNumber (LastKnownRound cs)) 1)) q = Ok tt p' ->
  db p' = db q
  /\ LastKnownRound (chan p' c)
     = {| Round.ID := 0;
          Round.GameID := Game.ID (LastKnownGame (chan q c));
          Round.Game := LastKnownGame (chan q c);
          Round.RoundNumber := GoInt.add (Round.RoundNumber (LastKnownRound (chan q c))) 1;
          Round.PostTime := 0 |}.
Proof.
  intros H. apply bind_Ok in H as (cs & p4 & H4 & H). rewrite getChannelState_eq in H4.
  injection H4 as <- <-.
  unfold createNewRound, bind in H. rewrite getChannelState_eq in H.
  match type of H with setChannelState c ?f ?q' = _ =>
    assert (p' = final (setChannelState c f q')) as Hp' by (injection H as <-; reflexivity)
  end.
  clear H. rewrite Hp'. split; [cbn; rewrite !db_entered; reflexivity|].
  rewrite chan_setChannelState. destruct (decide _); [|contradiction].
  rewrite !chan_entered. reflexivity.
Qed.

End RoundLines.


(** X21.  An event round that is handled without an error stores the
    round the channel has open, under the time of the message, and exactly
    one interaction: it refers to that round and to a stored interaction
    message whose event is what follows " - " in the cleaned title and whose
    text is the first paragraph of the cleaned description as it stands (the
    placeholders of the mentions are not in it).  The channel then has the
    next round of the game open. *)
Theorem event_round_stores_one_interaction
        (unicode_IsGraphic : Z -> bool) (c : discord.Channel.t) (m : discord.Message.t)
        (e : discord.Embed.t) (p p' : Processor) :
  LastKnownIsGameRunning (chan p c) = true ->
  processEventRound unicode_IsGraphic c m e p = Ok tt p' ->
  let cleanDesc := GoStringsMap.Map (filterGraphic unicode_IsGraphic)
                                    (discord.Embed.Description e) in
  let cleanTitle := GoStringsMap.Map (filterGraphic unicode_IsGraphic)
                                     (discord.Embed.Title e) in
  let paragraph := String Regexp.newline (String Regexp.newline "") in
  exists r i before eventTitle,
    GoStrings.SplitN2 cleanTitle " - " = [before; eventTitle]
    /\ gorm.rounds (db p') = gorm.rounds (db p) ++ [r]
    /\ Round.key r = Round.key (LastKnownRound (chan p c))
    /\ Round.PostTime r = discord.Message.Timestamp m
    /\ gorm.interactions (db p') = gorm.interactions (db p) ++ [i]
    /\ recorded r (db p') (List.hd "" (GoStrings.SplitN2 cleanDesc paragraph)) eventTitle i
    /\ LastKnownRound (chan p' c)
       = {| Round.ID := 0;
            Round.GameID := Game.ID (LastKnownGame (chan p c));
            Round.Game := LastKnownGame (chan p c);
            Round.RoundNumber :=
              GoInt.add (Round.RoundNumber (LastKnownRound (chan p c))) 1;
            Round.PostTime := 0 |}.
Proof.
  intros Hrun H cleanDesc cleanTitle paragraph. unfold processEventRound in H.
  rewrite guard_running_passes in H by exact Hrun.
  apply round_stored in H as (r & p2 & H & Hc2 & Hr2 & Hkey & Hpt & Hi2 & _).
  rewrite chan_entered in Hc2, Hkey. rewrite db_entered in Hr2, Hi2.
  fold cleanDesc cleanTitle in H.
  destruct (GoStrings.SplitN2 cleanTitle " - ") as [|before [|eventTitle [|? ?]]];
    try discriminate H.
  fold paragraph in H.
  apply bind_Ok in H as ([text users] & p3 & H3 & H).
  destruct (extractUsers_eq m cleanDesc p2) as [_ [lg E]]. cbn zeta in E.
  rewrite E in H3. injection H3 as <- _ <-.
  apply bind_Ok in H as ([text2 items] & p4 & H4 & H).
  match type of H4 with extractItems ?s ?q = _ =>
    pose proof (round_frame_extractItems c s q) as Hf4 end.
  rewrite H4 in Hf4. clear H4. unfold round_frame in Hf4. cbn [final db with_log] in Hf4.
  change (chan (with_log lg p2) c) with (chan p2 c) in Hf4.
  injection Hf4 as Hc4 Hr4 Hi4 Hm4.
  apply bind_Ok in H as (im & p5 & H5 & H).
  apply (lookupInteractionMessage_Ok c) in H5 as (Hk & Hin & _ & Hc5 & Hr5 & Hi5).
  apply bind_Ok in H as (cs & p6 & H6 & H). rewrite getChannelState_eq in H6.
  injection H6 as <- <-.
  apply bind_Ok in H as (i & p7 & H7 & H).
  apply (storeInteraction_Ok c) in H7 as (Hi7 & Ha & Hb & Hd & He & Hc7 & Hr7 & Hm7).
  cbn [Interaction.Round Interaction.RoundID Interaction.Message Interaction.MessageID]
    in Ha, Hb, Hd, He.
  rewrite chan_entered in Hc7. rewrite db_entered in Hi7, Hr7, Hm7.
  apply (next_round_opened c) in H as [Hd' Hopen].
  assert (chan p5 c = with_LastKnownRound r (chan p c)) as Hc by congruence.
  exists r, i, before, eventTitle. split; [reflexivity|]. rewrite Hd'.
  split; [congruence|]. split; [exact Hkey|]. split; [exact Hpt|].
  split; [congruence|]. split.
  - unfold recorded. rewrite Ha, Hb, Hd, He, Hc, Hm7. repeat split; assumption.
  - rewrite Hopen, Hc7, Hc. cbn. injection Hkey as Hg Hn. rewrite Hn. reflexivity.
Qed.

(** ** Opening a game *)

Lemma chan_with_log l p c : chan (with_log l p) c = chan p c.
Proof. reflexivity. Qed.

(** X22.  [createNewGame] fails exactly when the host name is empty,
    with the error of the lookup of an empty name.  Otherwise it returns and
    writes nothing to the store: the channel is not running, its game is
    the game it has opened, under the counter plus one, with the era, the
    host name and the channel it was given and with the user the host name
    resolves to (the user of the last observation of that name, if there is
    one), and its open round is round 0 of that game, not stored yet. *)
Theorem createNewGame_opens_a_game
        (c : discord.Channel.t) (m : discord.Message.t) (era : string)
        (hostName : option string) (p : Processor) :
  let id := GoInt.add (LastKnownGameID p) 1 in
  let game := opened_game c id era hostName (db p) in
  (hostName = Some "" ->
   exists p1, createNewGame c m era hostName p = Err (errors_New "empty username") p1)
  /\ (hostName <> Some "" ->
      exists p1,
        createNewGame c m era hostName p = Ok tt p1
        /\ db p1 = db p
        /\ LastKnownGameID p1 = id
        /\ chan p1 c
           = {| LastKnownIsGameRunning := false;
                LastKnownGame := game;
                LastKnownRound :=
                  {| Round.ID := 0; Round.GameID := id; Round.Game := game;
                     Round.RoundNumber := 0; Round.PostTime := 0 |} |}).
Proof.
  intros id game. unfold createNewGame, bind. rewrite getChannelState_eq. cbv beta iota.
  match goal with |- context [setChannelState c ?f ?q] =>
    change (setChannelState c f q) with (Ok tt (final (setChannelState c f q)));
    set (p1 := final (setChannelState c f q)) end.
  cbv beta iota.
  assert (db p1 = db p /\ LastKnownGameID p1 = id
          /\ chan p1 c = with_LastKnownGame (opened_game c id era hostName gorm.empty)
                                            (chan p c)) as (Hd1 & Hg1 & Hc1).
  { unfold p1. split; [cbn; apply db_entered|]. split.
    - cbn. rewrite LastKnownGameID_entered. reflexivity.
    - rewrite chan_setChannelState. destruct (decide _); [|contradiction].
      change (chan (with_LastKnownGameID ?z ?q) c) with (chan q c).
      rewrite chan_entered. cbn. rewrite LastKnownGameID_entered.
      unfold opened_game. destruct hostName; reflexivity. }
  clearbody p1.
  assert (forall q,
             db q = db p -> LastKnownGameID q = id ->
             chan q c = with_LastKnownGame game (chan p c) ->
             exists p2,
               (setChannelState c
                  (fun cs => with_LastKnownRound
                               {| Round.ID := 0; Round.GameID := Game.ID (LastKnownGame cs);
                                  Round.Game := LastKnownGame cs; Round.RoundNumber := 0;
                                  Round.PostTime := 0 |} cs) ;;
                setChannelState c (with_LastKnownIsGameRunning false)) q = Ok tt p2
               /\ db p2 = db p /\ LastKnownGameID p2 = id
               /\ chan p2 c
                  = {| LastKnownIsGameRunning := false;
                       LastKnownGame := game;
                       LastKnownRound :=
                         {| Round.ID := 0; Round.GameID := id; Round.Game := game;
                            Round.RoundNumber := 0; Round.PostTime := 0 |} |}) as Hend.
  { intros q Hd Hg Hc. eexists. split; [reflexivity|]. cbn [final].
    split; [exact Hd|]. split; [exact Hg|].
    match goal with |- chan (with_channels _ ?q2) c = _ =>
      change (chan (with_channels _ q2) c)
        with (chan (final (setChannelState c (with_LastKnownIsGameRunning false) q2)) c) end.
    rewrite chan_setChannelState. destruct (decide _); [|contradiction].
    match goal with |- context [chan (with_channels ?ch q) c] =>
      change (chan (with_channels ch q) c)
        with (chan (final (setChannelState c
                             (fun cs => with_LastKnownRound
                                          {| Round.ID := 0;
                                             Round.GameID := Game.ID (LastKnownGame cs);
                                             Round.Game := LastKnownGame cs;
                                             Round.RoundNumber := 0;
                                             Round.PostTime := 0 |} cs) q)) c) end.
    rewrite chan_setChannelState. destruct (decide _); [|contradiction].
    rewrite Hc. reflexivity. }
  split.
  - intros ->. unfold lookupUserName. cbn [String.length Nat.eqb]. eexists. reflexivity.
  - intros Hhost. destruct hostName as [h|].
    + assert (h <> "") as Hh by congruence.
      destruct (lookupUserName_eq m h p1 Hh) as [lg ->]. rewrite Hd1.
      assert (game = match resolve (db p) h with
                     | Some u => Game.with_HostUser u (opened_game c id era (Some h) gorm.empty)
                     | None => opened_game c id era (Some h) gorm.empty
                     end) as Hgame.
      { unfold game, opened_game. cbn [mbind option_bind].
        destruct (resolve (db p) h); reflexivity. }
      destruct (resolve (db p) h) as [u|] eqn:Er.
      * match goal with |- context [setChannelState c ?f (with_log lg p1)] =>
          change (setChannelState c f (with_log lg p1))
            with (Ok tt (final (setChannelState c f (with_log lg p1))));
          set (p2 := final (setChannelState c f (with_log lg p1))) end.
        cbv beta iota. apply Hend.
        -- unfold p2. cbn. exact Hd1.
        -- unfold p2. cbn. exact Hg1.
        -- unfold p2. rewrite chan_setChannelState. destruct (decide _); [|contradiction].
           rewrite chan_with_log, Hc1, Hgame. reflexivity.
      * cbv beta iota. apply Hend; [exact Hd1 | exact Hg1|].
        rewrite chan_with_log, Hc1, Hgame. reflexivity.
    + cbv beta iota. apply Hend; [exact Hd1 | exact Hg1 | exact Hc1].
Qed.

(** ** The replay of the exports *)

(** X23.  The import stops at the first export that fails, and names it:
    when the exports before it have been replayed without an error, an
    export that does not decode ends the import with the error of the
    decoder, and an export whose replay fails ends it with that error, each
    under the name of the file.  What the replay has written by then stays
    written, and no later export is looked at. *)
Theorem import_stops_at_first_failure
        (unicode_IsGraphic : Z -> bool)
        (before after : list (string * (error + discord.Backup.t)))
        (name : string) (p p1 : Processor) :
  processBackups unicode_IsGraphic before p = Ok tt p1 ->
  (forall err,
      processBackups unicode_IsGraphic (before ++ (name, inl err) :: after) p
      = Err (ErrWrap ("failed to parse message export " +:+ name) err) p1)
  /\ (forall backup err p2,
         processExport unicode_IsGraphic backup p1 = Err err p2 ->
         processBackups unicode_IsGraphic (before ++ (name, inr backup) :: after) p
         = Err (ErrWrap ("failure in message export " +:+ name) err) p2).
Proof.
  intros H. unfold processBackups in *. split.
  - intros err. rewrite forEach_app. unfold bind at 1. rewrite H. reflexivity.
  - intros backup err p2 He. rewrite forEach_app. unfold bind at 1. rewrite H.
    cbn [forEach]. unfold bind at 1. cbn [snd fst]. unfold mapError. rewrite He. reflexivity.
Qed.

(** C1, counterexample: in the countdown state (a game is opened, not
    running) a round narrative is not ignored: [processRound] returns the
    [InconsistentState] error and the replay of the export fails with it. *)
Lemma round_during_countdown_fails :
  LastKnownIsGameRunning (chan Example.counting_down Example.main) = false
  /\ (exists p',
         processRound Example.IsGraphic Example.main Example.round1_message
                      Example.round1_embed Example.counting_down
         = Err (not_running "round data") p')
  /\ (exists p',
         processExport Example.IsGraphic
                       {| discord.Backup.Channel := Example.main;
                          discord.Backup.Messages := [Example.round1_message] |}
                       Example.counting_down
         = Err (wrapError Example.round1_message (not_running "round data")) p').
Proof.
  split; [vm_compute; reflexivity|].
  split; eexists; vm_compute; reflexivity.
Qed.



(** C6, counterexample: a text in which the mention of "b" is repeated and
    carries the words of a placeholder.  Once the two mentions of "a" have
    been replaced, the text of the mention of "b" also stands at the front
    of the text, where no mention was: the two replacements for "b" take
    that span and the first mention, and the repeated mention stays in the
    returned text as it was. *)
Theorem repeated_mention_stays_in_text :
  let msg := "**b **a** c** **a** **b {{users[0]}} c** **b {{users[0]}} c**" in
  let matches := Regexp.FindAllStringSubmatch Patterns.rxUserFormatted 4 msg in
  nth_s 0 <$> matches
  = ["**a**"; "**a**"; "**b {{users[0]}} c**"; "**b {{users[0]}} c**"]
  /\ match_key <$> matches
     = [("a", "", false); ("a", "", false);
        ("b", " {{users[0]}} c", false); ("b", " {{users[0]}} c", false)]
  /\ exists users p',
      extractUsers Example.round1_message msg (newProcessor gorm.empty)
      = Ok ("{{users[1]}} {{users[0]}} {{users[1]}} **b {{users[0]}} c**", users) p'
      /\ mention_key <$> users = [("a", "", false); ("b", " {{users[0]}} c", false)].
Proof.
  cbv zeta. split; [vm_compute; reflexivity|]. split; [vm_compute; reflexivity|].
  eexists _, _. split; vm_compute; reflexivity.
Qed.

(** C1, witness: on a channel that has seen nothing yet, a round
    narrative and a winner announcement are ignored with a warning. *)
Lemma round_or_winner_without_running_game_witness :
  processRound Example.IsGraphic Example.main Example.round1_message Example.round1_embed
               (newProcessor gorm.empty)
  = Ok tt (warned (ArgEmbed Example.round1_embed) Example.main (newProcessor gorm.empty))
  /\ processGameWinner Example.main Example.winner_message (newProcessor gorm.empty)
     = Ok tt (warned (ArgMessage Example.winner_message) Example.main
                     (newProcessor gorm.empty))
  /\ processRound Example.IsGraphic Example.main Example.round1_message Example.round1_embed
                  Example.counting_down
     = Err (not_running "round data")
           (refused (ArgEmbed Example.round1_embed) "round data" Example.main
                    Example.counting_down).
Proof.
  pose proof (round_or_winner_without_running_game
                Example.IsGraphic Example.main Example.round1_message Example.round1_embed
                (newProcessor gorm.empty)) as [Hidle _].
  pose proof (round_or_winner_without_running_game
                Example.IsGraphic Example.main Example.winner_message Example.round1_embed
                (newProcessor gorm.empty)) as [Hidle' _].
  pose proof (round_or_winner_without_running_game
                Example.IsGraphic Example.main Example.round1_message Example.round1_embed
                Example.counting_down) as [_ [Hrefused _]].
  split; [exact (proj1 (Hidle eq_refl eq_refl))|].
  split; [exact (proj1 (proj2 (Hidle' eq_refl eq_refl)))|].
  apply Hrefused; vm_compute; [reflexivity | discriminate].
Defined.



(** C8, witness: the run of the example on the empty store. *)
Lemma interaction_messages_deduplicated_witness :
  NoDup (message_key <$> gorm.interaction_messages (db (final Example.first_run)))
  /\ forall i, i ∈ gorm.interaction_messages (db (final Example.first_run)) ->
               lookupInteractionMessage (InteractionMessage.Text i)
                                        (InteractionMessage.Event i) (final Example.first_run)
               = Ok i (final Example.first_run).
Proof.
  exact (interaction_messages_deduplicated Example.IsGraphic gorm.empty Example.archive
                                           store_ok_empty).
Defined.

(** C4, witness: after the game of the example, whose host "zed" and
    whose mentions of "zed" could not be resolved, user "U1" is observed
    under the name "zed". *)
Lemma observe_backfills_unresolved_witness :
  Game.HostUserID <$> gorm.games (db (final Example.first_run)) = [None]
  /\ Game.HostUserID
       <$> gorm.games (db (final (observeUserName Example.zed_message "U1" "zed"
                                                   (final Example.first_run))))
     = [Some "U1"]
  /\ gorm.games (db (final (observeUserName Example.zed_message "U1" "zed"
                                            (final Example.first_run))))
     = fix_game "U1" "zed" <$> gorm.games (db (final Example.first_run)).
Proof.
  destruct (observe_backfills_unresolved Example.zed_message "U1" "zed"
                                         (final Example.first_run))
    as (_ & Hgames & _ & _).
  - exact (store_ok_runImport Example.IsGraphic gorm.empty Example.archive store_ok_empty).
  - discriminate.
  - vm_compute. discriminate.
  - split; [vm_compute; reflexivity|]. split; [|exact Hgames].
    rewrite Hgames. vm_compute. reflexivity.
Defined.

(** C5, witness: the same observation a second time. *)
Lemma observe_known_name_is_noop_witness :
  observeUserName Example.zed_message "U1" "zed"
                  (final (observeUserName Example.zed_message "U1" "zed"
                                          (newProcessor gorm.empty)))
  = Ok tt (final (observeUserName Example.zed_message "U1" "zed" (newProcessor gorm.empty))).
Proof.
  apply observe_known_name_is_noop.
  - exact (keeps_observeUserName Example.zed_message "U1" "zed" (newProcessor gorm.empty)
                                 store_ok_empty).
  - vm_compute. reflexivity.
Defined.

(** C10, witness: the first observation of "menardi" on an empty store
    ends the process; that of "zed" does not. *)
Lemma observe_zero_match_menardi_witness :
  (exists p', observeUserName Example.zed_message "U2" "menardi" (newProcessor gorm.empty)
              = Fatal p')
  /\ (exists p', observeUserName Example.zed_message "U1" "zed" (newProcessor gorm.empty)
                 = Ok tt p').
Proof.
  split.
  - destruct (observe_zero_match_menardi Example.zed_message "U2" "menardi"
                                         (newProcessor gorm.empty))
      as (p' & H & _); [discriminate | vm_compute; discriminate | reflexivity |].
    exists p'. exact H.
  - destruct (observe_zero_match_menardi Example.zed_message "U1" "zed"
                                         (newProcessor gorm.empty))
      as (p' & H & _); [discriminate | vm_compute; discriminate | reflexivity |].
    exists p'. exact H.
Defined.

(** C6, witness: a narrative that strikes the same name through twice. *)
Lemma extractUsers_collapses_repeats_witness :
  exists users p',
    extractUsers Example.round1_message Example.narrative (newProcessor gorm.empty)
    = Ok ("{{users[0]}} was hit, then {{users[0]}} fell and {{users[1]}} won", users) p'
    /\ mention_key <$> users = [("leerdix", "", true); ("zed", " the Mummy", false)]
    /\ NoDup (mention_key <$> users)
    /\ "{{users[0]}} was hit, then {{users[0]}} fell and {{users[1]}} won"
       = weave [""; " was hit, then "; " fell and "]
               ((fun match_ =>
                   users_placeholder (position (mention_key <$> users) (match_key match_)))
                  <$> Regexp.FindAllStringSubmatch Patterns.rxUserFormatted 4
                                                   Example.narrative)
               " won".
Proof.
  eexists _, _. split; [vm_compute; reflexivity|].
  match goal with
  | |- mention_key <$> ?users = _ /\ _ =>
      destruct (extractUsers_collapses_repeats
                  Example.round1_message Example.narrative
                  "{{users[0]}} was hit, then {{users[0]}} fell and {{users[1]}} won"
                  users (newProcessor gorm.empty)
                  (with_log
                     [Printf "WARNING: Could not find ID of user name %s for message ID %s, leaving null for now"
                             [ArgS "leerdix"; ArgS "3"];
                      Printf "WARNING: Could not find ID of user name %s for message ID %s, leaving null for now"
                             [ArgS "zed"; ArgS "3"]]
                     (newProcessor gorm.empty)))
        as (Hkeys & Hnodup & _ & _ & Hweave)
  end.
  - vm_compute. reflexivity.
  - split; [rewrite Hkeys; vm_compute; reflexivity|]. split; [exact Hnodup|].
    apply Hweave.
    + vm_compute. reflexivity.
    + vm_compute. reflexivity.
    + repeat constructor.
Defined.

(** C7, witness: two item mentions in one text, and one. *)
Lemma extractItems_multi_item_witness :
  extractItems "They picked the __Egg Launcher__ over the __Easter Cauldron__."
               (newProcessor gorm.empty)
  = Err (multi_item_error "They picked the __Egg Launcher__ over the __Easter Cauldron__.")
        (newProcessor gorm.empty)
  /\ exists item p',
      extractItems "They picked the __Egg Launcher__." (newProcessor gorm.empty)
      = Ok ("They picked the {{item}}.", [item]) p'
      /\ Item.Name item = "Egg Launcher".
Proof.
  split.
  - apply (proj1 (extractItems_multi_item
                    "They picked the __Egg Launcher__ over the __Easter Cauldron__."
                    (newProcessor gorm.empty))).
    vm_compute. lia.
  - destruct (proj1 (proj2 (proj2 (extractItems_multi_item "They picked the __Egg Launcher__."
                                                           (newProcessor gorm.empty))))
                    ["__Egg Launcher__"; "Egg Launcher"])
      as (item & p' & H & Hname & _); [vm_compute; reflexivity|].
    exists item, p'. split; [exact H | exact Hname].
Defined.

(** X1, witness: a message of the user "U1" after the game of the example. *)
Lemma foreign_message_leaves_state_machine_witness :
  let p' := final (processMessage Example.IsGraphic Example.main Example.zed_message (final Example.first_run)) in
  channels p' = channels (final Example.first_run)
  /\ LastKnownGameID p' = LastKnownGameID (final Example.first_run)
  /\ gorm.rounds (db p') = gorm.rounds (db (final Example.first_run))
  /\ gorm.interactions (db p') = gorm.interactions (db (final Example.first_run))
  /\ gorm.items (db p') = gorm.items (db (final Example.first_run))
  /\ gorm.interaction_messages (db p') = gorm.interaction_messages (db (final Example.first_run)).
Proof.
  apply (foreign_message_leaves_state_machine Example.IsGraphic Example.main Example.zed_message (final Example.first_run)).
  vm_compute. discriminate.
Defined.

(** X2, witness: the export of the main channel and the shopping channel. *)
Lemma other_channels_are_left_alone_witness :
  chan (final (processExport Example.IsGraphic Example.game_export (newProcessor gorm.empty))) Example.shopping
  = chan (newProcessor gorm.empty) Example.shopping.
Proof.
  apply (other_channels_are_left_alone Example.IsGraphic Example.game_export Example.shopping).
  vm_compute. discriminate.
Defined.

(** X3, witness: what follows the countdown in the export of the example. *)
Lemma game_counter_moves_only_at_countdowns_witness :
  LastKnownGameID (final (processExport Example.IsGraphic Example.after_countdown Example.counting_down))
  = LastKnownGameID Example.counting_down.
Proof.
  apply (proj1 (game_counter_moves_only_at_countdowns Example.IsGraphic Example.after_countdown
                                                      Example.counting_down)).
  vm_compute. reflexivity.
Defined.

(** X4, witness: a cancellation that follows the countdown. *)
Lemma end_of_game_errors_are_dropped_witness :
  embedLoop Example.IsGraphic Example.main Example.cancel_message 0 [Example.cancel_embed] Example.counting_down
  = Ok tt (refused (ArgMessage Example.cancel_message) "game cancellation" Example.main Example.counting_down).
Proof.
  assert (S : switch_case Example.cancel_message 0 Example.cancel_embed = GameCancelled)
    by (vm_compute; reflexivity).
  destruct (proj1 (end_of_game_errors_are_dropped Example.IsGraphic Example.main Example.cancel_message 0
                                                  Example.cancel_embed [] Example.counting_down) S)
    as [H1 H2].
  assert (R : LastKnownIsGameRunning (chan Example.counting_down Example.main) = false)
    by (vm_compute; reflexivity).
  assert (O : Game.ID (LastKnownGame (chan Example.counting_down Example.main)) <> 0)
    by (vm_compute; discriminate).
  exact (eq_trans H1 (f_equal (Ok tt) (H2 R O))).
Defined.

(** X5, witness: the balance of "zed" on a message without interaction. *)
Lemma user_command_without_interaction_panics_witness :
  processEmbed Example.IsGraphic Example.main Example.balance_message 0 Example.balance_embed (final Example.first_run)
  = Panic "invalid memory address or nil pointer dereference" (final Example.first_run)
  /\ processExport Example.IsGraphic
       {| discord.Backup.Channel := Example.main;
          discord.Backup.Messages := [] ++ Example.balance_message :: [Example.zed_message] |}
       (final Example.first_run)
     = Panic "invalid memory address or nil pointer dereference" (final Example.first_run).
Proof.
  assert (S : switch_case Example.balance_message 0 Example.balance_embed = UserCommand)
    by (vm_compute; reflexivity).
  destruct (user_command_without_interaction_panics
              Example.IsGraphic Example.main Example.balance_message 0 Example.balance_embed (final Example.first_run)
              S eq_refl)
    as (_ & H1 & H2).
  split; [exact H1|].
  apply (H2 []); reflexivity.
Defined.

(** X6, witness: a round that follows the countdown with no start. *)
Lemma processExport_errors_witness :
  exists p',
    processExport Example.IsGraphic Example.premature_round (newProcessor gorm.empty)
    = Err (wrapError Example.round1_message (not_running "round data")) p'
    /\ export_error (wrapError Example.round1_message (not_running "round data")).
Proof.
  eexists. 
  assert (E : processExport Example.IsGraphic Example.premature_round (newProcessor gorm.empty)
              = Err (wrapError Example.round1_message (not_running "round data"))
                    (final (processExport Example.IsGraphic Example.premature_round
                                          (newProcessor gorm.empty))))
    by (vm_compute; reflexivity).
  split; [exact E|].
  exact (proj1 (processExport_errors Example.IsGraphic Example.premature_round (newProcessor gorm.empty))
               _ _ E).
Defined.

(** X7, witness: a game summary that follows the countdown. *)
Lemma cancellation_event_or_summary_without_running_game_witness :
  processGameSummary Example.main Example.countdown_embed Example.counting_down
  = Err (not_running "game summary data")
        (refused (ArgEmbed Example.countdown_embed) "game summary data" Example.main Example.counting_down).
Proof.
  assert (R : LastKnownIsGameRunning (chan Example.counting_down Example.main) = false)
    by (vm_compute; reflexivity).
  assert (O : Game.ID (LastKnownGame (chan Example.counting_down Example.main)) <> 0)
    by (vm_compute; discriminate).
  destruct (cancellation_event_or_summary_without_running_game
              Example.IsGraphic Example.main Example.countdown_message Example.countdown_embed Example.counting_down)
    as (_ & H & _).
  exact (proj2 (proj2 (H R O))).
Defined.

(** X8, witness: the countdown of the example, then a cancellation. *)
Lemma cancelled_before_start_is_not_stored_witness :
  let p2 := refused (ArgMessage Example.cancel_message) "game cancellation" Example.main Example.counting_down in
  processGameCancelled Example.main Example.cancel_message Example.counting_down
  = Err (not_running "game cancellation") p2
  /\ processEmbed Example.IsGraphic Example.main Example.cancel_message 0 Example.cancel_embed Example.counting_down
     = Ok BreakEmbedLoop p2
  /\ db p2 = db (newProcessor gorm.empty)
  /\ chan p2 Example.main = chan Example.counting_down Example.main
  /\ LastKnownIsGameRunning (chan p2 Example.main) = false.
Proof.
  apply (cancelled_before_start_is_not_stored
           Example.IsGraphic Example.main Example.countdown_message Example.countdown_embed Example.cancel_message 0 Example.cancel_embed
           (newProcessor gorm.empty) Example.counting_down).
  - vm_compute. reflexivity.
  - vm_compute. discriminate.
  - vm_compute. reflexivity.
Defined.

(** X9, witness: the start of the example, then its winner announcement. *)
Lemma started_game_is_stored_and_ended_witness :
  let g := LastKnownGame (chan Example.running Example.main) in
  let ended := Game.with_EndTime (Some (discord.Message.Timestamp Example.winner_message)) g in
  LastKnownIsGameRunning (chan Example.running Example.main) = true
  /\ Game.StartTime g = Some (discord.Message.Timestamp Example.start_message)
  /\ Game.ID g <> 0
  /\ stored_game (Game.ID g) (db Example.running) = Some g
  /\ (exists p2,
         processGameWinner Example.main Example.winner_message Example.running = Ok tt p2
         /\ LastKnownIsGameRunning (chan p2 Example.main) = false
         /\ stored_game (Game.ID g) (db p2) = Some ended)
  /\ (exists p2,
         processGameCancelled Example.main Example.winner_message Example.running = Ok tt p2
         /\ LastKnownIsGameRunning (chan p2 Example.main) = false
         /\ stored_game (Game.ID g) (db p2) = Some (Game.with_Cancelled true ended)).
Proof.
  apply (started_game_is_stored_and_ended Example.IsGraphic Example.main Example.start_message Example.start_embed
                                          Example.winner_message Example.counting_down Example.running).
  vm_compute. reflexivity.
Defined.

(** X10, witness: the user "U1" observed as "zed" twice. *)
Lemma observing_twice_is_observing_once_witness :
  observeUserName Example.round1_message "U1" "zed" Example.zed_observed = Ok tt Example.zed_observed.
Proof.
  apply (observing_twice_is_observing_once Example.zed_message Example.round1_message "U1" "zed"
                                           (newProcessor gorm.empty) Example.zed_observed).
  vm_compute. reflexivity.
Defined.

(** X11, witness: the name "zed" once the user "U1" has been observed
    under it. *)
Lemma observed_name_resolves_witness :
  lookupUserName Example.round1_message "zed" Example.zed_observed
  = Ok (Some {| User.ID := "U1" |}) Example.zed_observed.
Proof.
  assert (O : observeUserName Example.zed_message "U1" "zed" (newProcessor gorm.empty)
              = Ok tt Example.zed_observed) by (vm_compute; reflexivity).
  assert (N : "zed" <> "") by discriminate.
  apply (proj2 (observed_name_resolves Example.zed_message Example.round1_message "U1" "zed"
                                       (newProcessor gorm.empty) Example.zed_observed O N)).
  vm_compute. discriminate.
Defined.

(** X12, witness: the text of a storm, stored with no event, looked up
    under the event "STORM". *)
Lemma lookupInteractionMessage_gets_or_creates_witness :
  lookupInteractionMessage "A storm is gathering" "STORM" Example.stormy
  = Err (ErrStore (gorm.ErrConstraint "interaction_message_text_idx")) Example.stormy.
Proof.
  destruct (lookupInteractionMessage_gets_or_creates "A storm is gathering" "STORM" Example.stormy)
    as (_ & H & _).
  apply H.
  - vm_compute. intros E. apply list_elem_of_singleton in E. discriminate E.
  - vm_compute. apply list_elem_of_singleton. reflexivity.
Defined.

(** X13, witness: the user "U1" looked up in an empty store. *)
Lemma lookup_or_create_is_idempotent_witness :
  exists p',
    lookupUserID "U1" (newProcessor gorm.empty) = Ok {| User.ID := "U1" |} p'
    /\ lookupUserID "U1" p' = Ok {| User.ID := "U1" |} p'
    /\ "U1" ∈ User.ID <$> gorm.users (db p')
    /\ ("U1" ∈ User.ID <$> gorm.users (db (newProcessor gorm.empty))
        -> p' = newProcessor gorm.empty).
Proof.
  destruct (lookup_or_create_is_idempotent "" "U1" (newProcessor gorm.empty))
    as (_ & H & _).
  apply H. discriminate.
Defined.

(** X14, witness: a name without a backslash. *)
Lemma unescapeMarkdown_plain_text_witness :
  unescapeMarkdown "zed the Mummy" = "zed the Mummy".
Proof.
  apply (proj1 (unescapeMarkdown_plain_text "zed the Mummy")).
  vm_compute. reflexivity.
Defined.

(** X15, witness: the file "A.JSON" of one message. *)
Lemma walkFunc_collects_json_exports_witness :
  loader.walkFunc (fun _ => inl Example.export_file) [] (loader.FileName Example.export_file)
                  {| loader.IsDir := false; loader.Name := "A" +:+ "." +:+ "JSON" |} None
  = loader.Return None ([] ++ [{| loader.firstMessageTime := 100;
                                  loader.file := Example.export_file |}]).
Proof.
  apply (proj1 (walkFunc_collects_json_exports
                  (fun _ => inl Example.export_file) [] (loader.FileName Example.export_file)
                  "A" "JSON" Example.export_file [100]
                  eq_refl eq_refl eq_refl eq_refl eq_refl eq_refl)).
Defined.

(** X16, witness: the store an import leaves that ends after the session
    start of the example. *)
Lemma runDump_panics_on_unfinished_game_witness :
  dump.runDump (fun _ => None) (fun _ => None) (db Example.running)
  = dump.RuntimePanic "invalid memory address or nil pointer dereference".
Proof.
  apply (proj2 (runDump_panics_on_unfinished_game
                  (fun _ => None) (fun _ => None) (db Example.running)
                  "invalid memory address or nil pointer dereference")).
  exists (LastKnownGame (chan Example.running Example.main)).
  split; [vm_compute; reflexivity|].
  split; [exists 110; vm_compute; reflexivity|].
  split; vm_compute; reflexivity.
Defined.

(** X17, witness: the session start of the example, then a dump. *)
Lemma dump_after_unfinished_import_panics_witness :
  dump.runDump (fun _ => None) (fun _ => Some (errors_New "disk full")) (db Example.running)
  = dump.RuntimePanic "invalid memory address or nil pointer dereference".
Proof.
  apply (dump_after_unfinished_import_panics
           Example.IsGraphic (fun _ => None) (fun _ => Some (errors_New "disk full"))
           Example.main Example.start_message Example.start_embed Example.counting_down Example.running).
  - vm_compute. reflexivity.
  - vm_compute. reflexivity.
  - intros g Hg.
    assert (E : gorm.games (db Example.running) = [LastKnownGame (chan Example.running Example.main)])
      by (vm_compute; reflexivity).
    rewrite E in Hg. apply list_elem_of_singleton in Hg. subst g. apply Z.le_refl.
Defined.

(** X18, witness: the dump of the store the import of the example leaves;
    its game ends at 140, its rounds are posted at 120 and 130. *)
Lemma runDump_latest_timestamp_witness :
  140 = Z.max 0 (Z.max match gorm.Last Game.ID (gorm.games (db (final Example.first_run))) with
                       | Some lastGame =>
                           Z.max (Game.CountdownStartTime lastGame)
                                 (default 0 (Game.EndTime lastGame))
                       | None => 0
                       end
                       match gorm.Last Round.ID (gorm.rounds (db (final Example.first_run))) with
                       | Some lastRound => Round.PostTime lastRound
                       | None => 0
                       end)
  /\ @None error = match @None error with
                   | Some e => Some e
                   | None => None
                   end.
Proof.
  apply (runDump_latest_timestamp (fun _ => None) (fun _ => None) (db (final Example.first_run))
                                  140 None).
  vm_compute. reflexivity.
Defined.


(** X21, witness: the storm of the second round of the example. *)
Lemma event_round_stores_one_interaction_witness :
  let p' := final (processEventRound Example.IsGraphic Example.main Example.round2_message Example.round2_embed
                                     Example.after_round1) in
  let cleanDesc := GoStringsMap.Map (filterGraphic Example.IsGraphic)
                                    (discord.Embed.Description Example.round2_embed) in
  let cleanTitle := GoStringsMap.Map (filterGraphic Example.IsGraphic)
                                     (discord.Embed.Title Example.round2_embed) in
  let paragraph := String Regexp.newline (String Regexp.newline "") in
  exists r i before eventTitle,
    GoStrings.SplitN2 cleanTitle " - " = [before; eventTitle]
    /\ gorm.rounds (db p') = gorm.rounds (db Example.after_round1) ++ [r]
    /\ Round.key r = Round.key (LastKnownRound (chan Example.after_round1 Example.main))
    /\ Round.PostTime r = discord.Message.Timestamp Example.round2_message
    /\ gorm.interactions (db p') = gorm.interactions (db Example.after_round1) ++ [i]
    /\ recorded r (db p') (List.hd "" (GoStrings.SplitN2 cleanDesc paragraph)) eventTitle i
    /\ LastKnownRound (chan p' Example.main)
       = {| Round.ID := 0;
            Round.GameID := Game.ID (LastKnownGame (chan Example.after_round1 Example.main));
            Round.Game := LastKnownGame (chan Example.after_round1 Example.main);
            Round.RoundNumber :=
              GoInt.add (Round.RoundNumber (LastKnownRound (chan Example.after_round1 Example.main))) 1;
            Round.PostTime := 0 |}.
Proof.
  apply (event_round_stores_one_interaction Example.IsGraphic Example.main Example.round2_message Example.round2_embed
                                            Example.after_round1);
    vm_compute; reflexivity.
Defined.

(** X22, witness: a game hosted by "zed", opened on the main channel of
    a new processor. *)
Lemma createNewGame_opens_a_game_witness :
  let p := newProcessor gorm.empty in
  let id := GoInt.add (LastKnownGameID p) 1 in
  let game := opened_game Example.main id "Classic" (Some "zed") (db p) in
  exists p1,
    createNewGame Example.main Example.countdown_message "Classic" (Some "zed") p = Ok tt p1
    /\ db p1 = db p
    /\ LastKnownGameID p1 = id
    /\ chan p1 Example.main
       = {| LastKnownIsGameRunning := false;
            LastKnownGame := game;
            LastKnownRound :=
              {| Round.ID := 0; Round.GameID := id; Round.Game := game;
                 Round.RoundNumber := 0; Round.PostTime := 0 |} |}.
Proof.
  apply (proj2 (createNewGame_opens_a_game Example.main Example.countdown_message "Classic" (Some "zed")
                                           (newProcessor gorm.empty))).
  discriminate.
Defined.

(** X23, witness: the archive of the example, followed by a file that
    does not decode. *)
Lemma import_stops_at_first_failure_witness :
  processBackups Example.IsGraphic
                 (Example.archive ++ [("discord-exports/1224009923457847428/b.json",
                               inl (errors_New "unexpected end of JSON input"))])
                 (newProcessor gorm.empty)
  = Err (ErrWrap ("failed to parse message export "
                  +:+ "discord-exports/1224009923457847428/b.json")
                 (errors_New "unexpected end of JSON input"))
        (final Example.first_run).
Proof.
  assert (B : processBackups Example.IsGraphic Example.archive (newProcessor gorm.empty)
              = Ok tt (final Example.first_run)) by (vm_compute; reflexivity).
  exact (proj1 (import_stops_at_first_failure
                  Example.IsGraphic Example.archive [] "discord-exports/1224009923457847428/b.json"
                  (newProcessor gorm.empty) (final Example.first_run) B)
               (errors_New "unexpected end of JSON input")).
Defined.
